(** * KSP-MGA-Planner: orbits, flyby sequences, maneuver details and the
      trajectory optimizer worker

    A shallow embedding of the TypeScript classes [Orbit], [FlybySequence],
    [Trajectory] (its maneuver details) and [TrajectoryOptimizer] (the
    dedicated worker of the trajectory search), followed by the properties
    proved about them.

    Numbers.  A JavaScript [number] is modelled by a real number of the
    Standard Library: the arithmetic operators and the [Math] functions are
    the exact ones, a comparison is the decision procedure of the order on
    [R], and a division by zero yields a number, as it does in JavaScript
    (no arithmetic operation throws).  Rounding, infinities and NaN are
    outside this model; where the source starts from [Infinity] the model has
    an explicit extended value.  Array lengths, indices and counters are
    integers ([nat], or [Z] where the source subtracts). *)

From Stdlib Require Import Reals Lra Lia Psatz RNsatz ZArith Bool List.
From Stdlib Require Import String Ascii.
Import ListNotations.

Set Implicit Arguments.

(* ================================================================== *)
(** * Part I: the embedding                                            *)
(* ================================================================== *)

(** ** The [Math] object *)

Module JsMath.
Open Scope R_scope.

Definition abs (x : R) : R := Rabs x.
Definition max (x y : R) : R := Rmax x y.
Definition min (x y : R) : R := Rmin x y.

(** [Math.sign]: 1, -1 or 0. *)
Definition sign (x : R) : R :=
  if Rlt_dec 0 x then 1 else if Rlt_dec x 0 then -1 else 0.

(** [Math.atanh], by its logarithmic form. *)
Definition atanh (x : R) : R := ln ((1 + x) / (1 - x)) / 2.

(** A number that may be [NaN]; [apply f a] is an arithmetic operation on
    an operand that may be [NaN], which yields [NaN] again. *)
Inductive number : Type :=
| Num (r : R)
| NaN.

Definition apply (f : R -> R) (a : number) : number :=
  match a with
  | Num r => Num (f r)
  | NaN => NaN
  end.

(** [Math.acos]: [NaN] for an argument outside [-1, 1]. *)
Definition acos (x : R) : number :=
  if Rle_dec (-1) x then
    if Rle_dec x 1 then Num (Ratan.acos x) else NaN
  else NaN.

End JsMath.

(** ** THREE.js vectors

    A [THREE.Vector3] is a mutable object: the model has a store of vectors
    and references into it, so that [clone] and the in-place operations keep
    the aliasing of the source.  The rotation that [applyAxisAngle] performs
    belongs to the THREE.js library; it is a parameter of the model. *)

Module Three.
Open Scope R_scope.

Record Vector3 : Type := mkVector3 { x : R; y : R; z : R }.
Record Vector2 : Type := mkVector2 { x2 : R; y2 : R }.

(** What [v.applyAxisAngle(axis, angle)] leaves in [v]. *)
Class Rotation : Type :=
  rotated : forall (axis : Vector3) (angle : R) (v : Vector3), Vector3.

(** The store of [Vector3] objects; a reference is an index into it. *)
Definition Store : Type := list Vector3.
Definition ref : Type := nat.

Definition deref (s : Store) (r : ref) : Vector3 :=
  nth r s (mkVector3 0 0 0).

Fixpoint assign (s : Store) (r : ref) (v : Vector3) : Store :=
  match s, r with
  | [], _ => []
  | _ :: s', O => v :: s'
  | w :: s', S r' => w :: assign s' r' v
  end.

(** Computations over the store. *)
Definition St (A : Type) : Type := Store -> A * Store.

Definition ret {A} (a : A) : St A := fun s => (a, s).
Definition bind {A B} (m : St A) (k : A -> St B) : St B :=
  fun s => let (a, s') := m s in k a s'.

(** [new THREE.Vector3(x, y, z)] *)
Definition newVector3 (a b c : R) : St ref :=
  fun s => (List.length s, s ++ [mkVector3 a b c]).

(** [v.clone()] *)
Definition clone (v : ref) : St ref :=
  fun s => (List.length s, s ++ [deref s v]).

(** [v.applyAxisAngle(axis, angle)] *)
Definition applyAxisAngle `{Rotation} (v axis : ref) (angle : R) : St unit :=
  fun s => (tt, assign s v (rotated (deref s axis) angle (deref s v))).

(** [v.multiplyScalar(k)] *)
Definition multiplyScalar (v : ref) (k : R) : St unit :=
  fun s => let w := deref s v in
           (tt, assign s v (mkVector3 (x w * k) (y w * k) (z w * k))).

(** [v.set(x, y, z)] *)
Definition set (v : ref) (a b c : R) : St unit :=
  fun s => (tt, assign s v (mkVector3 a b c)).

(** Reading the coordinates of [v]. *)
Definition read (v : ref) : St Vector3 := fun s => (deref s v, s).

(** [v.cross(w)]: [v] becomes the cross product of [v] and [w]. *)
Definition cross (v w : ref) : St unit :=
  fun s => let a := deref s v in
           let b := deref s w in
           (tt, assign s v (mkVector3 (y a * z b - z a * y b)
                                      (z a * x b - x a * z b)
                                      (x a * y b - y a * x b))).

(** [v.dot(w)] and [v.length()] on the coordinates read. *)
Definition dot3 (a b : Vector3) : R := x a * x b + y a * y b + z a * z b.
Definition length3 (a : Vector3) : R :=
  sqrt (x a * x a + y a * y a + z a * z a).

(** [THREE.MathUtils.degToRad] *)
Definition degToRad (deg : R) : R := deg * (PI / 180).

(** [Vector2]: [length], [normalize] (division by [length() || 1]) and
    [dot].  These are used on fresh, unshared objects only, so they are
    plain functions. *)
Definition length2 (u : Vector2) : R := sqrt (x2 u * x2 u + y2 u * y2 u).

Definition normalize2 (u : Vector2) : Vector2 :=
  let l := length2 u in
  let d := if Req_dec_T l 0 then 1 else l in
  mkVector2 (x2 u / d) (y2 u / d).

Definition dot2 (u v : Vector2) : R := x2 u * x2 v + y2 u * y2 v.
End Three.

Declare Scope store_scope.
Delimit Scope store_scope with store.
Notation "x <- m ;; k" := (Three.bind m (fun x => k))
  (at level 61, m at next level, right associativity) : store_scope.
Notation "m ;;; k" := (Three.bind m (fun _ => k))
  (at level 61, right associativity) : store_scope.

(** ** Celestial bodies *)

Module Body.
Record ICelestialBody : Type := mkBody {
  id           : nat;
  name         : string;
  radius       : R;
  stdGravParam : R;
  soi          : R
}.
End Body.

(** ** [class Orbit] *)

Module Orbit.
Import Three.
Open Scope R_scope.

(** [IOrbit]: the orbit data the constructor reads (the five elements),
    and the derived entries that the [data] getter fills in. *)
Record IOrbit : Type := mkIOrbit {
  d_semiMajorAxis    : R;
  d_apoapsis         : option R;
  d_periapsis        : option R;
  d_eccentricity     : R;
  d_inclination      : R;
  d_argOfPeriapsis   : R;
  d_ascNodeLongitude : R;
  d_orbitalParam     : option R;
  d_meanMotion       : option R
}.

Record OrbitalElements3D : Type := mkElements {
  e_eccentricity     : R;
  e_semiMajorAxis    : R;
  e_inclination      : R;
  e_ascNodeLongitude : R;
  e_argOfPeriapsis   : R
}.

(** An [Orbit] object.  An optional field is [None] when the constructor
    does not assign it.  The three direction vectors are references to
    [Vector3] objects of the store.  The [config] of the constructor, which
    no method reads, is left out. *)
Record t : Type := mkOrbit {
  semiMajorAxis    : R;
  apoapsis         : option R;
  periapsis        : option R;
  eccentricity     : R;
  inclination      : R;
  argOfPeriapsis   : R;
  ascNodeLongitude : R;
  orbitalParam     : R;
  meanMotion       : R;
  ascNodeDir       : ref;
  periapsisDir     : ref;
  normal           : ref;
  attractor        : Body.ICelestialBody
}.

Section Methods.
Context `{Rotation}.
Open Scope store_scope.

(** [constructor(data, attractor, config, anglesToRad = true)] *)
Definition constructor (data : IOrbit) (attractor : Body.ICelestialBody)
           (anglesToRad : bool) : St t :=
  let semiMajorAxis := d_semiMajorAxis data in
  let eccentricity := d_eccentricity data in
  let orbitalParam := semiMajorAxis * (1 - eccentricity ^ 2) in
  let meanMotion :=
    sqrt (Body.stdGravParam attractor / (JsMath.abs semiMajorAxis ^ 3)) in
  let '(periapsis, apoapsis) :=
    if Rlt_dec eccentricity 1 then
      let periapsis := semiMajorAxis * (1 - eccentricity) in
      (Some periapsis, Some (2 * semiMajorAxis - periapsis))
    else (None, None) in
  let inclination :=
    if anglesToRad then degToRad (d_inclination data)
    else d_inclination data in
  let argOfPeriapsis :=
    if anglesToRad then degToRad (d_argOfPeriapsis data)
    else d_argOfPeriapsis data in
  let ascNodeLongitude :=
    if anglesToRad then degToRad (d_ascNodeLongitude data)
    else d_ascNodeLongitude data in
  ascNodeDir <- newVector3 1 0 0 ;;
  up <- newVector3 0 1 0 ;;
  applyAxisAngle ascNodeDir up ascNodeLongitude ;;;
  normal <- newVector3 0 1 0 ;;
  applyAxisAngle normal ascNodeDir inclination ;;;
  periapsisDir <- clone ascNodeDir ;;
  applyAxisAngle periapsisDir normal argOfPeriapsis ;;;
  ret (mkOrbit semiMajorAxis apoapsis periapsis eccentricity
               inclination argOfPeriapsis ascNodeLongitude
               orbitalParam meanMotion
               ascNodeDir periapsisDir normal attractor).

(** [get data()] *)
Definition data (this : t) : IOrbit :=
  mkIOrbit (semiMajorAxis this) (apoapsis this) (periapsis this)
           (eccentricity this) (inclination this) (argOfPeriapsis this)
           (ascNodeLongitude this)
           (Some (orbitalParam this)) (Some (meanMotion this)).

(** [static fromOrbitalElements(elements, attractor, config)] *)
Definition fromOrbitalElements (elements : OrbitalElements3D)
           (attractor : Body.ICelestialBody) : St t :=
  let data := mkIOrbit (e_semiMajorAxis elements) None None
                       (e_eccentricity elements) (e_inclination elements)
                       (e_argOfPeriapsis elements)
                       (e_ascNodeLongitude elements) None None in
  constructor data attractor false.

(** The local function [newton] of [solveTrueAnomalyAtDate].  Its loop
    [while(Math.abs(x - prevX) > 1e-15 && n < 1000)] runs on the
    variables [prevX], [x] and [n]; [left] is [1000 - n], the number of
    iterations the second test still allows.  [newton_loop] yields the
    variables as the loop leaves them. *)
Record NewtonVars : Type := mkVars { prevX : R; x : R; n : nat }.

Fixpoint newton_loop (f df : R -> R) (left : nat) (v : NewtonVars)
  : NewtonVars :=
  if Rgt_dec (JsMath.abs (x v - prevX v)) 1e-15 then
    match left with
    | O => v
    | S left' =>
        newton_loop f df left'
                    (mkVars (x v) (x v - f (x v) / df (x v)) (S (n v)))
    end
  else v.

Definition newton_vars (M : R) (f df : R -> R) : NewtonVars :=
  newton_loop f df 1000 (mkVars M (M - f M / df M) 0).

Definition newton (M : R) (f df : R -> R) : R :=
  x (newton_vars M f df).

(** [solveTrueAnomalyAtDate(meanAnomaly0, epoch, date)] *)
Definition solveTrueAnomalyAtDate (this : t)
           (meanAnomaly0 epoch date : R) : R :=
  let e := eccentricity this in
  let deltaTime := date - epoch in
  let M := meanAnomaly0 + meanMotion this * deltaTime in
  if Rlt_dec (eccentricity this) 1 then
    let E := newton M (fun x => x - e * sin x - M)
                      (fun x => 1 - e * cos x) in
    2 * atan (sqrt ((1 + e) / (1 - e)) * tan (E * 0.5))
  else
    let H := newton M (fun x => e * sinh x - x - M)
                      (fun x => e * cosh x - 1) in
    2 * atan (sqrt ((e + 1) / (e - 1)) * tanh (H * 0.5)).

(** [radius(trueAnomaly)] *)
Definition radius (this : t) (trueAnomaly : R) : R :=
  orbitalParam this / (1 + eccentricity this * cos trueAnomaly).

(** [positionFromTrueAnomaly(trueAnomaly)] *)
Definition positionFromTrueAnomaly (this : t) (trueAnomaly : R) : St ref :=
  pos <- clone (periapsisDir this) ;;
  applyAxisAngle pos (normal this) trueAnomaly ;;;
  multiplyScalar pos (radius this trueAnomaly) ;;;
  ret pos.

(** [velocityFromTrueAnomaly(trueAnomaly)] *)
Definition velocityFromTrueAnomaly (this : t) (trueAnomaly : R) : St ref :=
  let e := eccentricity this in
  let mu := Body.stdGravParam (attractor this) in
  let nu := trueAnomaly in
  let a := semiMajorAxis this in
  let r := radius this nu in
  vel <- newVector3 0 0 0 ;;
  (if Rlt_dec e 1 then
     let v := sqrt (mu * a) / r in
     let E := 2 * atan (tan (nu * 0.5) * sqrt ((1 - e) / (1 + e))) in
     set vel (- v * sin E) 0 (- v * sqrt (1 - e * e) * cos E)
   else
     let v := sqrt (- mu * a) / r in
     let H := 2 * JsMath.atanh
                    (tan (nu * 0.5) * sqrt ((e - 1) / (e + 1))) in
     set vel (- v * sinh H) 0 (- v * sqrt (e * e - 1) * cosh H)) ;;;
  right <- newVector3 1 0 0 ;;
  up <- newVector3 0 1 0 ;;
  ascNodeDir <- clone right ;;
  applyAxisAngle ascNodeDir up (ascNodeLongitude this) ;;;
  applyAxisAngle vel up (ascNodeLongitude this) ;;;
  applyAxisAngle vel up (argOfPeriapsis this) ;;;
  applyAxisAngle vel ascNodeDir (inclination this) ;;;
  ret vel.

(** [stateAtDate(meanAnomaly0, epoch, date)] *)
Definition stateAtDate (this : t) (meanAnomaly0 epoch date : R)
  : St (ref * ref) :=
  let nu := solveTrueAnomalyAtDate this meanAnomaly0 epoch date in
  pos <- positionFromTrueAnomaly this nu ;;
  vel <- velocityFromTrueAnomaly this nu ;;
  ret (pos, vel).
End Methods.
End Orbit.

(** ** Thrown errors *)

(** The outcome of a call that may throw: its value, or the message of the
    [Error] thrown. *)
Inductive Result (A : Type) : Type :=
| Ok (a : A)
| Throw (msg : string).
Arguments Ok {A} a.
Arguments Throw {A} msg.

(** ** The solar system, as the solvers see it *)

Module System.
(** An [OrbitingBody]: a celestial body with the body it orbits, its orbit
    and its own true anomaly at a date ([trueAnomalyAtDate], a method of
    [objects/body.ts]). *)
Record OrbitingBody : Type := mkOrbiting {
  body              : Body.ICelestialBody;
  attractor         : Body.ICelestialBody;
  orbit             : Orbit.t;
  trueAnomalyAtDate : R -> R
}.

Definition id (b : OrbitingBody) : nat := Body.id (body b).
Definition name (b : OrbitingBody) : string := Body.name (body b).

(** A [SolarSystem]: the list [orbiting] and the method [bodyFromId]. *)
Record SolarSystem : Type := mkSystem {
  orbiting   : list OrbitingBody;
  bodyFromId : nat -> OrbitingBody
}.
End System.

(** ** JavaScript strings

    A string is a sequence of code units; the model has the code units
    below 256. *)

Module JsString.
Open Scope string_scope.

(** White space and line terminators, as [trim] strips them: TAB, LF, VT,
    FF, CR, SP and NBSP. *)
Definition isWhiteSpace (c : ascii) : bool :=
  match nat_of_ascii c with
  | 9 | 10 | 11 | 12 | 13 | 32 | 160 => true
  | _ => false
  end.

Fixpoint trimStart (s : list ascii) : list ascii :=
  match s with
  | [] => []
  | c :: s' => if isWhiteSpace c then trimStart s' else s
  end.

(** [str.trim()] *)
Definition trim (str : string) : string :=
  string_of_list_ascii
    (rev (trimStart (rev (trimStart (list_ascii_of_string str))))).

(** [str.split(sep)] for a separator of one code unit: one entry more than
    there are separators in [str]. *)
Fixpoint split (sep : ascii) (str : string) : list string :=
  match str with
  | EmptyString => [EmptyString]
  | String c rest =>
      if Ascii.eqb c sep then EmptyString :: split sep rest
      else match split sep rest with
           | [] => [String c EmptyString]
           | head :: tail => String c head :: tail
           end
  end.

(** [joinStrings(strs, sep)] of [utilities/array.ts]. *)
Definition joinStrings (strs : list string) (sep : string) : string :=
  String.concat sep strs.
End JsString.

(** ** [class FlybySequence] *)

Module FlybySequence.
Import System.
Open Scope string_scope.

Record t : Type := mkSequence {
  ids       : list nat;
  bodies    : list OrbitingBody;
  length    : nat;
  seqString : string
}.

(** [constructor(system, ids)] *)
Definition constructor (system : SolarSystem) (ids : list nat) : t :=
  let bodies := map (bodyFromId system) ids in
  let initials := map (fun body => substring 0 2 (name body)) bodies in
  mkSequence ids bodies (List.length bodies)
             (JsString.joinStrings initials "-").

(** [get seqStringFullNames()] *)
Definition seqStringFullNames (this : t) : string :=
  JsString.joinStrings (map name (bodies this)) "-".

(** How the inner loop [for(const body of system.orbiting)] of
    [fromString] ends for the token of index [i]: on the [break], with the
    value of [attractor] and the id pushed; at the end of the list, [valid]
    still false; or on the [throw]. *)
Inductive Scan : Type :=
| Pushed (attractor id : nat)
| NoMatch
| OtherAttractor.

Fixpoint scanOrbiting (orbiting : list OrbitingBody) (initial : string)
         (i attractor : nat) : Scan :=
  match orbiting with
  | [] => NoMatch
  | body :: rest =>
      if String.eqb (substring 0 2 (name body)) initial then
        if Nat.eqb i 0 then
          Pushed (Body.id (System.attractor body)) (id body)
        else if negb (Nat.eqb (Body.id (System.attractor body)) attractor)
        then OtherAttractor
        else Pushed attractor (id body)
      else scanOrbiting rest initial i attractor
  end.

(** The outer loop [for(let i = 0; i < initials.length; i++)], from the
    index [i] on, the tokens left being [initials]. *)
Fixpoint scanInitials (orbiting : list OrbitingBody) (initials : list string)
         (i attractor : nat) (ids : list nat) : Result (list nat) :=
  match initials with
  | [] => Ok ids
  | initial :: rest =>
      match scanOrbiting orbiting initial i attractor with
      | OtherAttractor =>
          Throw "All bodies of the sequence must orbit around the same body."
      | NoMatch => Throw "Invalid custom sequence input."
      | Pushed attractor' id =>
          scanInitials orbiting rest (S i) attractor' (ids ++ [id])
      end
  end.

(** [static fromString(str, system)] *)
Definition fromString (str : string) (system : SolarSystem) : Result t :=
  let str := JsString.trim str in
  let initials := JsString.split "-"%char str in
  match scanInitials (orbiting system) initials 0 0 [] with
  | Throw msg => Throw msg
  | Ok ids =>
      if Nat.leb (List.length ids) 1 then
        Throw "The sequence must contain at least two bodies."
      else Ok (constructor system ids)
  end.
End FlybySequence.

(** ** Trajectory steps *)

Module Step.
Import Three.

(** [maneuvre.context]: ["ejection"], ["dsm"] with its two bodies, or
    ["circularization"]. *)
Inductive ManeuvreContext : Type :=
| ejection
| dsm (originId targetId : nat)
| circularization.

Record ManeuvreInfo : Type := mkManeuvre {
  position         : Vector3;
  progradeDir      : Vector3;
  deltaVToPrevStep : Vector3;
  context          : ManeuvreContext
}.

Record FlybyInfo : Type := mkFlyby {
  bodyId       : nat;
  soiEnterDate : R;
  soiExitDate  : R;
  periRadius   : R;
  inclination  : R
}.

Record TrajectoryStep : Type := mkStep {
  orbitElts   : Orbit.OrbitalElements3D;
  attractorId : nat;
  dateOfStart : R;
  duration    : R;
  startM      : R;
  drawBegin   : R;
  drawEnd     : R;
  maneuvre    : option ManeuvreInfo;
  flyby       : option FlybyInfo
}.
End Step.

(** ** [class Trajectory]: the maneuver details *)

Module Trajectory.
Import Three Step.
Open Scope R_scope.
Open Scope store_scope.

Record ManeuvreDetails : Type := mkDetails {
  stepIndex  : nat;
  dateMET    : R;
  progradeDV : R;
  normalDV   : R;
  radialDV   : R;
  totalDV    : R;
  ejectAngle : option JsMath.number
}.

(** The fields of a [Trajectory] that the details are computed from and
    into. *)
Record t : Type := mkTrajectory {
  steps     : list TrajectoryStep;
  orbits    : list Orbit.t;
  maneuvres : list ManeuvreDetails
}.

Section Methods.
Context `{Rotation}.
Variable system : System.SolarSystem.

(** The loop of the constructor:
    [for(const {orbitElts, attractorId} of this.steps)]. *)
Fixpoint constructor_orbits (steps : list TrajectoryStep)
  : St (list Orbit.t) :=
  match steps with
  | [] => ret []
  | step :: rest =>
      let attractor :=
        System.body (System.bodyFromId system (attractorId step)) in
      orbit <- Orbit.fromOrbitalElements (orbitElts step) attractor ;;
      orbits <- constructor_orbits rest ;;
      ret (orbit :: orbits)
  end.

(** [constructor(solver, system, config)], [steps] being
    [solver.bestSteps]. *)
Definition constructor (bestSteps : list TrajectoryStep) : St t :=
  orbits <- constructor_orbits bestSteps ;;
  ret (mkTrajectory bestSteps orbits []).

(** The ejection angle of [_calculateManeuvresDetails], from the line
    [const cosA = ...] on, as a function of the two numbers it reads:
    [dot] is [u.dot(v)] and [cross] is [u.x*v.y - u.y*v.x]. *)
Definition ejectAngleFrom (dot cross : R) : JsMath.number :=
  let cosA := JsMath.min (JsMath.max dot (-1)) 1 in
  let ejectAngle := JsMath.apply (fun a => a * 180 / PI) (JsMath.acos cosA) in
  JsMath.apply (fun a => a * JsMath.sign cross) ejectAngle.

(** The ejection angle, from the position of the maneuver and the velocity
    of the body. *)
Definition ejectAngleOf (nodePos bodyVel : Vector3) : JsMath.number :=
  let u := mkVector2 (Three.x nodePos) (Three.z nodePos) in
  let v := mkVector2 (Three.x bodyVel) (Three.z bodyVel) in
  let u := normalize2 u in
  let v := normalize2 v in
  ejectAngleFrom (dot2 u v) (x2 u * y2 v - y2 u * x2 v).

(** The body of the loop of [_calculateManeuvresDetails] for a step that
    has a maneuver. *)
Definition maneuvreDetails (departureDate : R) (i : nat)
           (step : TrajectoryStep) (maneuvre : ManeuvreInfo)
           (orbit : Orbit.t) : St ManeuvreDetails :=
  progradeDir <- newVector3 (Three.x (progradeDir maneuvre))
                            (Three.y (progradeDir maneuvre))
                            (Three.z (progradeDir maneuvre)) ;;
  normalDir <- clone (Orbit.normal orbit) ;;
  radialDir <- clone progradeDir ;;
  cross radialDir normalDir ;;;
  deltaV <- newVector3 (Three.x (deltaVToPrevStep maneuvre))
                       (Three.y (deltaVToPrevStep maneuvre))
                       (Three.z (deltaVToPrevStep maneuvre)) ;;
  ejectAngle <-
    match context maneuvre with
    | ejection =>
        let nodePos := position maneuvre in
        let body := System.bodyFromId system (attractorId step) in
        let bodyNu := System.trueAnomalyAtDate body departureDate in
        bodyVel <- Orbit.velocityFromTrueAnomaly (System.orbit body)
                                                 bodyNu ;;
        bodyVel <- read bodyVel ;;
        ret (Some (ejectAngleOf nodePos bodyVel))
    | _ => ret None
    end ;;
  progradeDir <- read progradeDir ;;
  normalDir <- read normalDir ;;
  radialDir <- read radialDir ;;
  deltaV <- read deltaV ;;
  ret (mkDetails i (dateOfStart step - departureDate)
                 (dot3 progradeDir deltaV) (dot3 normalDir deltaV)
                 (dot3 radialDir deltaV) (length3 deltaV) ejectAngle).

(** The loop [for(let i = 0; i < this.steps.length; i++)] from the index
    [i] on, the steps left being [steps]; [maneuvres] is the list
    pushed to.  Reading a field of [this.orbits[i]] when there is no such
    orbit throws a [TypeError]. *)
Fixpoint detailsLoop (departureDate : R) (orbits : list Orbit.t)
         (steps : list TrajectoryStep) (i : nat)
         (maneuvres : list ManeuvreDetails)
  : St (Result unit * list ManeuvreDetails) :=
  match steps with
  | [] => ret (Ok tt, maneuvres)
  | step :: rest =>
      match maneuvre step with
      | Some maneuvre =>
          match nth_error orbits i with
          | None =>
              newVector3 (Three.x (progradeDir maneuvre))
                         (Three.y (progradeDir maneuvre))
                         (Three.z (progradeDir maneuvre)) ;;;
              ret (Throw "TypeError", maneuvres)
          | Some orbit =>
              details <- maneuvreDetails departureDate i step maneuvre
                                         orbit ;;
              detailsLoop departureDate orbits rest (S i)
                          (maneuvres ++ [details])
          end
      | None => detailsLoop departureDate orbits rest (S i) maneuvres
      end
  end.

(** [_calculateManeuvresDetails()]: the outcome and the trajectory with
    the details pushed.  [this.steps[0].dateOfStart] throws a
    [TypeError] when there is no step. *)
Definition _calculateManeuvresDetails (this : t) : St (Result unit * t) :=
  match steps this with
  | [] => ret (Throw "TypeError", this)
  | step0 :: _ =>
      let departureDate := dateOfStart step0 in
      r <- detailsLoop departureDate (orbits this) (steps this) 0
                       (maneuvres this) ;;
      ret (fst r, mkTrajectory (steps this) (orbits this) (snd r))
  end.
End Methods.
End Trajectory.

(** ** [class TrajectoryOptimizer]: the worker *)

Module Optimizer.
Import Step.
Open Scope R_scope.

(** An agent: [number[]]. *)
Definition Agent : Type := list R.

(** A number or [Infinity]: the values of [_bestDeltaV]. *)
Inductive Num : Type :=
| Finite (r : R)
| Infinity.

(** [x < b] for a number [x] and a bound [b]. *)
Definition below (x : R) (b : Num) : bool :=
  match b with
  | Infinity => true
  | Finite r => if Rlt_dec x r then true else false
  end.

(** The entries of [TrajectoryUserSettings] that the worker reads. *)
Record TrajectoryUserSettings : Type := mkSettings {
  noInsertion  : bool;
  destAltitude : R;
  maxDuration  : R
}.

(** [array[i]] for an integer [i]: [None] is [undefined]. *)
Definition index {A : Type} (array : list A) (i : Z) : option A :=
  if (i <? 0)%Z then None else nth_error array (Z.to_nat i).

(** [numLegs] and [agentDim] of [onWorkerRun], for [this._sequence]. *)
Definition numLegs (sequence : list nat) : Z :=
  (Z.of_nat (List.length sequence) - 1)%Z.

Definition agentDim (sequence : list nat) : Z :=
  (3 + numLegs sequence * 4 - 2)%Z.

Section Worker.
(** The scripts the worker imports are not part of the sources; what the
    worker calls of them is a parameter:  [Calc] is the state of a
    [TrajectoryCalculator] object and [Rng] the state of [Math.random],
    which [Evolution.randomizeAgent] draws from. *)
Variables Calc Rng : Type.

(** How a call of a calculator method ends: normally, or by a throw;
    either way with the state the calculator is left in. *)
Inductive Completion : Type :=
| Returned (c : Calc)
| Thrown (c : Calc).

Record Libs : Type := mkLibs {
  (** [new TrajectoryCalculator(system, config, sequence)], then
      [addPrecomputedOrbits(bodiesOrbits)] *)
  newCalculator : list Body.ICelestialBody -> list nat -> Calc;
  setParameters : TrajectoryUserSettings -> Agent -> Calc -> Calc;
  compute : Calc -> Completion;
  recomputeLegsSecondArcs : Calc -> Completion;
  reset : Calc -> Calc;
  steps : Calc -> list TrajectoryStep;
  totalDeltaV : Calc -> R;
  totalDuration : Calc -> R;
  (** [Utils.hasNaN] *)
  hasNaN : list TrajectoryStep -> bool;
  (** [Evolution.randomizeAgent]: the agent as it leaves it *)
  randomizeAgent : Agent -> Rng -> Agent * Rng;
  (** [Physics3D.velocityAtRadius] and [Physics3D.circularVelocity] *)
  velocityAtRadius :
    Orbit.OrbitalElements3D -> Body.ICelestialBody -> R -> R;
  circularVelocity : Body.ICelestialBody -> R -> R
}.

Variable libs : Libs.

(** The fields of the worker set by [onWorkerInitialize] and
    [onWorkerDataPass]. *)
Variable _system : list Body.ICelestialBody.
Variable _sequence : list nat.
Variable _settings : TrajectoryUserSettings.

(** The fields of the worker that [fitness] writes, and the state of the
    random generator. *)
Record State : Type := mkState {
  _bestTrajectory : option Calc;
  _bestDeltaV     : Num;
  _newDeltaVs     : list R;
  random          : Rng
}.

(** The body of the [try] block: [compute()], then
    [recomputeLegsSecondArcs()] unless the first call threw. *)
Definition tryCompute (trajectory : Calc) : Completion :=
  match compute libs trajectory with
  | Thrown c => Thrown c
  | Returned c => recomputeLegsSecondArcs libs c
  end.

(** The loop [while(attempts < maxAttempts)] of [_computeTrajectory];
    [left] is [maxAttempts - attempts].  The agent is an array that the
    caller shares: the result carries the array as the call leaves it. *)
Fixpoint computeLoop (left : nat) (trajectory : Calc) (agent : Agent)
         (rng : Rng) : Result Calc * Agent * Rng :=
  match left with
  | O => (Throw "Impossible to compute the trajectory.", agent, rng)
  | S left' =>
      let trajectory := setParameters libs _settings agent trajectory in
      let '(failed, trajectory) :=
        match tryCompute trajectory with
        | Returned c => (false, c)
        | Thrown c => (true, c)
        end in
      if failed || hasNaN libs (steps libs trajectory) then
        let '(agent, rng) := randomizeAgent libs agent rng in
        let trajectory := reset libs trajectory in
        computeLoop left' trajectory agent rng
      else (Ok trajectory, agent, rng)
  end.

(** [_computeTrajectory(agent, maxAttempts = 1000)] *)
Definition _computeTrajectoryN (maxAttempts : nat) (agent : Agent)
           (rng : Rng) : Result Calc * Agent * Rng :=
  let trajectory := newCalculator libs _system _sequence in
  computeLoop maxAttempts trajectory agent rng.

Definition _computeTrajectory (agent : Agent) (rng : Rng)
  : Result Calc * Agent * Rng :=
  _computeTrajectoryN 1000 agent rng.

(** The update of the best trajectory at the head of [fitness]. *)
Definition updateBest (trajectory : Calc) (st : State) : State :=
  if below (totalDeltaV libs trajectory) (_bestDeltaV st) then
    mkState (Some trajectory) (Finite (totalDeltaV libs trajectory))
            (_newDeltaVs st) (random st)
  else st.

(** [periVelCost] of [fitness]; [this._system[lastStep.attractorId]]
    may be [undefined], and reading its [radius] then throws. *)
Definition periVelCostOf (lastStep : TrajectoryStep) : Result R :=
  if noInsertion _settings then
    match nth_error _system (attractorId lastStep) with
    | None => Throw "TypeError"
    | Some finalBody =>
        let finalOrbit := orbitElts lastStep in
        let periapsis := destAltitude _settings + Body.radius finalBody in
        let periVel :=
          velocityAtRadius libs finalOrbit finalBody periapsis in
        let circDV := periVel - circularVelocity libs finalBody periapsis in
        Ok circDV
    end
  else Ok 0.

(** The closure [fitness] of [onWorkerRun]: the value returned (or the
    error thrown), the agent and the fields of the worker as the call
    leaves them. *)
Definition fitness (agent : Agent) (st : State)
  : Result R * Agent * State :=
  match _computeTrajectory agent (random st) with
  | (Throw msg, agent, rng) =>
      (Throw msg, agent,
       mkState (_bestTrajectory st) (_bestDeltaV st) (_newDeltaVs st) rng)
  | (Ok trajectory, agent, rng) =>
      let st := mkState (_bestTrajectory st) (_bestDeltaV st)
                        (_newDeltaVs st) rng in
      let st := updateBest trajectory st in
      let lastIdx :=
        (Z.of_nat (List.length (steps libs trajectory)) - 1)%Z in
      match index (steps libs trajectory) lastIdx with
      | None => (Throw "TypeError", agent, st)
      | Some lastStep =>
          let finalOrbit := orbitElts lastStep in
          let totDV := totalDeltaV libs trajectory in
          let st := mkState (_bestTrajectory st) (_bestDeltaV st)
                            (_newDeltaVs st ++ [totDV]) (random st) in
          let lastInc := JsMath.abs (Orbit.e_inclination finalOrbit) in
          match periVelCostOf lastStep with
          | Throw msg => (Throw msg, agent, st)
          | Ok periVelCost =>
              let duration := totalDuration libs trajectory in
              let durationOverflow :=
                JsMath.max 0 (duration - maxDuration _settings) in
              let durationCost := durationOverflow * totDV in
              (Ok (totDV + totDV * lastInc * 0.1 + periVelCost
                   + durationCost),
               agent, st)
          end
      end
  end.

(** The first-generation branch of [onWorkerRun], up to the evolver's
    calls: [_newDeltaVs] is emptied and [_bestDeltaV] set to
    [Infinity]. *)
Definition onWorkerRun_start (st : State) : State :=
  mkState (_bestTrajectory st) Infinity [] (random st).

(** The evolver calls [fitness] on agents of its choice, one call after the
    other, whatever the outcome of each: the fields of the worker after the
    calls on [agents]. *)
Fixpoint evaluate (agents : list Agent) (st : State) : State :=
  match agents with
  | [] => st
  | agent :: rest => evaluate rest (snd (fitness agent st))
  end.
End Worker.
End Optimizer.


(** ** [class Trajectory]: the flyby details, the total delta-V and the
    step of the pod *)

Module TrajectoryDisplay.
Import Three Step.
Open Scope R_scope.
Open Scope store_scope.

Record FlybyDetails : Type := mkFlybyDetails {
  fd_bodyId       : nat;
  soiEnterDateMET : R;
  soiExitDateMET  : R;
  periAltitude    : R;
  inclinationDeg  : R
}.

(** The body of the loop of [_calculateFlybyDetails] for a step that has a
    flyby. *)
Definition flybyDetails (system : System.SolarSystem) (departureDate : R)
           (flyby : FlybyInfo) : FlybyDetails :=
  let body := System.bodyFromId system (bodyId flyby) in
  let inc := inclination flyby * 57.2957795131 in
  let inc := if Rgt_dec inc 90 then 180 - inc else inc in
  mkFlybyDetails (bodyId flyby)
                 (soiEnterDate flyby - departureDate)
                 (soiExitDate flyby - departureDate)
                 ((periRadius flyby - Body.radius (System.body body)) / 1000)
                 inc.

(** The loop [for(let i = 0; i < this.steps.length; i++)], the steps left
    being [steps]; [flybys] is the list pushed to. *)
Fixpoint flybysLoop (system : System.SolarSystem) (departureDate : R)
         (steps : list TrajectoryStep) (flybys : list FlybyDetails)
  : list FlybyDetails :=
  match steps with
  | [] => flybys
  | step :: rest =>
      match flyby step with
      | Some info =>
          flybysLoop system departureDate rest
                     (flybys ++ [flybyDetails system departureDate info])
      | None => flybysLoop system departureDate rest flybys
      end
  end.

(** [_calculateFlybyDetails()], [flybys] being [this.flybys]: the outcome
    and the list as the call leaves it.  [this.steps[0].dateOfStart]
    throws a [TypeError] when there is no step. *)
Definition _calculateFlybyDetails (system : System.SolarSystem)
           (this : Trajectory.t) (flybys : list FlybyDetails)
  : Result unit * list FlybyDetails :=
  match Trajectory.steps this with
  | [] => (Throw "TypeError", flybys)
  | step0 :: _ =>
      (Ok tt, flybysLoop system (dateOfStart step0) (Trajectory.steps this)
                         flybys)
  end.

(** The loop of [get totalDeltaV()]; each round makes a new vector. *)
Fixpoint totalDeltaVLoop (maneuvres : list Trajectory.ManeuvreDetails)
         (total : R) : St R :=
  match maneuvres with
  | [] => ret total
  | details :: rest =>
      v <- newVector3 (Trajectory.progradeDV details)
                      (Trajectory.normalDV details)
                      (Trajectory.radialDV details) ;;
      v <- read v ;;
      totalDeltaVLoop rest (total + length3 v)
  end.

(** [get totalDeltaV()] *)
Definition totalDeltaV (this : Trajectory.t) : St R :=
  totalDeltaVLoop (Trajectory.maneuvres this) 0.

(** Whether [date >= dateOfStart && date < dateOfStart + duration]. *)
Definition during (step : TrajectoryStep) (date : R) : bool :=
  if Rge_dec date (dateOfStart step) then
    if Rlt_dec date (dateOfStart step + duration step) then true else false
  else false.

(** The loop [for(; i < this.steps.length-k; i++)], the steps from the
    index [i] on being [rest]; [bound] is [this.steps.length - k]. *)
Fixpoint podLoop (rest : list TrajectoryStep) (i bound : Z) (date : R) : Z :=
  match rest with
  | [] => i
  | step :: rest' =>
      if (i <? bound)%Z then
        if during step date then i
        else podLoop rest' (i + 1)%Z bound date
      else i
  end.

(** [updatePodPosition(systemTime)], up to the choice of the step: the
    date, clamped to the mission, and the index [i] of the step that the
    pod is moved to; [dateSeconds] is [systemTime.dateSeconds].  Without a
    step, reading [lastStep.dateOfStart] throws a [TypeError]. *)
Definition podStep (steps : list TrajectoryStep) (dateSeconds : R)
  : Result (R * Z) :=
  match steps with
  | [] => Throw "TypeError"
  | step0 :: _ =>
      let lastStep := last steps step0 in
      let missionStart := dateOfStart step0 in
      let missionEnd := dateOfStart lastStep + duration lastStep in
      let date :=
        if Rlt_dec dateSeconds missionStart then missionStart
        else if Rgt_dec dateSeconds missionEnd then missionEnd
        else dateSeconds in
      let k := match flyby lastStep with Some _ => 0 | None => 1 end%Z in
      let bound := (Z.of_nat (List.length steps) - k)%Z in
      let i := podLoop (skipn 1 steps) 1 bound date in
      let i := Z.min i (bound - 1) in
      Ok (date, i)
  end.
End TrajectoryDisplay.

(** ** [pairsToString] of the trajectory text *)

Module Text.
Open Scope string_scope.

(** An entry of [pairs]; the indents are the literals 0 to 3 of
    [trajectoryToText]. *)
Record Pair : Type := mkPair {
  label  : string;
  data   : string;
  indent : nat
}.

Fixpoint spaces (n : nat) : string :=
  match n with
  | O => ""
  | S n' => String " " (spaces n')
  end.

(** [" ".repeat(count)], which throws a [RangeError] for a negative
    count. *)
Definition repeatSpace (count : Z) : Result string :=
  if (count <? 0)%Z then Throw "RangeError"
  else Ok (spaces (Z.to_nat count)).

(** The line that the first loop pushes for a entry. *)
Definition labelLine (entry : Pair) : string :=
  if String.eqb (label entry) "" then ""
  else spaces (indent entry * 2) ++ label entry ++ ":".

(** The first loop, [for(const pair of pairs)]; [lines] is the list
    pushed to. *)
Fixpoint linesLoop (pairs : list Pair) (lines : list string)
  : list string :=
  match pairs with
  | [] => lines
  | entry :: rest => linesLoop rest (lines ++ [labelLine entry])
  end.

(** The second loop, [for(const line of lines)]. *)
Fixpoint maxLenLoop (lines : list string) (maxLen : Z) : Z :=
  match lines with
  | [] => maxLen
  | line :: rest =>
      maxLenLoop rest (Z.max maxLen (Z.of_nat (String.length line)))
  end.

(** [lines[i] = line] for an index of the array. *)
Fixpoint update (lines : list string) (i : nat) (line : string)
  : list string :=
  match lines, i with
  | [], _ => []
  | _ :: rest, O => line :: rest
  | first :: rest, S i' => first :: update rest i' line
  end.

(** The third loop, [for(let i = 0; i < pairs.length; i++)], from the
    index [i] on, the pairs left being [pairs].  Reading the length of
    [lines[i]] when there is no such line throws a [TypeError]. *)
Fixpoint fillLoop (pairs : list Pair) (i : nat) (lines : list string)
         (maxLen : Z) : Result (list string) :=
  match pairs with
  | [] => Ok lines
  | entry :: rest =>
      if String.eqb (label entry) "" && String.eqb (data entry) "" then
        fillLoop rest (S i) lines maxLen
      else
        match nth_error lines i with
        | None => Throw "TypeError"
        | Some line =>
            match repeatSpace
                    (maxLen - Z.of_nat (String.length line) + 1) with
            | Throw msg => Throw msg
            | Ok gap =>
                fillLoop rest (S i)
                         (update lines i (line ++ gap ++ data entry)) maxLen
            end
        end
  end.

Definition newline : string := String (ascii_of_nat 10) EmptyString.

(** [pairsToString(pairs)] *)
Definition pairsToString (pairs : list Pair) : Result string :=
  let lines := linesLoop pairs [] in
  let maxLen := maxLenLoop lines 0 in
  match fillLoop pairs 0 lines maxLen with
  | Throw msg => Throw msg
  | Ok lines => Ok (JsString.joinStrings lines newline)
  end.
End Text.

(** ** [onWorkerInitialize]: the orbital elements of the bodies *)

Module WorkerSetup.
Section Initialize.
(** An [IOrbitingBody] with its field [orbit], and
    [Physics3D.orbitElementsFromOrbitData], which is not part of the
    sources. *)
Variables OrbitingBody OrbitData Elements : Type.
Variable orbit : OrbitingBody -> OrbitData.
Variable orbitElementsFromOrbitData : OrbitData -> Elements.

(** The loop [for(let i = 1; i < this._system.length; i++)], the bodies
    from the index [i] on being [rest]; [None] is [null]. *)
Fixpoint initializeLoop (rest : list OrbitingBody)
         (_bodiesOrbits : list (option Elements))
  : list (option Elements) :=
  match rest with
  | [] => _bodiesOrbits
  | body :: rest' =>
      initializeLoop rest'
        (_bodiesOrbits ++ [Some (orbitElementsFromOrbitData (orbit body))])
  end.

(** [onWorkerInitialize(data)]: the field [_bodiesOrbits] it leaves. *)
Definition onWorkerInitialize (_system : list OrbitingBody)
  : list (option Elements) :=
  initializeLoop (skipn 1 _system) [None].
End Initialize.
End WorkerSetup.

(* ================================================================== *)
(** * Part II: properties                                              *)
(* ================================================================== *)

(** ** The store of vectors *)

Section StoreFacts.
Import Three.

(** [keeps b s s']: going from [s] to [s'], no object is lost and the first
    [b] objects are as they were. *)
Definition keeps (b : nat) (s s' : Store) : Prop :=
  (List.length s <= List.length s')%nat /\
  forall r, (r < b)%nat -> deref s' r = deref s r.

Lemma keeps_refl b s : keeps b s s.
Proof. split; auto. Qed.

Lemma keeps_trans b s1 s2 s3 :
  keeps b s1 s2 -> keeps b s2 s3 -> keeps b s1 s3.
Proof.
  intros [L12 D12] [L23 D23]; split; [lia|].
  intros r Hr. rewrite D23, D12; auto.
Qed.

Lemma length_assign s r v : List.length (assign s r v) = List.length s.
Proof.
  revert r; induction s as [|w s IH]; intros [|r]; simpl; auto.
Qed.

Lemma deref_assign_other s r v r' :
  r' <> r -> deref (assign s r v) r' = deref s r'.
Proof.
  unfold deref. revert r r'; induction s as [|w s IH]; intros [|r] [|r'] Hne;
    simpl; auto; try congruence.
Qed.

Lemma deref_assign_same s r v :
  (r < List.length s)%nat -> deref (assign s r v) r = v.
Proof.
  unfold deref. revert r; induction s as [|w s IH]; intros [|r] Hr;
    simpl in *; auto; try lia. apply IH; lia.
Qed.

Lemma deref_alloc_old s v r :
  (r < List.length s)%nat -> deref (s ++ [v]) r = deref s r.
Proof. intros Hr. unfold deref. now rewrite app_nth1. Qed.

Lemma deref_alloc_new s v : deref (s ++ [v]) (List.length s) = v.
Proof. unfold deref. rewrite app_nth2, Nat.sub_diag; auto. Qed.

Lemma keeps_alloc b s v : (b <= List.length s)%nat -> keeps b s (s ++ [v]).
Proof.
  intros Hb; split.
  - rewrite length_app; simpl; lia.
  - intros r Hr. apply deref_alloc_old; lia.
Qed.

Lemma keeps_assign b s r v : (b <= r)%nat -> keeps b s (assign s r v).
Proof.
  intros Hb; split.
  - rewrite length_assign; lia.
  - intros r' Hr'. apply deref_assign_other; lia.
Qed.

(** A computation that writes to the objects it allocates only, whatever the
    store it starts from: it keeps every object that was there. *)
Definition allocates_only {A} (m : St A) : Prop :=
  forall s, keeps (List.length s) s (snd (m s)).

End StoreFacts.

Lemma keeps_weaken b b' s s' : (b <= b')%nat -> keeps b' s s' -> keeps b s s'.
Proof. intros Hb [L D]; split; auto. intros r Hr; apply D; lia. Qed.

(** Solves [keeps b s s'] when [s'] is [s] after allocations and writes to
    the objects allocated. *)
Ltac frame_store :=
  lazymatch goal with
  | |- keeps _ ?s ?s => apply keeps_refl
  | |- keeps _ ?s (Three.assign ?s' _ _) =>
      apply keeps_trans with s';
      [ frame_store
      | apply keeps_assign;
        repeat (rewrite length_assign || rewrite length_app); simpl; lia ]
  | |- keeps _ ?s (?s' ++ [_]) =>
      apply keeps_trans with s';
      [ frame_store
      | apply keeps_alloc;
        repeat (rewrite length_assign || rewrite length_app); simpl; lia ]
  end.

(** ** Orbits *)

Section OrbitFacts.
Import Three Orbit.
Context `{Rotation}.
Open Scope R_scope.

Lemma constructor_allocates_only data attractor anglesToRad :
  allocates_only (constructor data attractor anglesToRad).
Proof.
  intros s. unfold constructor.
  destruct (Rlt_dec (d_eccentricity data) 1); cbn; frame_store.
Qed.

Lemma positionFromTrueAnomaly_allocates_only this nu :
  allocates_only (positionFromTrueAnomaly this nu).
Proof. intros s. cbn. frame_store. Qed.

Lemma velocityFromTrueAnomaly_allocates_only this nu :
  allocates_only (velocityFromTrueAnomaly this nu).
Proof.
  intros s. unfold velocityFromTrueAnomaly.
  destruct (Rlt_dec (eccentricity this) 1) as [He|He]; cbn;
    destruct (Rlt_dec (eccentricity this) 1); try contradiction;
    cbn; frame_store.
Qed.

Lemma stateAtDate_allocates_only this meanAnomaly0 epoch date :
  allocates_only (stateAtDate this meanAnomaly0 epoch date).
Proof.
  intros s. unfold stateAtDate, bind.
  set (nu := solveTrueAnomalyAtDate this meanAnomaly0 epoch date).
  pose proof (positionFromTrueAnomaly_allocates_only this nu s) as Hp.
  destruct (positionFromTrueAnomaly this nu s) as [pos s1]; simpl in Hp.
  pose proof (velocityFromTrueAnomaly_allocates_only this nu s1) as Hv.
  destruct (velocityFromTrueAnomaly this nu s1) as [vel s2]; simpl in *.
  apply keeps_trans with s1; auto.
  apply keeps_weaken with (List.length s1); auto. apply Hp.
Qed.

(** The methods of an [Orbit], with their arguments. *)
Inductive Call : Type :=
| call_data
| call_solveTrueAnomalyAtDate (meanAnomaly0 epoch date : R)
| call_positionFromTrueAnomaly (trueAnomaly : R)
| call_velocityFromTrueAnomaly (trueAnomaly : R)
| call_radius (trueAnomaly : R)
| call_stateAtDate (meanAnomaly0 epoch date : R).

(** The effect of a call on the store; the value returned is dropped. *)
Definition perform (this : Orbit.t) (c : Call) : St unit :=
  match c with
  | call_data => let _ := data this in ret tt
  | call_solveTrueAnomalyAtDate m0 epoch date =>
      let _ := solveTrueAnomalyAtDate this m0 epoch date in ret tt
  | call_positionFromTrueAnomaly nu =>
      bind (positionFromTrueAnomaly this nu) (fun _ => ret tt)
  | call_velocityFromTrueAnomaly nu =>
      bind (velocityFromTrueAnomaly this nu) (fun _ => ret tt)
  | call_radius nu => let _ := radius this nu in ret tt
  | call_stateAtDate m0 epoch date =>
      bind (stateAtDate this m0 epoch date) (fun _ => ret tt)
  end.

Fixpoint performAll (this : Orbit.t) (calls : list Call) : St unit :=
  match calls with
  | [] => ret tt
  | c :: rest => bind (perform this c) (fun _ => performAll this rest)
  end.

Lemma bind_ret_snd {A} (m : St A) s :
  snd (bind m (fun _ => ret tt) s) = snd (m s).
Proof. unfold bind, ret. now destruct (m s). Qed.

Lemma perform_allocates_only this c : allocates_only (perform this c).
Proof.
  intros s. destruct c; unfold perform; try apply keeps_refl;
    rewrite bind_ret_snd.
  - apply positionFromTrueAnomaly_allocates_only.
  - apply velocityFromTrueAnomaly_allocates_only.
  - apply stateAtDate_allocates_only.
Qed.

Lemma performAll_allocates_only this calls :
  allocates_only (performAll this calls).
Proof.
  induction calls as [|c rest IH]; intros s; simpl.
  - apply keeps_refl.
  - unfold bind. pose proof (perform_allocates_only this c s) as Hc.
    destruct (perform this c s) as [[] s1]; simpl in Hc.
    apply keeps_trans with s1; auto.
    apply keeps_weaken with (List.length s1); [apply Hc | apply IH].
Qed.

(** The three direction vectors of a constructed orbit are objects of the
    store the constructor leaves. *)
Lemma constructor_refs data attractor anglesToRad s0 :
  let o := fst (constructor data attractor anglesToRad s0) in
  let s1 := snd (constructor data attractor anglesToRad s0) in
  (ascNodeDir o < List.length s1)%nat /\
  (periapsisDir o < List.length s1)%nat /\
  (normal o < List.length s1)%nat.
Proof.
  unfold constructor.
  destruct (Rlt_dec (d_eccentricity data) 1); cbn;
    repeat (rewrite length_assign || rewrite length_app); simpl; lia.
Qed.

(** The fields the constructor assigns. *)
Lemma constructor_fields data attractor anglesToRad s0 :
  let o := fst (constructor data attractor anglesToRad s0) in
  let a := semiMajorAxis o in
  let e := eccentricity o in
  a = d_semiMajorAxis data /\ e = d_eccentricity data /\
  Orbit.attractor o = attractor /\
  orbitalParam o = a * (1 - e ^ 2) /\
  meanMotion o = sqrt (Body.stdGravParam attractor / (Rabs a ^ 3)) /\
  (e < 1 -> periapsis o = Some (a * (1 - e)) /\
            apoapsis o = Some (2 * a - a * (1 - e))) /\
  (~ e < 1 -> periapsis o = None /\ apoapsis o = None).
Proof.
  intros o a e. subst o a e. unfold constructor.
  destruct (Rlt_dec (d_eccentricity data) 1) as [He|He]; cbn;
    repeat split; auto; intros; try contradiction.
Qed.

(** C7.  An orbit, as its constructor returns it, has
    [orbitalParam = semiMajorAxis * (1 - eccentricity^2)] and
    [meanMotion = sqrt(attractor.stdGravParam / |semiMajorAxis|^3)]; its
    [periapsis] and [apoapsis] are defined, as [a * (1 - e)] and
    [2 * a - periapsis], when [eccentricity < 1] and undefined otherwise; and
    whatever methods are called on it afterwards, its three direction
    vectors hold the coordinates the constructor gave them (the other fields
    are numbers of an immutable record). *)
Theorem orbit_invariants (data : IOrbit) (attractor : Body.ICelestialBody)
        (anglesToRad : bool) (s0 : Store) :
  let o := fst (constructor data attractor anglesToRad s0) in
  let s1 := snd (constructor data attractor anglesToRad s0) in
  let a := semiMajorAxis o in
  let e := eccentricity o in
  a = d_semiMajorAxis data /\
  e = d_eccentricity data /\
  Orbit.attractor o = attractor /\
  orbitalParam o = a * (1 - e ^ 2) /\
  meanMotion o = sqrt (Body.stdGravParam attractor / (Rabs a ^ 3)) /\
  (e < 1 ->
   periapsis o = Some (a * (1 - e)) /\
   apoapsis o = Some (2 * a - a * (1 - e))) /\
  (~ e < 1 -> periapsis o = None /\ apoapsis o = None) /\
  forall calls : list Call,
    let s2 := snd (performAll o calls s1) in
    deref s2 (ascNodeDir o) = deref s1 (ascNodeDir o) /\
    deref s2 (periapsisDir o) = deref s1 (periapsisDir o) /\
    deref s2 (normal o) = deref s1 (normal o).
Proof.
  intros o s1 a e.
  pose proof (constructor_fields data attractor anglesToRad s0) as Hfields.
  cbv zeta in Hfields. fold o in Hfields. fold a e in Hfields.
  destruct Hfields as (Ha & He & Hat & Hp & Hm & Hlt & Hge).
  repeat (split; [assumption|]).
  intros calls s2.
  destruct (constructor_refs data attractor anglesToRad s0) as (R1 & R2 & R3).
  destruct (performAll_allocates_only o calls s1) as [_ Hkeep].
  fold s2 in Hkeep. fold o s1 in R1, R2, R3.
  repeat split; apply Hkeep; assumption.
Qed.

(** C9.  For an orbit of eccentricity in (0, 1), the radius at true anomaly
    0 is the [periapsis] field and the radius at true anomaly [PI] is the
    [apoapsis] field. *)
Theorem radius_at_apsides (data : IOrbit) (attractor : Body.ICelestialBody)
        (anglesToRad : bool) (s0 : Store) :
  0 < d_eccentricity data < 1 ->
  let o := fst (constructor data attractor anglesToRad s0) in
  periapsis o = Some (radius o 0) /\ apoapsis o = Some (radius o PI).
Proof.
  intros [Hpos Hlt] o. subst o. unfold constructor.
  destruct (Rlt_dec (d_eccentricity data) 1) as [He|He]; [|contradiction].
  cbn. unfold radius; cbn. rewrite cos_0, cos_PI.
  split; f_equal; field; lra.
Qed.

End OrbitFacts.

(** ** Facts of trigonometry used below *)

Section Trigonometry.
Open Scope R_scope.



Lemma tan_plus_PI x : tan (x + PI) = tan x.
Proof.
  unfold tan. rewrite neg_sin, neg_cos. unfold Rdiv. rewrite Rinv_opp. ring.
Qed.

Lemma tan_period_nat x (n : nat) : tan (x + INR n * PI) = tan x.
Proof.
  induction n as [|n IH].
  - simpl. f_equal. ring.
  - rewrite S_INR.
    replace (x + (INR n + 1) * PI) with (x + INR n * PI + PI) by ring.
    now rewrite tan_plus_PI.
Qed.

Lemma tan_period_Z x (k : Z) : tan (x + IZR k * PI) = tan x.
Proof.
  destruct (Z_le_gt_dec 0 k) as [Hk|Hk].
  - rewrite <- (Z2Nat.id k) by assumption. rewrite <- INR_IZR_INZ.
    apply tan_period_nat.
  - rewrite <- (tan_period_nat (x + IZR k * PI) (Z.to_nat (- k))).
    rewrite INR_IZR_INZ, Z2Nat.id by lia. rewrite opp_IZR. f_equal. ring.
Qed.

Lemma sin_period_Z x (k : Z) : sin (x + 2 * IZR k * PI) = sin x.
Proof.
  destruct (Z_le_gt_dec 0 k) as [Hk|Hk].
  - rewrite <- (Z2Nat.id k) by assumption. rewrite <- INR_IZR_INZ.
    apply sin_period.
  - rewrite <- (sin_period (x + 2 * IZR k * PI) (Z.to_nat (- k))).
    rewrite INR_IZR_INZ, Z2Nat.id by lia. rewrite opp_IZR. f_equal. ring.
Qed.

Lemma atan_tan_mod y : cos y <> 0 ->
  exists k : Z,
    atan (tan y) = y - IZR k * PI /\ (- (PI / 2) < y < PI / 2 -> k = 0%Z).
Proof.
  intros Hc. pose proof PI_RGT_0 as Hpi.
  set (k := Zfloor (y / PI + / 2)).
  pose proof (Zfloor_bound (y / PI + / 2)) as [Hlo Hhi]. fold k in Hlo, Hhi.
  assert (Hy : y = y / PI * PI) by (field; lra).
  assert (Hlo' : - (PI / 2) <= y - IZR k * PI).
  { assert (IZR k * PI <= (y / PI + / 2) * PI)
      by (apply Rmult_le_compat_r; lra).
    lra. }
  assert (Hhi' : y - IZR k * PI < PI / 2).
  { assert ((y / PI + / 2) * PI < (IZR k + 1) * PI)
      by (apply Rmult_lt_compat_r; lra).
    lra. }
  exists k. split.
  - destruct Hlo' as [Hlo'|Heq].
    + rewrite <- (tan_period_Z y (- k)), opp_IZR.
      replace (y + - IZR k * PI) with (y - IZR k * PI) by ring.
      now apply atan_tan.
    + exfalso. apply Hc. apply cos_eq_0_1. exists (k - 1)%Z.
      rewrite minus_IZR. lra.
  - intros [Hl Hr].
    assert (-1 < IZR k < 1) as [Hk1 Hk2].
    { split.
      - apply Rmult_lt_reg_r with PI; [lra|]. lra.
      - apply Rmult_lt_reg_r with PI; [lra|]. lra. }
    apply lt_IZR in Hk1, Hk2. lia.
Qed.

Lemma Rabs_le_bounds a b : Rabs a <= b -> - b <= a <= b.
Proof. unfold Rabs. destruct (Rcase_abs a); lra. Qed.





End Trigonometry.

(** ** The Kepler solver *)

Section KeplerFacts.
Import Orbit.
Open Scope R_scope.

(** One step of Newton's method, [x - f(x) / df(x)], and the iterates from
    the seed [M]. *)
Definition newtonStep (f df : R -> R) (x : R) : R := x - f x / df x.

Fixpoint iterate (f df : R -> R) (M : R) (k : nat) : R :=
  match k with
  | O => M
  | S k' => newtonStep f df (iterate f df M k')
  end.

Lemma newton_loop_stop f df left v :
  ~ JsMath.abs (x v - prevX v) > 1e-15 -> newton_loop f df left v = v.
Proof.
  intros Hstop. destruct left; simpl;
    destruct (Rgt_dec (JsMath.abs (x v - prevX v)) 1e-15); tauto.
Qed.

Lemma newton_loop_go f df left v :
  JsMath.abs (x v - prevX v) > 1e-15 ->
  newton_loop f df (S left) v =
  newton_loop f df left (mkVars (x v) (newtonStep f df (x v)) (S (n v))).
Proof.
  intros Hgo. simpl.
  destruct (Rgt_dec (JsMath.abs (x v - prevX v)) 1e-15); tauto.
Qed.

Lemma newton_loop_out f df v :
  newton_loop f df 0 v = v.
Proof.
  simpl. now destruct (Rgt_dec (JsMath.abs (x v - prevX v)) 1e-15).
Qed.

(** The loop, entered with the iterates [k] and [k + 1] and [left]
    iterations allowed, leaves with the iterates [m] and [m + 1], where [m]
    is the first index from [k] on at which two successive iterates are
    within [1e-15] of each other, or [k + left] when there is none before. *)
Lemma newton_loop_spec f df M left : forall k,
  exists m, (k <= m <= k + left)%nat /\
    newton_loop f df left
      (mkVars (iterate f df M k) (iterate f df M (S k)) k) =
    mkVars (iterate f df M m) (iterate f df M (S m)) m /\
    (forall j, (k <= j < m)%nat ->
       Rabs (iterate f df M (S j) - iterate f df M j) > 1e-15) /\
    ((m < k + left)%nat ->
       Rabs (iterate f df M (S m) - iterate f df M m) <= 1e-15).
Proof.
  induction left as [|left IH]; intros k.
  - exists k. rewrite newton_loop_out. repeat split; try lia.
  - destruct (Rgt_dec (Rabs (iterate f df M (S k) - iterate f df M k)) 1e-15)
      as [Hgo|Hstop].
    + destruct (IH (S k)) as (m & Hm & Heq & Hbefore & Hat).
      exists m. repeat split; try lia.
      * rewrite newton_loop_go by exact Hgo. exact Heq.
      * intros j Hj. destruct (Nat.eq_dec j k) as [->|Hne]; [exact Hgo|].
        apply Hbefore; lia.
      * intros Hlt. apply Hat; lia.
    + exists k. repeat split; try lia.
      * now rewrite newton_loop_stop.
      * intros _. lra.
Qed.

Lemma newton_vars_spec f df M :
  exists m, (m <= 1000)%nat /\
    newton_vars M f df =
    mkVars (iterate f df M m) (iterate f df M (S m)) m /\
    (forall j, (j < m)%nat ->
       Rabs (iterate f df M (S j) - iterate f df M j) > 1e-15) /\
    ((m < 1000)%nat ->
       Rabs (iterate f df M (S m) - iterate f df M m) <= 1e-15).
Proof.
  unfold newton_vars.
  destruct (newton_loop_spec f df M 1000 0) as (m & Hm & Heq & Hbefore & Hat).
  exists m. split; [lia|]. split; [exact Heq|]. split.
  - intros j Hj. apply Hbefore; lia.
  - intros Hlt. apply Hat; lia.
Qed.

(** C4.  [solveTrueAnomalyAtDate] is a total function: for every orbit and
    dates, its Newton loop, seeded at [M], runs some number of iterations
    that is at most 1000; it stops at the first iterate that is within
    [1e-15] of the one before, and otherwise at the cap; and the value
    returned is the true anomaly of the last iterate by the half-angle
    tangent formula, elliptic when [e < 1] and hyperbolic otherwise.  No
    error is raised on any path. *)
Theorem solveTrueAnomalyAtDate_total (this : Orbit.t)
        (meanAnomaly0 epoch date : R) :
  let e := eccentricity this in
  let M := meanAnomaly0 + meanMotion this * (date - epoch) in
  let f := if Rlt_dec e 1 then (fun x => x - e * sin x - M)
           else (fun x => e * sinh x - x - M) in
  let df := if Rlt_dec e 1 then (fun x => 1 - e * cos x)
            else (fun x => e * cosh x - 1) in
  let X := iterate f df M in
  exists iterations : nat,
    (iterations <= 1000)%nat /\
    newton_vars M f df =
      mkVars (X iterations) (X (S iterations)) iterations /\
    (forall k, (k < iterations)%nat -> Rabs (X (S k) - X k) > 1e-15) /\
    ((iterations < 1000)%nat ->
       Rabs (X (S iterations) - X iterations) <= 1e-15) /\
    solveTrueAnomalyAtDate this meanAnomaly0 epoch date =
      if Rlt_dec e 1
      then 2 * atan (sqrt ((1 + e) / (1 - e)) * tan (X (S iterations) * 0.5))
      else 2 * atan (sqrt ((e + 1) / (e - 1)) * tanh (X (S iterations) * 0.5)).
Proof.
  intros e M f df X.
  destruct (newton_vars_spec f df M) as (m & Hm & Hvars & Hbefore & Hat).
  exists m. repeat split; auto.
  assert (Hx : newton M f df = X (S m)) by (unfold newton; now rewrite Hvars).
  clear - Hx. unfold solveTrueAnomalyAtDate.
  subst X f df e M. destruct (Rlt_dec (eccentricity this) 1);
    cbv zeta; now rewrite Hx.
Qed.

End KeplerFacts.

(** ** A sample system

    The star and two planets of the stock system, a rotation for
    [applyAxisAngle] (the rotation about a unit axis), and the orbits the
    constructor makes of them in an empty store. *)

Module Sample.
Import Three.
Open Scope R_scope.
Open Scope string_scope.

Definition axisAngle : Rotation := fun axis angle v =>
  let c := cos angle in
  let s := sin angle in
  let d := dot3 axis v * (1 - c) in
  mkVector3
    (x v * c + (y axis * z v - z axis * y v) * s + x axis * d)
    (y v * c + (z axis * x v - x axis * z v) * s + y axis * d)
    (z v * c + (x axis * y v - y axis * x v) * s + z axis * d).

Definition kerbol : Body.ICelestialBody :=
  Body.mkBody 0 "Kerbol" 261600000 1172332800000000000 0.

Definition kerbinBody : Body.ICelestialBody :=
  Body.mkBody 3 "Kerbin" 600000 3531600000000 84159286.

Definition eveBody : Body.ICelestialBody :=
  Body.mkBody 2 "Eve" 700000 8171730200000 85109365.

Definition kerbinData : Orbit.IOrbit :=
  Orbit.mkIOrbit 13599840256 None None 0 0 0 0 None None.

Definition eveData : Orbit.IOrbit :=
  Orbit.mkIOrbit 9832684544 None None 0.01 2.1 0 15 None None.

Definition kerbinOrbit : Orbit.t :=
  fst (Orbit.constructor (H := axisAngle) kerbinData kerbol true []).

Definition eveOrbit : Orbit.t :=
  fst (Orbit.constructor (H := axisAngle) eveData kerbol true []).

Definition munBody : Body.ICelestialBody :=
  Body.mkBody 4 "Mun" 200000 65138398000 2429559.

Definition munData : Orbit.IOrbit :=
  Orbit.mkIOrbit 12000000 None None 0 0 0 0 None None.

Definition munOrbit : Orbit.t :=
  fst (Orbit.constructor (H := axisAngle) munData kerbinBody true []).

Definition dunaBody : Body.ICelestialBody :=
  Body.mkBody 5 "Duna" 320000 301363210000 47921949.

Definition dunaData : Orbit.IOrbit :=
  Orbit.mkIOrbit 20726155264 None None 0.051 0.06 0 135.5 None None.

Definition dunaOrbit : Orbit.t :=
  fst (Orbit.constructor (H := axisAngle) dunaData kerbol true []).

(** An orbiting body, its true anomaly at a date being the one its orbit
    gives from the mean anomaly [meanAnomaly0] at the epoch 0. *)
Definition orbitingBody (body attractor : Body.ICelestialBody)
           (orbit : Orbit.t) (meanAnomaly0 : R) : System.OrbitingBody :=
  System.mkOrbiting body attractor orbit
    (fun date => Orbit.solveTrueAnomalyAtDate orbit meanAnomaly0 0 date).

Definition eve : System.OrbitingBody :=
  orbitingBody eveBody kerbol eveOrbit 3.14.
Definition kerbin : System.OrbitingBody :=
  orbitingBody kerbinBody kerbol kerbinOrbit 3.14.
Definition mun : System.OrbitingBody :=
  orbitingBody munBody kerbinBody munOrbit 1.7.
Definition duna : System.OrbitingBody :=
  orbitingBody dunaBody kerbol dunaOrbit 3.14.

Definition system : System.SolarSystem :=
  System.mkSystem [eve; kerbin; mun; duna]
    (fun id => match id with
               | 2 => eve
               | 4 => mun
               | 5 => duna
               | _ => kerbin
               end%nat).

End Sample.

(** ** The round trip through the Kepler solver *)

Section KeplerRoundTrip.
Import Orbit.
Open Scope R_scope.

(** The eccentric anomaly of a true anomaly, by the expression of
    [velocityFromTrueAnomaly] for [e < 1], and the mean anomaly of it by
    Kepler's equation [M = E - e sin E]. *)
Definition eccentricAnomalyOf (e nu : R) : R :=
  2 * atan (tan (nu * 0.5) * sqrt ((1 - e) / (1 + e))).

Definition meanAnomalyOf (e nu : R) : R :=
  let E := eccentricAnomalyOf e nu in E - e * sin E.







(** The half-angle formula of [velocityFromTrueAnomaly] undoes the one of
    the solver, up to the principal value of the arc tangent. *)
Lemma eccentricAnomalyOf_trueAnomaly e t :
  -1 < e < 1 ->
  eccentricAnomalyOf e (2 * atan (sqrt ((1 + e) / (1 - e)) * t)) =
  2 * atan t.
Proof.
  intros He. unfold eccentricAnomalyOf.
  replace (2 * atan (sqrt ((1 + e) / (1 - e)) * t) * 0.5)
    with (atan (sqrt ((1 + e) / (1 - e)) * t)) by lra.
  rewrite tan_atan.
  assert (Hpos : 0 < (1 + e) / (1 - e)).
  { apply Rdiv_lt_0_compat; lra. }
  assert (Hpos' : 0 < (1 - e) / (1 + e)).
  { apply Rdiv_lt_0_compat; lra. }
  replace (sqrt ((1 + e) / (1 - e)) * t * sqrt ((1 - e) / (1 + e)))
    with (t * (sqrt ((1 + e) / (1 - e)) * sqrt ((1 - e) / (1 + e)))) by ring.
  rewrite <- sqrt_mult by lra.
  replace ((1 + e) / (1 - e) * ((1 - e) / (1 + e))) with 1 by (field; lra).
  rewrite sqrt_1, Rmult_1_r. reflexivity.
Qed.

(** The round trip on the numbers, from the eccentric anomaly [E] that the
    loop leaves: the mean anomaly reconstructed is that of [E], less a whole
    number of turns. *)
Lemma roundtrip_core e E :
  -1 < e < 1 ->
  cos (E * 0.5) <> 0 ->
  exists k : Z,
    meanAnomalyOf e (2 * atan (sqrt ((1 + e) / (1 - e)) * tan (E * 0.5))) =
      E - e * sin E - 2 * IZR k * PI /\
    (- PI < E < PI -> k = 0%Z).
Proof.
  intros He Hcos.
  destruct (atan_tan_mod (E * 0.5) Hcos) as (k & Hk & Hk0).
  exists k. split.
  - unfold meanAnomalyOf.
    rewrite eccentricAnomalyOf_trueAnomaly by exact He.
    rewrite Hk.
    replace (2 * (E * 0.5 - IZR k * PI))
      with (E + 2 * IZR (- k) * PI) by (rewrite opp_IZR; lra).
    rewrite sin_period_Z, opp_IZR. ring.
  - intros HE. apply Hk0. lra.
Qed.


(** *** Convergence for small eccentricities *)

Section Convergence.
Variables e M : R.
Hypothesis He : 0 <= e <= 1 / 3.

Let f (x : R) : R := x - e * sin x - M.
Let df (x : R) : R := 1 - e * cos x.






End Convergence.


(** *** A cycle of the iteration

    The loop need not meet its tolerance when [e] is close to 1: the seed
    [M] can be far from the root and the derivative [1 - e cos x] small.
    With [t = 4 PI / 3], the mean anomaly [M = atan t - PI / 3], about
    0.289, and the eccentricity
    [e = t sqrt (1 + t^2) / (t + (sqrt 3 / 2) (t^2 - 1))], about 0.974,
    one Newton step takes [M] to [y = PI + atan t] and the next takes [y]
    back to [M], in exact arithmetic. *)

Definition cycleT : R := 4 * PI / 3.

Definition cycleE : R :=
  cycleT * sqrt (1 + cycleT * cycleT)
  / (cycleT + sqrt 3 / 2 * (cycleT * cycleT - 1)).

Definition cycleM : R := atan cycleT - PI / 3.

Definition cycleY : R := PI + atan cycleT.

Lemma cycleT_bounds : 4 < cycleT <= 16 / 3.
Proof. unfold cycleT. pose proof PI2_3_2. pose proof PI_4. lra. Qed.

Lemma sqrt3_bounds : 1.732 <= sqrt 3.
Proof.
  replace 1.732 with (sqrt (1.732 * 1.732)) by (apply sqrt_square; lra).
  apply sqrt_le_1; lra.
Qed.

Lemma cycle_root :
  let s := sqrt (1 + cycleT * cycleT) in
  s * s = 1 + cycleT * cycleT /\ cycleT < s /\
  cycleT * s <= cycleT * cycleT + 1 / 2.
Proof.
  intros s. pose proof cycleT_bounds as Ht.
  assert (Hs : s * s = 1 + cycleT * cycleT) by (apply sqrt_sqrt; nra).
  assert (Hpos : 0 <= s) by apply sqrt_pos.
  split; [exact Hs|]. split; [nra|].
  apply Rsqr_incr_0_var; [|nra]. unfold Rsqr.
  replace (cycleT * s * (cycleT * s)) with (cycleT * cycleT * (s * s))
    by ring.
  rewrite Hs. nra.
Qed.

Lemma cycleE_bounds : 0 < cycleE < 1.
Proof.
  unfold cycleE. pose proof cycleT_bounds as Ht.
  pose proof sqrt3_bounds as Hc.
  destruct cycle_root as (Hs & Hts & Hup). cbv zeta in Hs, Hts, Hup.
  set (s := sqrt (1 + cycleT * cycleT)) in *.
  assert (Hden : cycleT * s < cycleT + sqrt 3 / 2 * (cycleT * cycleT - 1)).
  { assert (0.866 * (cycleT * cycleT - 1)
            <= sqrt 3 / 2 * (cycleT * cycleT - 1))
      by (apply Rmult_le_compat_r; nra).
    nra. }
  assert (Hnum : 0 < cycleT * s) by nra.
  split.
  - apply Rdiv_lt_0_compat; lra.
  - apply Rmult_lt_reg_r
      with (cycleT + sqrt 3 / 2 * (cycleT * cycleT - 1)); [lra|].
    unfold Rdiv. rewrite Rmult_assoc, Rinv_l by lra. lra.
Qed.

Lemma cycle_sines :
  let s := sqrt (1 + cycleT * cycleT) in
  sin cycleM = (cycleT - sqrt 3) / (2 * s) /\
  cos cycleM = (1 + sqrt 3 * cycleT) / (2 * s) /\
  sin cycleY = - cycleT / s /\
  cos cycleY = - 1 / s.
Proof.
  intros s. destruct cycle_root as (Hs & Hts & _). fold s in Hs, Hts.
  pose proof cycleT_bounds as Ht.
  assert (Hsin : sin (atan cycleT) = cycleT / s).
  { rewrite sin_atan. reflexivity. }
  assert (Hcos : cos (atan cycleT) = 1 / s).
  { rewrite cos_atan. reflexivity. }
  unfold cycleM, cycleY.
  rewrite sin_minus, cos_minus, cos_PI3, sin_PI3, Hsin, Hcos.
  rewrite (Rplus_comm PI), neg_sin, neg_cos, Hsin, Hcos.
  repeat split; field; lra.
Qed.

Lemma cycle_steps :
  let f := fun x => x - cycleE * sin x - cycleM in
  let df := fun x => 1 - cycleE * cos x in
  newtonStep f df cycleM = cycleY /\ newtonStep f df cycleY = cycleM.
Proof.
  intros f df. unfold newtonStep, f, df.
  destruct cycle_sines as (HsM & HcM & HsY & HcY).
  destruct cycle_root as (Hs & Hts & _).
  cbv zeta in HsM, HcM, HsY, HcY, Hs, Hts.
  pose proof cycleE_bounds as He. pose proof cycleT_bounds as Ht.
  pose proof sqrt3_bounds as Hc.
  pose proof (COS_bound cycleM) as HcosM.
  assert (HdM : 0 < 1 - cycleE * cos cycleM).
  { assert (cycleE * cos cycleM <= cycleE * 1)
      by (apply Rmult_le_compat_l; lra). lra. }
  assert (Hy : cycleY = cycleM + cycleT).
  { unfold cycleY, cycleM, cycleT. field. }
  assert (Hden : 0 < cycleT + sqrt 3 / 2 * (cycleT * cycleT - 1)).
  { assert (0 <= sqrt 3 / 2 * (cycleT * cycleT - 1))
      by (apply Rmult_le_pos; nra).
    lra. }
  assert (Hkey : cycleE * (sin cycleM + cycleT * cos cycleM) = cycleT).
  { rewrite HsM, HcM. unfold cycleE.
    set (s := sqrt (1 + cycleT * cycleT)) in *. field. split; lra. }
  split.
  - rewrite Hy.
    replace (cycleM - cycleE * sin cycleM - cycleM)
      with (- (cycleT * (1 - cycleE * cos cycleM))) by nra.
    field. lra.
  - rewrite HsY, HcY. rewrite Hy.
    set (s := sqrt (1 + cycleT * cycleT)) in *. field.
    split; [|lra].
    assert (0 < cycleE * / s).
    { apply Rmult_lt_0_compat; [lra | apply Rinv_0_lt_compat; lra]. }
    lra.
Qed.

Lemma cycle_iterates k :
  let f := fun x => x - cycleE * sin x - cycleM in
  let df := fun x => 1 - cycleE * cos x in
  iterate f df cycleM (2 * k) = cycleM /\
  iterate f df cycleM (S (2 * k)) = cycleY.
Proof.
  intros f df. destruct cycle_steps as [HM HY]. fold f df in HM, HY.
  induction k as [|k [IH0 IH1]].
  - split; [reflexivity | exact HM].
  - replace (2 * S k)%nat with (S (S (2 * k))) by lia.
    assert (Heven : iterate f df cycleM (S (S (2 * k))) = cycleM).
    { change (newtonStep f df (iterate f df cycleM (S (2 * k))) = cycleM).
      now rewrite IH1. }
    split; [exact Heven|].
    change (newtonStep f df (iterate f df cycleM (S (S (2 * k)))) = cycleY).
    now rewrite Heven.
Qed.

(** On an orbit of that eccentricity, at that mean anomaly, the loop runs
    its 1000 rounds and leaves with [prevX = M] and [x = y], a step of
    [4 PI / 3]; the mean anomaly reconstructed from the true anomaly
    returned is not within [1e-10] of [M], whatever number of turns is
    taken off. *)
Lemma kepler_roundtrip_cycle (this : Orbit.t) :
  let e := eccentricity this in
  let v := newton_vars cycleM (fun x => x - e * sin x - cycleM)
                              (fun x => 1 - e * cos x) in
  let M' := meanAnomalyOf e (solveTrueAnomalyAtDate this cycleM 0 0) in
  e = cycleE ->
  0 < e < 1 /\
  n v = 1000%nat /\ prevX v = cycleM /\ x v = cycleY /\
  4 < Rabs (x v - prevX v) /\
  forall k : Z, ~ Rabs (M' - (cycleM - 2 * IZR k * PI)) <= 1e-10.
Proof.
  intros e v M' He.
  pose proof cycleE_bounds as Hbounds. pose proof cycleT_bounds as Ht.
  assert (Hy : cycleY - cycleM = cycleT).
  { unfold cycleY, cycleM, cycleT. field. }
  assert (Hnu : solveTrueAnomalyAtDate this cycleM 0 0 =
                2 * atan (sqrt ((1 + e) / (1 - e)) * tan (x v * 0.5))).
  { unfold solveTrueAnomalyAtDate, newton. fold e.
    replace (cycleM + meanMotion this * (0 - 0)) with cycleM by ring.
    fold v. destruct (Rlt_dec e 1) as [_|Hn]; [reflexivity|lra]. }
  assert (Hv : v = mkVars cycleM cycleY 1000).
  { subst v. rewrite He.
    destruct (newton_vars_spec (fun x => x - cycleE * sin x - cycleM)
                (fun x => 1 - cycleE * cos x) cycleM)
      as (m & Hm & Hvars & _ & Hat).
    destruct (Nat.eq_dec m 1000) as [->|Hne].
    - rewrite Hvars. destruct (cycle_iterates 500) as [H0 H1].
      cbv zeta in H0, H1.
      replace (2 * 500)%nat with 1000%nat in H0, H1 by reflexivity.
      now rewrite H0, H1.
    - exfalso. assert (Hlt : (m < 1000)%nat) by lia.
      specialize (Hat Hlt).
      destruct (Nat.Even_or_Odd m) as [[j ->]|[j ->]].
      + destruct (cycle_iterates j) as [H0 H1]. cbv zeta in H0, H1.
        rewrite H0, H1, Hy, Rabs_pos_eq in Hat; lra.
      + destruct (cycle_iterates j) as [_ H1].
        destruct (cycle_iterates (S j)) as [H2 _]. cbv zeta in H1, H2.
        replace (2 * j + 1)%nat with (S (2 * j)) in Hat by lia.
        replace (S (S (2 * j))) with (2 * S j)%nat in Hat by lia.
        rewrite H1, H2 in Hat.
        replace (cycleM - cycleY) with (- cycleT) in Hat by lra.
        rewrite Rabs_Ropp, Rabs_pos_eq in Hat; lra. }
  clearbody v. subst v. cbn [x prevX n] in *.
  split; [lra|]. split; [reflexivity|]. split; [reflexivity|].
  split; [reflexivity|].
  split; [rewrite Hy, Rabs_pos_eq; lra|].
  intros k Hclose. subst M'. rewrite Hnu in Hclose.
  assert (Hhalf : PI / 2 < cycleY * 0.5 < 3 * (PI / 2)).
  { pose proof (atan_bound cycleT) as Hb.
    assert (0 < atan cycleT) by (rewrite <- atan_0; apply atan_increasing; lra).
    unfold cycleY. lra. }
  assert (Hcos : cos (cycleY * 0.5) <> 0).
  { assert (cos (cycleY * 0.5) < 0) by (apply cos_lt_0; lra). lra. }
  destruct (@roundtrip_core e cycleY) as (j & Hj & _); [lra | exact Hcos |].
  rewrite Hj in Hclose. clear Hj Hnu.
  destruct cycle_sines as (_ & _ & HsY & _).
  destruct cycle_root as (Hs & Hts & _). cbv zeta in HsY, Hs, Hts.
  set (s := sqrt (1 + cycleT * cycleT)) in *.
  assert (Hfrac : 0 < cycleT / s < 1).
  { split; [apply Rdiv_lt_0_compat; lra|].
    apply Rmult_lt_reg_r with s; [lra|].
    unfold Rdiv. rewrite Rmult_assoc, Rinv_l by lra. lra. }
  assert (Hdelta : 0 < e * (cycleT / s) < 1) by nra.
  replace (cycleY - e * sin cycleY - 2 * IZR j * PI
           - (cycleM - 2 * IZR k * PI))
    with (cycleT + e * (cycleT / s) + 2 * IZR (k - j) * PI) in Hclose.
  2:{ rewrite HsY, minus_IZR. unfold Rdiv. lra. }
  apply Rabs_le_bounds in Hclose.
  pose proof PI2_3_2 as Hpi.
  destruct (Z_le_gt_dec 0 (k - j)) as [Hk|Hk].
  - apply IZR_le in Hk. nra.
  - assert (Hk' : (k - j <= -1)%Z) by lia. apply IZR_le in Hk'.
    unfold cycleT in *. nra.
Qed.




End KeplerRoundTrip.

(** The apsides of the orbit of Eve. *)
Lemma radius_at_apsides_witness :
  (0 < Orbit.d_eccentricity Sample.eveData < 1)%R /\
  let o := fst (Orbit.constructor (H := Sample.axisAngle)
                  Sample.eveData Sample.kerbol true []) in
  Orbit.periapsis o = Some (Orbit.radius o 0) /\
  Orbit.apoapsis o = Some (Orbit.radius o PI).
Proof.
  assert (He : (0 < Orbit.d_eccentricity Sample.eveData < 1)%R)
    by (simpl; lra).
  exact (conj He (radius_at_apsides (H := Sample.axisAngle) Sample.eveData
                    Sample.kerbol true [] He)).
Defined.

(** ** The dimension of an agent *)

Section AgentDimension.
Import Optimizer.
Open Scope Z_scope.

(** C8, the claim refuted.  For a sequence of two bodies there is one leg;
    the agents have 5 entries, where [3 + 4 * (legs - 1) - 2] is 1. *)
Lemma agentDim_two_bodies :
  numLegs [3; 5]%nat = 1 /\
  agentDim [3; 5]%nat = 5 /\
  3 + 4 * (numLegs [3; 5]%nat - 1) - 2 = 1 /\
  agentDim [3; 5]%nat <> 3 + 4 * (numLegs [3; 5]%nat - 1) - 2.
Proof. repeat split; discriminate. Qed.

(** C8, amended.  For every sequence, the number of legs is one less than
    the number of bodies and the dimension of an agent is
    [3 + 4 * legs - 2], that is [3 + 4 * (bodies - 1) - 2]. *)
Theorem agentDim_formula (sequence : list nat) :
  let bodies := Z.of_nat (List.length sequence) in
  let legs := numLegs sequence in
  legs = bodies - 1 /\
  agentDim sequence = 3 + 4 * legs - 2 /\
  agentDim sequence = 3 + 4 * (bodies - 1) - 2.
Proof. unfold agentDim, numLegs. cbv zeta. lia. Qed.

End AgentDimension.

(** ** Flyby sequences from strings *)

Section FromString.
Import System FlybySequence.
Open Scope string_scope.

(** The tokens of a string, and the body a token stands for: the first of
    [system.orbiting] whose name starts with it. *)
Definition tokens (str : string) : list string :=
  JsString.split "-"%char (JsString.trim str).

Definition prefixed (initial : string) (body : OrbitingBody) : bool :=
  String.eqb (substring 0 2 (name body)) initial.

Definition matching (system : SolarSystem) (initial : string)
  : option OrbitingBody :=
  find (prefixed initial) (orbiting system).

Definition attractorId (body : OrbitingBody) : nat :=
  Body.id (System.attractor body).

Definition msgOtherAttractor : string :=
  "All bodies of the sequence must orbit around the same body.".
Definition msgInvalid : string := "Invalid custom sequence input.".
Definition msgTooShort : string :=
  "The sequence must contain at least two bodies.".

Lemma scanOrbiting_find orbiting initial i attractor :
  scanOrbiting orbiting initial i attractor =
  match find (prefixed initial) orbiting with
  | None => NoMatch
  | Some body =>
      if Nat.eqb i 0 then Pushed (attractorId body) (id body)
      else if negb (Nat.eqb (attractorId body) attractor) then OtherAttractor
           else Pushed attractor (id body)
  end.
Proof.
  induction orbiting as [|body rest IH]; simpl; auto.
  unfold prefixed at 1.
  destruct (String.eqb (substring 0 2 (name body)) initial); auto.
Qed.

(** When the outer loop ends without a throw, it has pushed one id for each
    token, every token stands for a body, and these bodies orbit one and the
    same body: the value of [attractor], when the loop was entered past the
    first token. *)
Lemma scanInitials_Ok system initials : forall i attractor ids ids',
  scanInitials (orbiting system) initials i attractor ids = Ok ids' ->
  List.length ids' = (List.length ids + List.length initials)%nat /\
  exists a, (i <> 0%nat -> a = attractor) /\
    Forall (fun initial => exists body,
              matching system initial = Some body /\ attractorId body = a)
           initials.
Proof.
  induction initials as [|initial rest IH]; intros i attractor ids ids' Hok;
    simpl in Hok.
  - injection Hok as <-. split; [simpl; lia|].
    exists attractor. split; auto.
  - rewrite scanOrbiting_find in Hok. fold (matching system initial) in Hok.
    destruct (matching system initial) as [body|] eqn:Hmatch;
      [|discriminate].
    destruct (Nat.eqb i 0) eqn:Hi.
    + apply IH in Hok. destruct Hok as (Hlen & a & Ha & Hall).
      rewrite length_app in Hlen; simpl in *. split; [lia|].
      exists (attractorId body). split.
      * apply Nat.eqb_eq in Hi. intros; contradiction.
      * constructor; [now exists body|].
        rewrite <- (Ha (Nat.neq_succ_0 i)). exact Hall.
    + destruct (Nat.eqb (attractorId body) attractor) eqn:Hatt;
        simpl in Hok; [|discriminate].
      apply Nat.eqb_eq in Hatt.
      apply IH in Hok. destruct Hok as (Hlen & a & Ha & Hall).
      rewrite length_app in Hlen; simpl in *. split; [lia|].
      exists attractor. split; auto.
      constructor; [now exists body|].
      rewrite <- (Ha (Nat.neq_succ_0 i)). exact Hall.
Qed.

Lemma scanInitials_Throw orbiting initials : forall i attractor ids msg,
  scanInitials orbiting initials i attractor ids = Throw msg ->
  msg = msgOtherAttractor \/ msg = msgInvalid.
Proof.
  induction initials as [|initial rest IH]; intros i attractor ids msg Hthrow;
    simpl in Hthrow; [discriminate|].
  destruct (scanOrbiting orbiting initial i attractor).
  - eapply IH; eassumption.
  - injection Hthrow as <-. now right.
  - injection Hthrow as <-. now left.
Qed.

(** C5.  [fromString] throws, with one of its three messages, and so
    constructs no [FlybySequence] for any later stage to run on, whenever
    the string has fewer than two tokens, or one of its tokens stands for no
    body, or two of its tokens stand for bodies that orbit different
    attractors. *)
Theorem fromString_rejects (str : string) (system : SolarSystem) :
  (List.length (tokens str) < 2)%nat \/
  (exists initial,
      In initial (tokens str) /\ matching system initial = None) \/
  (exists initial1 initial2 body1 body2,
      In initial1 (tokens str) /\ In initial2 (tokens str) /\
      matching system initial1 = Some body1 /\
      matching system initial2 = Some body2 /\
      attractorId body1 <> attractorId body2) ->
  exists msg,
    fromString str system = Throw msg /\
    (msg = msgOtherAttractor \/ msg = msgInvalid \/ msg = msgTooShort).
Proof.
  intros Hbad. unfold fromString. fold (tokens str).
  destruct (scanInitials (orbiting system) (tokens str) 0 0 [])
    as [ids|msg] eqn:Hscan.
  - apply scanInitials_Ok in Hscan.
    destruct Hscan as (Hlen & a & _ & Hall). simpl in Hlen.
    rewrite Forall_forall in Hall.
    destruct Hbad as [Hshort | [(initial & Hin & Hnone) | Hdiff]].
    + replace (Nat.leb (List.length ids) 1) with true
        by (symmetry; apply Nat.leb_le; lia).
      exists msgTooShort; auto.
    + destruct (Hall initial Hin) as (body & Hsome & _). congruence.
    + destruct Hdiff as (i1 & i2 & b1 & b2 & Hin1 & Hin2 & Hm1 & Hm2 & Hne).
      destruct (Hall i1 Hin1) as (b1' & Hm1' & Ha1).
      destruct (Hall i2 Hin2) as (b2' & Hm2' & Ha2).
      congruence.
  - exists msg. split; auto.
    apply scanInitials_Throw in Hscan. tauto.
Qed.

(** Conversely, a string of two tokens or more, each standing for a body,
    all of these orbiting the same body, yields the sequence of their ids. *)
Lemma scanInitials_complete system a initials : forall i attractor ids,
  Forall (fun initial => exists body,
            matching system initial = Some body /\ attractorId body = a)
         initials ->
  (i <> 0%nat -> attractor = a) ->
  exists ids',
    scanInitials (orbiting system) initials i attractor ids =
    Ok (ids ++ ids')%list
    /\ List.length ids' = List.length initials.
Proof.
  induction initials as [|initial rest IH]; intros i attractor ids Hall Hi.
  - exists []. rewrite app_nil_r. auto.
  - inversion Hall as [|? ? (body & Hmatch & Hbody) Hrest]; subst.
    simpl. rewrite scanOrbiting_find. fold (matching system initial).
    rewrite Hmatch.
    assert (Hnext : forall attractor',
      attractor' = attractorId body ->
      exists ids',
        scanInitials (orbiting system) rest (S i) attractor'
                     (ids ++ [id body])%list = Ok (ids ++ ids')%list /\
        List.length ids' = S (List.length rest)).
    { intros attractor' ->.
      destruct (IH (S i) (attractorId body) (ids ++ [id body])%list Hrest)
        as (ids' & Heq & Hlen); [auto|].
      exists (id body :: ids'). rewrite Heq, <- app_assoc. simpl. auto. }
    destruct (Nat.eqb i 0) eqn:Hi0.
    + now apply Hnext.
    + apply Nat.eqb_neq in Hi0. rewrite (Hi Hi0), Nat.eqb_refl. simpl.
      now apply Hnext.
Qed.

Lemma fromString_accepts (str : string) (system : SolarSystem) (a : nat) :
  (2 <= List.length (tokens str))%nat ->
  Forall (fun initial => exists body,
            matching system initial = Some body /\ attractorId body = a)
         (tokens str) ->
  exists ids,
    fromString str system = Ok (constructor system ids) /\
    List.length ids = List.length (tokens str).
Proof.
  intros Hlen Hall. unfold fromString. fold (tokens str).
  destruct (@scanInitials_complete system a (tokens str) 0%nat 0%nat [] Hall)
    as (ids & Heq & Hids);
    [intros; contradiction|].
  simpl in Heq. rewrite Heq. exists ids.
  replace (Nat.leb (List.length ids) 1) with false
    by (symmetry; apply Nat.leb_gt; lia).
  auto.
Qed.

(** The three rejections and an accepted string, in the sample system. *)
Example fromString_one_body :
  fromString "Ke" Sample.system = Throw msgTooShort.
Proof. reflexivity. Qed.

Example fromString_unknown_body :
  fromString "Ke-Jo" Sample.system = Throw msgInvalid.
Proof. reflexivity. Qed.

Example fromString_moon_and_planet :
  fromString "Ke-Mu" Sample.system = Throw msgOtherAttractor.
Proof. reflexivity. Qed.

Example fromString_three_planets :
  fromString " Ke-Ev-Du " Sample.system =
  Ok (constructor Sample.system [3; 2; 5]%nat).
Proof. reflexivity. Qed.

(** A planet and the moon of a planet are rejected. *)
Lemma fromString_rejects_witness :
  ((List.length (tokens "Ke-Mu") < 2)%nat \/
   (exists initial,
       In initial (tokens "Ke-Mu") /\
       matching Sample.system initial = None) \/
   (exists initial1 initial2 body1 body2,
       In initial1 (tokens "Ke-Mu") /\ In initial2 (tokens "Ke-Mu") /\
       matching Sample.system initial1 = Some body1 /\
       matching Sample.system initial2 = Some body2 /\
       attractorId body1 <> attractorId body2)) /\
  exists msg,
    fromString "Ke-Mu" Sample.system = Throw msg /\
    (msg = msgOtherAttractor \/ msg = msgInvalid \/ msg = msgTooShort).
Proof.
  assert (Hbad :
    (List.length (tokens "Ke-Mu") < 2)%nat \/
    (exists initial,
        In initial (tokens "Ke-Mu") /\
        matching Sample.system initial = None) \/
    (exists initial1 initial2 body1 body2,
        In initial1 (tokens "Ke-Mu") /\ In initial2 (tokens "Ke-Mu") /\
        matching Sample.system initial1 = Some body1 /\
        matching Sample.system initial2 = Some body2 /\
        attractorId body1 <> attractorId body2)).
  { right; right. exists "Ke", "Mu", Sample.kerbin, Sample.mun.
    repeat split.
    - left; reflexivity.
    - right; left; reflexivity.
    - discriminate. }
  exact (conj Hbad (fromString_rejects "Ke-Mu" Sample.system Hbad)).
Defined.

End FromString.

(** ** The ejection angle *)

Section EjectionAngle.
Import Three Step Trajectory.
Open Scope R_scope.

(** The cosine handed to [Math.acos] lies in [-1, 1]. *)
Lemma clamped_cosine (d : R) :
  -1 <= JsMath.min (JsMath.max d (-1)) 1 <= 1.
Proof.
  unfold JsMath.min, JsMath.max, Rmin, Rmax.
  destruct (Rle_dec d (-1)); destruct (Rle_dec _ 1); lra.
Qed.

Lemma sign_cases (d : R) :
  JsMath.sign d = 1 \/ JsMath.sign d = -1 \/ JsMath.sign d = 0.
Proof.
  unfold JsMath.sign. destruct (Rlt_dec 0 d); auto.
  destruct (Rlt_dec d 0); auto.
Qed.

(** [Math.acos] on a number of [-1, 1] is the arc cosine, not [NaN]. *)
Lemma acos_number (c : R) :
  -1 <= c <= 1 -> JsMath.acos c = JsMath.Num (acos c).
Proof.
  intros [Hlo Hhi]. unfold JsMath.acos.
  destruct (Rle_dec (-1) c); [|contradiction].
  destruct (Rle_dec c 1); [reflexivity | contradiction].
Qed.

(** Whatever number the dot product is, the rounding of its computation
    included, the clamp hands a number of [-1, 1] to [Math.acos]: the angle
    is a number, of [-180, 180], and not [NaN]. *)
Lemma ejectAngleFrom_number (dot cross : R) :
  let cosA := JsMath.min (JsMath.max dot (-1)) 1 in
  let angle := acos cosA * 180 / PI * JsMath.sign cross in
  -1 <= cosA <= 1 /\
  ejectAngleFrom dot cross = JsMath.Num angle /\
  -180 <= angle <= 180.
Proof.
  intros cosA angle. pose proof (clamped_cosine dot) as Hclamp.
  fold cosA in Hclamp. split; [exact Hclamp|]. split.
  - unfold ejectAngleFrom. cbv zeta. fold cosA.
    rewrite (acos_number Hclamp). reflexivity.
  - subst angle.
    pose proof (acos_bound cosA) as [Hlo Hhi]. pose proof PI_RGT_0 as Hpi.
    assert (Hangle : 0 <= acos cosA * 180 / PI <= 180).
    { split.
      - apply Rmult_le_pos; [nra | left; now apply Rinv_0_lt_compat].
      - apply Rmult_le_reg_r with PI; [lra|].
        replace (acos cosA * 180 / PI * PI) with (acos cosA * 180)
          by (field; lra).
        nra. }
    destruct (sign_cases cross) as [-> | [-> | ->]]; lra.
Qed.

(** Without the clamp, [Math.acos] would be handed the dot product itself,
    and a dot product that rounding takes past 1 would give [NaN]. *)
Lemma acos_NaN (c : R) : 1 < c -> JsMath.acos c = JsMath.NaN.
Proof.
  intros Hc. unfold JsMath.acos.
  destruct (Rle_dec (-1) c); [|reflexivity].
  destruct (Rle_dec c 1); [lra | reflexivity].
Qed.

End EjectionAngle.

Example ejectAngleOf_quarter_turn :
  Trajectory.ejectAngleOf (Three.mkVector3 1 0 0) (Three.mkVector3 0 0 1) =
  JsMath.Num 90.
Proof.
  unfold Trajectory.ejectAngleOf, Three.normalize2, Three.length2, Three.dot2.
  cbn [Three.x Three.z Three.x2 Three.y2].
  replace (1 * 1 + 0 * 0)%R with 1%R by ring.
  replace (0 * 0 + 1 * 1)%R with 1%R by ring.
  rewrite sqrt_1. destruct (Req_dec_T 1 0) as [Habs|_]; [lra|].
  cbn [Three.x2 Three.y2].
  replace (1 / 1 * (0 / 1) + 0 / 1 * (1 / 1))%R with 0%R by field.
  replace (1 / 1 * (1 / 1) - 0 / 1 * (0 / 1))%R with 1%R by field.
  destruct (ejectAngleFrom_number 0 1) as (_ & -> & _). f_equal.
  unfold JsMath.min, JsMath.max, JsMath.sign, Rmin, Rmax.
  destruct (Rle_dec 0 (-1)); [lra|].
  destruct (Rle_dec 0 1); [|lra].
  destruct (Rlt_dec 0 1); [|lra].
  rewrite acos_0. pose proof PI_RGT_0. field. lra.
Qed.

(** ** The retry loop of the worker *)

Section ComputeTrajectory.
Import Optimizer.
Variables Calc Rng : Type.
Variable libs : Libs Calc Rng.
Variable _system : list Body.ICelestialBody.
Variable _sequence : list nat.
Variable _settings : TrajectoryUserSettings.

(** The variables of the loop at the head of an attempt. *)
Definition Attempt : Type := (Calc * Agent * Rng)%type.

Definition calculatorOf (a : Attempt) : Calc := fst (fst a).
Definition agentOf (a : Attempt) : Agent := snd (fst a).
Definition randomOf (a : Attempt) : Rng := snd a.

(** The calculator after [setParameters] and the [try] block of the attempt,
    and whether the attempt fails: the block threw, or the steps hold a
    NaN. *)
Definition assembled (a : Attempt) : Calc :=
  match tryCompute libs (setParameters libs _settings (agentOf a)
                                       (calculatorOf a)) with
  | Returned c => c
  | Thrown c => c
  end.

Definition fails (a : Attempt) : bool :=
  match tryCompute libs (setParameters libs _settings (agentOf a)
                                       (calculatorOf a)) with
  | Returned c => hasNaN libs (steps libs c)
  | Thrown _ => true
  end.

(** What a failed attempt leaves for the next: the agent randomized and the
    calculator reset. *)
Definition retry (a : Attempt) : Attempt :=
  let '(agent, rng) := randomizeAgent libs (agentOf a) (randomOf a) in
  (reset libs (assembled a), agent, rng).

(** The variables at the head of attempt number [k] (from 0), all attempts
    before it having failed. *)
Fixpoint attempt (k : nat) (a : Attempt) : Attempt :=
  match k with
  | O => a
  | S k' => attempt k' (retry a)
  end.

Definition impossible : string := "Impossible to compute the trajectory.".

Lemma computeLoop_unfold left a :
  computeLoop libs _settings (S left) (calculatorOf a) (agentOf a)
              (randomOf a) =
  if fails a
  then computeLoop libs _settings left (calculatorOf (retry a))
                   (agentOf (retry a)) (randomOf (retry a))
  else (Ok (assembled a), agentOf a, randomOf a).
Proof.
  unfold retry, fails, assembled. simpl.
  destruct (tryCompute libs _) as [c|c]; simpl.
  - destruct (hasNaN libs (steps libs c)); auto.
    destruct (randomizeAgent libs (agentOf a) (randomOf a)); reflexivity.
  - destruct (randomizeAgent libs (agentOf a) (randomOf a)); reflexivity.
Qed.

(** The loop with [left] attempts allowed either returns at the first
    attempt that does not fail, or throws after [left] failed attempts. *)
Lemma computeLoop_spec left : forall a,
  (exists k, (k < left)%nat /\
     (forall j, (j < k)%nat -> fails (attempt j a) = true) /\
     fails (attempt k a) = false /\
     computeLoop libs _settings left (calculatorOf a) (agentOf a) (randomOf a) =
     (Ok (assembled (attempt k a)),
      agentOf (attempt k a), randomOf (attempt k a))) \/
  ((forall j, (j < left)%nat -> fails (attempt j a) = true) /\
   computeLoop libs _settings left (calculatorOf a) (agentOf a) (randomOf a) =
   (Throw impossible, agentOf (attempt left a), randomOf (attempt left a))).
Proof.
  induction left as [|left IH]; intros a.
  - right. split; [intros j Hj; lia | reflexivity].
  - rewrite computeLoop_unfold. destruct (fails a) eqn:Hfails.
    + destruct (IH (retry a)) as [(k & Hk & Hbefore & Hat & Heq) | [Hall Heq]].
      * left. exists (S k). repeat split; auto; try lia.
        intros [|j] Hj; [exact Hfails | apply Hbefore; lia].
      * right. split; auto.
        intros [|j] Hj; [exact Hfails | apply Hall; lia].
    + left. exists 0%nat. repeat split; auto; try lia.
Qed.

(** C2.  [_computeTrajectory] starts from a new calculator and the agent
    given.  If attempt [k] (below 1000) is the first that neither throws nor
    leaves a NaN, the call returns the calculator of that attempt at once,
    the agent having been randomized and the calculator reset [k] times,
    once after each failed attempt.  If the 1000 attempts all fail, the call
    throws "Impossible to compute the trajectory.", the agent having been
    randomized 1000 times.  And the call throws in that case only. *)
Theorem computeTrajectory_retries (agent : Agent) (rng : Rng) :
  let first : Attempt := (newCalculator libs _system _sequence, agent, rng) in
  let result := _computeTrajectory libs _system _sequence _settings agent rng in
  (forall k, (k < 1000)%nat ->
     (forall j, (j < k)%nat -> fails (attempt j first) = true) ->
     fails (attempt k first) = false ->
     result = (Ok (assembled (attempt k first)),
               agentOf (attempt k first), randomOf (attempt k first))) /\
  ((forall k, (k < 1000)%nat -> fails (attempt k first) = true) ->
   result = (Throw impossible,
             agentOf (attempt 1000 first), randomOf (attempt 1000 first))) /\
  (forall msg, fst (fst result) = Throw msg ->
     msg = impossible /\
     forall k, (k < 1000)%nat -> fails (attempt k first) = true).
Proof.
  intros first result.
  assert (Hspec := computeLoop_spec 1000 first).
  change (computeLoop libs _settings 1000 (calculatorOf first) (agentOf first)
            (randomOf first)) with result in Hspec.
  clearbody result.
  destruct Hspec as [(k & Hk & Hbefore & Hat & Heq) | [Hall Heq]].
  - split; [|split].
    + intros k' Hk' Hbefore' Hat'.
      assert (k' = k) as ->; [|exact Heq].
      destruct (Nat.lt_total k' k) as [Hlt | [Heq' | Hgt]]; auto.
      * rewrite (Hbefore k' Hlt) in Hat'. discriminate.
      * rewrite (Hbefore' k Hgt) in Hat. discriminate.
    + intros Hall. rewrite (Hall k Hk) in Hat. discriminate.
    + intros msg Hmsg. rewrite Heq in Hmsg. discriminate.
  - split; [|split].
    + intros k Hk _ Hat. rewrite (Hall k Hk) in Hat. discriminate.
    + intros _. exact Heq.
    + intros msg Hmsg. rewrite Heq in Hmsg. simpl in Hmsg.
      injection Hmsg as <-. auto.
Qed.

End ComputeTrajectory.

(** ** The fitness function and the best trajectory *)

Section Fitness.
Import Optimizer Step.
Variables Calc Rng : Type.
Variable libs : Libs Calc Rng.
Variable _system : list Body.ICelestialBody.
Variable _sequence : list nat.
Variable _settings : TrajectoryUserSettings.
Open Scope R_scope.

Lemma index_last {A} (earlier : list A) (lastOne : A) :
  index (earlier ++ [lastOne])
        (Z.of_nat (List.length (earlier ++ [lastOne])) - 1) = Some lastOne.
Proof.
  unfold index. rewrite length_app. simpl.
  replace (Z.of_nat (List.length earlier + 1) - 1)%Z
    with (Z.of_nat (List.length earlier)) by lia.
  destruct (Z.ltb_spec (Z.of_nat (List.length earlier)) 0); [lia|].
  rewrite Nat2Z.id, nth_error_app2, Nat.sub_diag by lia. reflexivity.
Qed.

(** C1.  For an agent whose trajectory is assembled, with a last step (and,
    when the settings ask for no insertion burn, with the attractor of that
    step among the bodies of the system), [fitness] returns
    [totDV + totDV * |inclination| * 0.1 + periVelCost + durationCost],
    where [periVelCost] is the velocity at the radius
    [destAltitude + radius] less the circular velocity there when
    [noInsertion] is set and 0 otherwise, and [durationCost] is
    [max(0, duration - maxDuration) * totDV], which is 0 when the duration
    is at most [maxDuration]. *)
Theorem fitness_value (agent : Agent) (st : State Calc Rng)
        (trajectory : Calc) (agent' : Agent) (rng' : Rng)
        (earlier : list TrajectoryStep) (lastStep : TrajectoryStep) :
  _computeTrajectory libs _system _sequence _settings agent (random st) =
    (Ok trajectory, agent', rng') ->
  steps libs trajectory = earlier ++ [lastStep] ->
  (noInsertion _settings = true ->
   nth_error _system (attractorId lastStep) <> None) ->
  let totDV := totalDeltaV libs trajectory in
  let lastInc := Rabs (Orbit.e_inclination (orbitElts lastStep)) in
  let duration := totalDuration libs trajectory in
  let periVelCost :=
    if noInsertion _settings then
      match nth_error _system (attractorId lastStep) with
      | Some finalBody =>
          let periapsis := destAltitude _settings + Body.radius finalBody in
          velocityAtRadius libs (orbitElts lastStep) finalBody periapsis
          - circularVelocity libs finalBody periapsis
      | None => 0
      end
    else 0 in
  let durationCost := Rmax 0 (duration - maxDuration _settings) * totDV in
  fst (fst (fitness libs _system _sequence _settings agent st)) =
    Ok (totDV + totDV * lastInc * 0.1 + periVelCost + durationCost) /\
  (duration <= maxDuration _settings -> durationCost = 0).
Proof.
  intros Hassembled Hsteps Hbody totDV lastInc duration periVelCost
         durationCost.
  split.
  - unfold fitness. rewrite Hassembled. cbv zeta.
    rewrite Hsteps, index_last. unfold periVelCostOf.
    subst periVelCost. destruct (noInsertion _settings); [|reflexivity].
    destruct (nth_error _system (attractorId lastStep)); [reflexivity|].
    now destruct Hbody.
  - intros Hwithin. subst durationCost.
    rewrite Rmax_left by lra. ring.
Qed.

(** The order on the values of [_bestDeltaV]. *)
Definition le_num (a b : Num) : Prop :=
  match a, b with
  | _, Infinity => True
  | Infinity, Finite _ => False
  | Finite x, Finite y => x <= y
  end.

Lemma le_num_refl a : le_num a a.
Proof. destruct a; simpl; auto; lra. Qed.

Lemma le_num_trans a b c : le_num a b -> le_num b c -> le_num a c.
Proof. destruct a, b, c; simpl; auto; try lra; tauto. Qed.

(** The two fields of the tracker agree: a finite best delta-V is the total
    delta-V of the best trajectory held. *)
Definition coherent (st : State Calc Rng) : Prop :=
  match _bestDeltaV st with
  | Infinity => True
  | Finite d =>
      exists trajectory,
        _bestTrajectory st = Some trajectory /\
        totalDeltaV libs trajectory = d
  end.

Lemma updateBest_cases trajectory st :
  (below (totalDeltaV libs trajectory) (_bestDeltaV st) = true /\
   updateBest libs trajectory st =
   mkState (Some trajectory) (Finite (totalDeltaV libs trajectory))
           (_newDeltaVs st) (random st)) \/
  (below (totalDeltaV libs trajectory) (_bestDeltaV st) = false /\
   updateBest libs trajectory st = st).
Proof.
  unfold updateBest.
  destruct (below (totalDeltaV libs trajectory) (_bestDeltaV st)); auto.
Qed.

Lemma below_false_le x b : below x b = false -> le_num b (Finite x).
Proof.
  destruct b as [r|]; simpl; [|discriminate].
  destruct (Rlt_dec x r); [discriminate|]. intros _. lra.
Qed.

Lemma below_true_le x b : below x b = true -> le_num (Finite x) b.
Proof.
  destruct b as [r|]; simpl; auto.
  destruct (Rlt_dec x r); [|discriminate]. intros _. lra.
Qed.

(** What a call of [fitness] does to the fields of the worker. *)
Lemma fitness_fields agent st :
  let st' := snd (fitness libs _system _sequence _settings agent st) in
  match fst (fst (_computeTrajectory libs _system _sequence _settings
        agent (random st))) with
  | Throw _ =>
      _bestTrajectory st' = _bestTrajectory st /\
      _bestDeltaV st' = _bestDeltaV st /\
      _newDeltaVs st' = _newDeltaVs st
  | Ok trajectory =>
      _bestTrajectory st' = _bestTrajectory (updateBest libs trajectory st) /\
      _bestDeltaV st' = _bestDeltaV (updateBest libs trajectory st) /\
      (_newDeltaVs st' = _newDeltaVs st \/
       _newDeltaVs st' = _newDeltaVs st ++ [totalDeltaV libs trajectory])
  end.
Proof.
  unfold fitness.
  destruct (_computeTrajectory libs _system _sequence _settings
        agent (random st)) as [[[trajectory|msg] a] r];
    cbn [fst snd]; [|auto].
  set (st0 := mkState _ _ _ r).
  assert (Hsame : _bestTrajectory (updateBest libs trajectory st0) =
                  _bestTrajectory (updateBest libs trajectory st) /\
                  _bestDeltaV (updateBest libs trajectory st0) =
                  _bestDeltaV (updateBest libs trajectory st) /\
                  _newDeltaVs (updateBest libs trajectory st0) =
                  _newDeltaVs st).
  { unfold updateBest. subst st0. cbn [_bestDeltaV].
    destruct (below _ _); auto. }
  destruct Hsame as (H1 & H2 & H3).
  destruct (index _ _) as [lastStep|]; cbn [snd]; [|auto].
  destruct (periVelCostOf _ _ _ _); cbn [snd _bestTrajectory _bestDeltaV
                                             _newDeltaVs]; rewrite H3; auto.
Qed.

(** C3, amended.  The tracker follows the total delta-V, not the value of
    [fitness].  A call of [fitness] either leaves the two fields of the
    tracker as they were, or, the trajectory computed having a total delta-V
    strictly below [_bestDeltaV], sets both to that trajectory and its total
    delta-V.  Over any run of calls [_bestDeltaV] does not increase.  And
    over a run from the start of a search, [_bestDeltaV] is at most every
    total delta-V recorded, and when finite it is the total delta-V of
    [_bestTrajectory]. *)
Theorem best_deltaV_tracker (agents : list Agent) (agent : Agent)
        (st : State Calc Rng) :
  (let st' := snd (fitness libs _system _sequence _settings agent st) in
   (_bestTrajectory st' = _bestTrajectory st /\
    _bestDeltaV st' = _bestDeltaV st) \/
   (exists trajectory,
       fst (fst (_computeTrajectory libs _system _sequence _settings agent
                                    (random st))) = Ok trajectory /\
       below (totalDeltaV libs trajectory) (_bestDeltaV st) = true /\
       _bestTrajectory st' = Some trajectory /\
       _bestDeltaV st' = Finite (totalDeltaV libs trajectory))) /\
  le_num (_bestDeltaV (evaluate libs _system _sequence _settings agents st))
         (_bestDeltaV st) /\
  (let st1 := evaluate libs _system _sequence _settings agents
                     (onWorkerRun_start st) in
   coherent st1 /\
   Forall (fun d => le_num (_bestDeltaV st1) (Finite d)) (_newDeltaVs st1)).
Proof.
  assert (Hcall : forall agent st,
    let st' := snd (fitness libs _system _sequence _settings agent st) in
    (_bestTrajectory st' = _bestTrajectory st /\
     _bestDeltaV st' = _bestDeltaV st) \/
    (exists trajectory,
        fst (fst (_computeTrajectory libs _system _sequence _settings agent
                                     (random st))) = Ok trajectory /\
        below (totalDeltaV libs trajectory) (_bestDeltaV st) = true /\
        _bestTrajectory st' = Some trajectory /\
        _bestDeltaV st' = Finite (totalDeltaV libs trajectory))).
  { intros a s s'. subst s'. pose proof (fitness_fields a s) as Hf.
    cbv zeta in Hf.
    destruct (fst (fst (_computeTrajectory libs _system _sequence _settings
          a (random s)))) as [trajectory|msg].
    - destruct Hf as (Ht & Hd & _).
      destruct (updateBest_cases trajectory s) as [[Hb Hu] | [Hb Hu]];
        rewrite Hu in Ht, Hd.
      + right. exists trajectory. auto.
      + left. auto.
    - left. tauto. }
  assert (Hmono : forall agents st,
    le_num (_bestDeltaV (evaluate libs _system _sequence _settings agents st))
           (_bestDeltaV st)).
  { clear agents agent st. induction agents as [|a rest IH]; intros s; simpl.
    - apply le_num_refl.
    - eapply le_num_trans; [apply IH|].
      destruct (Hcall a s) as [[_ ->] | (t & _ & Hb & _ & ->)].
      + apply le_num_refl.
      + now apply below_true_le. }
  assert (Hinv : forall agents st,
    coherent st ->
    Forall (fun d => le_num (_bestDeltaV st) (Finite d)) (_newDeltaVs st) ->
    coherent (evaluate libs _system _sequence _settings agents st) /\
    Forall (fun d =>
              le_num (_bestDeltaV (evaluate libs _system _sequence _settings
                                            agents st)) (Finite d))
           (_newDeltaVs (evaluate libs _system _sequence _settings agents st))).
  { clear agents agent st. induction agents as [|a rest IH]; intros s Hc Hl;
      simpl; auto.
    apply IH.
    - unfold coherent in *.
      destruct (Hcall a s) as [[Ht Hd] | (t & _ & _ & Ht & Hd)];
        rewrite Hd; [rewrite Ht; exact Hc | eauto].
    - pose proof (fitness_fields a s) as Hf. cbv zeta in Hf.
      destruct (fst (fst (_computeTrajectory libs _system _sequence _settings
            a (random s)))) as [t|msg].
      + destruct Hf as (_ & Hd & Hn). rewrite Hd.
        assert (Hold : Forall (fun d => le_num
                         (_bestDeltaV (updateBest libs t s)) (Finite d))
                         (_newDeltaVs s)).
        { eapply Forall_impl; [|exact Hl]. intros d Hd'.
          eapply le_num_trans; [|exact Hd'].
          destruct (updateBest_cases t s) as [[Hb ->] | [_ ->]].
          - now apply below_true_le.
          - apply le_num_refl. }
        destruct Hn as [-> | ->]; auto.
        apply Forall_app; split; auto. constructor; auto.
        destruct (updateBest_cases t s) as [[_ ->] | [Hb ->]].
        * simpl. lra.
        * now apply below_false_le.
      + destruct Hf as (_ & -> & ->). exact Hl. }
  split; [apply Hcall|]. split; [apply Hmono|].
  apply Hinv; [unfold coherent; simpl; exact I | simpl; constructor].
Qed.

End Fitness.

(** ** A sample worker

    A stand-in for the trajectory calculator: an agent is
    [[totalDeltaV; totalDuration]], assembling it keeps the two numbers, and
    the trajectory has the single step [arrival], around Kerbin. *)

Module SampleWorker.
Import Optimizer Step.
Open Scope R_scope.

Definition Calc : Type := list R.
Definition Rng : Type := nat.

Definition arrival : TrajectoryStep :=
  mkStep (Orbit.mkElements 0 700000 0 0 0) 1 0 0 0 0 0 None None.

Definition libs : Libs Calc Rng :=
  @mkLibs Calc Rng
    (fun _ _ => [])
    (fun _ agent _ => agent)
    (fun c => match c with
              | [_; _] => Returned c
              | _ => Thrown c
              end)
    (fun c => Returned c)
    (fun _ => [])
    (fun _ => [arrival])
    (fun c => nth 0 c 0)
    (fun c => nth 1 c 0)
    (fun _ => false)
    (fun _ rng => ([INR rng; 0], S rng))
    (fun elts body r =>
       sqrt (Body.stdGravParam body * (2 / r - 1 / Orbit.e_semiMajorAxis elts)))
    (fun body r => sqrt (Body.stdGravParam body / r)).

Definition system : list Body.ICelestialBody :=
  [Sample.kerbol; Sample.kerbinBody].

Definition sequence : list nat := [3; 5]%nat.

Definition withInsertion : TrajectoryUserSettings :=
  mkSettings false 100000 50.
Definition withoutInsertion : TrajectoryUserSettings :=
  mkSettings true 100000 50.

Definition initial : State Calc Rng := mkState None Infinity [] 0%nat.

Lemma computed settings (totDV duration : R) (rng : Rng) :
  _computeTrajectory libs system sequence settings [totDV; duration] rng =
  (Ok [totDV; duration], [totDV; duration], rng).
Proof. reflexivity. Qed.

(** An agent that cannot be assembled is randomized once, and the second
    attempt returns. *)
Example retried_once :
  _computeTrajectory libs system sequence withInsertion [1] 7%nat =
  (Ok [INR 7; 0], [INR 7; 0], 8%nat).
Proof. reflexivity. Qed.

(** A call of [fitness] with an insertion burn: the value and the fields. *)
Lemma fitness_sample (totDV duration : R) (st : State Calc Rng) :
  fitness libs system sequence withInsertion [totDV; duration] st =
  (Ok (totDV + totDV * Rabs 0 * 0.1 + 0 + Rmax 0 (duration - 50) * totDV),
   [totDV; duration],
   let st' := updateBest libs [totDV; duration] st in
   mkState (_bestTrajectory st') (_bestDeltaV st')
           (_newDeltaVs st' ++ [totDV]) (random st')).
Proof. destruct st. reflexivity. Qed.

End SampleWorker.

(** A call of [fitness] in the sample worker, without insertion burn. *)
Lemma fitness_value_witness :
  let libs := SampleWorker.libs in
  let settings := SampleWorker.withoutInsertion in
  let st := SampleWorker.initial in
  let agent := [10; 20]%R in
  let periapsis := (100000 + 600000)%R in
  Optimizer._computeTrajectory libs SampleWorker.system SampleWorker.sequence
    settings agent (Optimizer.random st) = (Ok agent, agent, 0%nat) /\
  Optimizer.steps libs agent = [] ++ [SampleWorker.arrival] /\
  (Optimizer.noInsertion settings = true ->
   nth_error SampleWorker.system (Step.attractorId SampleWorker.arrival)
   <> None) /\
  fst (fst (Optimizer.fitness libs SampleWorker.system SampleWorker.sequence
              settings agent st)) =
  Ok (10 + 10 * Rabs 0 * 0.1
      + (Optimizer.velocityAtRadius libs (Step.orbitElts SampleWorker.arrival)
           Sample.kerbinBody periapsis
         - Optimizer.circularVelocity libs Sample.kerbinBody periapsis)
      + Rmax 0 (20 - 50) * 10)%R /\
  (20 <= 50 -> Rmax 0 (20 - 50) * 10 = 0)%R.
Proof.
  intros libs settings st agent periapsis.
  assert (H1 : Optimizer._computeTrajectory libs SampleWorker.system
                 SampleWorker.sequence settings agent (Optimizer.random st) =
               (Ok agent, agent, 0%nat)) by reflexivity.
  assert (H2 : Optimizer.steps libs agent = [] ++ [SampleWorker.arrival])
    by reflexivity.
  assert (H3 : Optimizer.noInsertion settings = true ->
               nth_error SampleWorker.system
                         (Step.attractorId SampleWorker.arrival) <> None)
    by (intros _; discriminate).
  exact (conj H1 (conj H2 (conj H3
           (@fitness_value SampleWorker.Calc SampleWorker.Rng libs
              SampleWorker.system SampleWorker.sequence settings agent st
              agent agent 0%nat [] SampleWorker.arrival H1 H2 H3)))).
Defined.

(** C3, the claim refuted.  In the sample worker, with a maximal duration of
    50: a first trajectory of total delta-V 10 and duration 20 has the cost
    10 and becomes the best; a second one of total delta-V 9 and duration
    100 has the cost 459, and replaces it as the best all the same. *)
Lemma best_trajectory_of_higher_cost :
  let fitness :=
    Optimizer.fitness SampleWorker.libs SampleWorker.system
      SampleWorker.sequence SampleWorker.withInsertion in
  let st0 := Optimizer.onWorkerRun_start SampleWorker.initial in
  let call1 := fitness [10; 20]%R st0 in
  let call2 := fitness [9; 100]%R (snd call1) in
  fst (fst call1) = Ok 10%R /\
  Optimizer._bestTrajectory (snd call1) = Some [10; 20]%R /\
  fst (fst call2) = Ok 459%R /\
  Optimizer._bestTrajectory (snd call2) = Some [9; 100]%R /\
  Optimizer._bestDeltaV (snd call2) = Optimizer.Finite 9 /\
  ~ (459 < 10)%R.
Proof.
  intros fitness st0 call1 call2.
  assert (H1 : call1 =
    (Ok 10%R, [10; 20]%R,
     Optimizer.mkState (Some [10; 20]%R) (Optimizer.Finite 10) [10%R] 0%nat)).
  { subst call1 fitness. rewrite SampleWorker.fitness_sample.
    rewrite Rabs_R0, Rmax_left by lra.
    replace (10 + 10 * 0 * 0.1 + 0 + 0 * 10)%R with 10%R by lra.
    reflexivity. }
  assert (H2 : call2 =
    (Ok 459%R, [9; 100]%R,
     Optimizer.mkState (Some [9; 100]%R) (Optimizer.Finite 9) [10%R; 9%R]
                       0%nat)).
  { subst call2 fitness. rewrite H1. cbn [snd].
    rewrite SampleWorker.fitness_sample.
    rewrite Rabs_R0, Rmax_right by lra.
    replace (9 + 9 * 0 * 0.1 + 0 + (100 - 50) * 9)%R with 459%R by lra.
    unfold Optimizer.updateBest, Optimizer.below.
    cbn [Optimizer._bestDeltaV Optimizer.totalDeltaV SampleWorker.libs nth].
    destruct (Rlt_dec 9 10) as [_|Hn]; [reflexivity | lra]. }
  rewrite H1, H2. cbn [fst snd Optimizer._bestTrajectory Optimizer._bestDeltaV].
  repeat split; auto. lra.
Qed.


(* ================================================================== *)
(** * Part III: further properties                                     *)
(* ================================================================== *)

(** ** The radius and the true anomaly *)

Section OrbitRange.
Import Three Orbit.
Context `{Rotation}.
Open Scope R_scope.

(** The conic equation, between its values at the apsides. *)
Lemma radius_bounds a e c :
  0 < a -> 0 <= e < 1 -> -1 <= c <= 1 ->
  a * (1 - e) <= a * (1 - e ^ 2) / (1 + e * c) <= 2 * a - a * (1 - e).
Proof.
  intros Ha He Hc.
  assert (Hd : 0 < 1 + e * c).
  { assert (0 <= e * (1 + c)) by (apply Rmult_le_pos; lra). lra. }
  assert (H1 : 0 <= a * (1 - e) * (e * (1 - c))).
  { apply Rmult_le_pos; [apply Rmult_le_pos; lra|].
    apply Rmult_le_pos; lra. }
  assert (H2 : 0 <= a * (1 + e) * (e * (1 + c))).
  { apply Rmult_le_pos; [apply Rmult_le_pos; lra|].
    apply Rmult_le_pos; lra. }
  split.
  - apply Rmult_le_reg_r with (1 + e * c); [exact Hd|].
    replace (a * (1 - e ^ 2) / (1 + e * c) * (1 + e * c))
      with (a * (1 - e ^ 2)) by (field; lra).
    lra.
  - apply Rmult_le_reg_r with (1 + e * c); [exact Hd|].
    replace (a * (1 - e ^ 2) / (1 + e * c) * (1 + e * c))
      with (a * (1 - e ^ 2)) by (field; lra).
    lra.
Qed.

(** X1.  On an orbit of positive semi-major axis and eccentricity in
    [0, 1), as the constructor makes it, the radius at any true anomaly lies
    between the [periapsis] and the [apoapsis] fields. *)
Theorem radius_between_apsides (data : IOrbit)
        (attractor : Body.ICelestialBody) (anglesToRad : bool) (s0 : Store)
        (trueAnomaly : R) :
  0 < d_semiMajorAxis data ->
  0 <= d_eccentricity data < 1 ->
  let o := fst (constructor data attractor anglesToRad s0) in
  exists rp ra,
    periapsis o = Some rp /\ apoapsis o = Some ra /\
    rp <= radius o trueAnomaly <= ra.
Proof.
  intros Ha [He0 He1] o.
  destruct (constructor_fields data attractor anglesToRad s0)
    as (Hsma & Hecc & _ & Hp & _ & Hlt & _).
  fold o in Hsma, Hecc, Hp, Hlt.
  destruct Hlt as [Hperi Hapo]; [rewrite Hecc; exact He1|].
  exists (semiMajorAxis o * (1 - eccentricity o)),
         (2 * semiMajorAxis o - semiMajorAxis o * (1 - eccentricity o)).
  split; [exact Hperi|]. split; [exact Hapo|].
  unfold radius. rewrite Hp, Hsma, Hecc.
  apply radius_bounds; auto. apply COS_bound.
Qed.

End OrbitRange.

(** The radius on the orbit of Eve. *)
Lemma radius_between_apsides_witness :
  (0 < Orbit.d_semiMajorAxis Sample.eveData)%R /\
  (0 <= Orbit.d_eccentricity Sample.eveData < 1)%R /\
  let o := fst (Orbit.constructor (H := Sample.axisAngle)
                  Sample.eveData Sample.kerbol true []) in
  exists rp ra,
    Orbit.periapsis o = Some rp /\ Orbit.apoapsis o = Some ra /\
    (rp <= Orbit.radius o 2 <= ra)%R.
Proof.
  assert (Ha : (0 < Orbit.d_semiMajorAxis Sample.eveData)%R) by (simpl; lra).
  assert (He : (0 <= Orbit.d_eccentricity Sample.eveData < 1)%R)
    by (simpl; lra).
  exact (conj Ha (conj He
           (radius_between_apsides (H := Sample.axisAngle) Sample.eveData
              Sample.kerbol true [] 2 Ha He))).
Defined.

Section SolverRange.
Import Orbit.
Open Scope R_scope.

Lemma two_atan_range (u : R) : - PI < 2 * atan u < PI.
Proof. pose proof (atan_bound u). lra. Qed.

(** The loop variables with [prevX] and [x] negated. *)
Definition negVars (v : NewtonVars) : NewtonVars :=
  mkVars (- prevX v) (- x v) (n v).

Lemma newton_loop_odd f df f' df' :
  (forall y, f' (- y) = - f y) ->
  (forall y, df' (- y) = df y) ->
  forall left v,
    newton_loop f' df' left (negVars v) = negVars (newton_loop f df left v).
Proof.
  intros Hf Hdf. induction left as [|left IH]; intros v.
  - now rewrite !newton_loop_out.
  - assert (Habs : JsMath.abs (x (negVars v) - prevX (negVars v)) =
                   JsMath.abs (x v - prevX v)).
    { unfold negVars, JsMath.abs. cbn [x prevX].
      replace (- x v - - prevX v) with (- (x v - prevX v)) by ring.
      apply Rabs_Ropp. }
    destruct (Rgt_dec (JsMath.abs (x v - prevX v)) 1e-15) as [Hgo|Hstop].
    + rewrite (newton_loop_go f df left v Hgo).
      rewrite newton_loop_go by (rewrite Habs; exact Hgo).
      rewrite <- IH. f_equal. unfold negVars, newtonStep. cbn [x prevX n].
      rewrite Hf, Hdf. f_equal. unfold Rdiv. ring.
    + rewrite (newton_loop_stop f df (S left) v Hstop).
      apply newton_loop_stop. rewrite Habs. exact Hstop.
Qed.

Lemma newton_odd f df f' df' M :
  (forall y, f' (- y) = - f y) ->
  (forall y, df' (- y) = df y) ->
  newton (- M) f' df' = - newton M f df.
Proof.
  intros Hf Hdf. unfold newton, newton_vars.
  replace (mkVars (- M) (- M - f' (- M) / df' (- M)) 0)
    with (negVars (mkVars M (M - f M / df M) 0)).
  - rewrite (newton_loop_odd f df f' df' Hf Hdf). reflexivity.
  - unfold negVars. cbn [x prevX n]. rewrite Hf, Hdf.
    f_equal. unfold Rdiv. ring.
Qed.

Lemma sinh_neg y : sinh (- y) = - sinh y.
Proof. unfold sinh. rewrite Ropp_involutive. field. Qed.

Lemma cosh_neg y : cosh (- y) = cosh y.
Proof. unfold cosh. rewrite Ropp_involutive. field. Qed.

Lemma tanh_neg y : tanh (- y) = - tanh y.
Proof. unfold tanh. rewrite sinh_neg, cosh_neg. unfold Rdiv. ring. Qed.

(** X3.  The solver is symmetric about the periapsis: the true anomaly for
    the mean anomaly [-meanAnomaly0] a time [dt] before the epoch is the
    opposite of the one for [meanAnomaly0] a time [dt] after it, on elliptic
    and hyperbolic orbits alike. *)
Theorem solveTrueAnomalyAtDate_odd (this : Orbit.t)
        (meanAnomaly0 epoch dt : R) :
  solveTrueAnomalyAtDate this (- meanAnomaly0) epoch (epoch - dt) =
  - solveTrueAnomalyAtDate this meanAnomaly0 epoch (epoch + dt).
Proof.
  unfold solveTrueAnomalyAtDate.
  set (e := eccentricity this).
  set (M := meanAnomaly0 + meanMotion this * (epoch + dt - epoch)).
  assert (HM : - meanAnomaly0 + meanMotion this * (epoch - dt - epoch) = - M)
    by (unfold M; ring).
  rewrite HM. clearbody M e. clear HM.
  assert (Hell : newton (- M) (fun x => x - e * sin x - - M)
                        (fun x => 1 - e * cos x) =
                 - newton M (fun x => x - e * sin x - M)
                          (fun x => 1 - e * cos x)).
  { apply newton_odd; intros y.
    - rewrite sin_neg. ring.
    - now rewrite cos_neg. }
  assert (Hhyp : newton (- M) (fun x => e * sinh x - x - - M)
                        (fun x => e * cosh x - 1) =
                 - newton M (fun x => e * sinh x - x - M)
                          (fun x => e * cosh x - 1)).
  { apply newton_odd; intros y.
    - rewrite sinh_neg. ring.
    - now rewrite cosh_neg. }
  destruct (Rlt_dec e 1); cbv zeta.
  - rewrite Hell.
    generalize (newton M (fun x => x - e * sin x - M)
                       (fun x => 1 - e * cos x)).
    intros E. clear Hell Hhyp.
    replace (- E * 0.5) with (- (E * 0.5)) by ring.
    rewrite tan_neg, Ropp_mult_distr_r_reverse, atan_opp. ring.
  - rewrite Hhyp.
    generalize (newton M (fun x => e * sinh x - x - M)
                       (fun x => e * cosh x - 1)).
    intros E. clear Hell Hhyp.
    replace (- E * 0.5) with (- (E * 0.5)) by ring.
    rewrite tanh_neg, Ropp_mult_distr_r_reverse, atan_opp. ring.
Qed.

End SolverRange.

(** ** The vis-viva relation

    The speed that [velocityFromTrueAnomaly] computes, from the half-angle
    formulas of the eccentric and of the hyperbolic anomaly. *)

Section VisViva.
Open Scope R_scope.

Lemma sqrt_one_plus_sq u :
  sqrt (1 + u * u) * sqrt (1 + u * u) = 1 + u * u /\ sqrt (1 + u * u) <> 0.
Proof.
  assert (Hpos : 0 < 1 + u * u) by nra.
  assert (Hs : sqrt (1 + u * u) * sqrt (1 + u * u) = 1 + u * u)
    by (apply sqrt_sqrt; lra).
  split; [exact Hs|]. intros H0. rewrite H0 in Hs. lra.
Qed.

Lemma sin_2atan u : sin (2 * atan u) = 2 * u / (1 + u * u).
Proof.
  rewrite sin_2a, sin_atan, cos_atan. unfold Rsqr.
  destruct (sqrt_one_plus_sq u) as [Hs Hne].
  transitivity (2 * u / (sqrt (1 + u * u) * sqrt (1 + u * u)));
    [field; exact Hne | now rewrite Hs].
Qed.

Lemma cos_2atan u : cos (2 * atan u) = (1 - u * u) / (1 + u * u).
Proof.
  rewrite cos_2a, sin_atan, cos_atan. unfold Rsqr.
  destruct (sqrt_one_plus_sq u) as [Hs Hne].
  transitivity ((1 - u * u) / (sqrt (1 + u * u) * sqrt (1 + u * u)));
    [field; exact Hne | now rewrite Hs].
Qed.

(** [cos nu] from the tangent of the half angle. *)
Lemma cos_half_tan nu :
  cos (nu * 0.5) <> 0 ->
  cos nu = (1 - tan (nu * 0.5) * tan (nu * 0.5))
           / (1 + tan (nu * 0.5) * tan (nu * 0.5)).
Proof.
  intros Hc. replace nu with (2 * (nu * 0.5)) at 1 by lra.
  rewrite cos_2a. unfold tan.
  pose proof (sin2_cos2 (nu * 0.5)) as H1. unfold Rsqr in H1.
  set (s := sin (nu * 0.5)) in *. set (c := cos (nu * 0.5)) in *.
  assert (c * c <> 0) by nra.
  field_simplify_eq; [nra|]. split; [exact Hc | nra].
Qed.

Lemma visviva_elliptic mu a e nu :
  0 <= e < 1 -> 0 < a -> 0 <= mu -> cos (nu * 0.5) <> 0 ->
  let r := a * (1 - e ^ 2) / (1 + e * cos nu) in
  let v := sqrt (mu * a) / r in
  let E := 2 * atan (tan (nu * 0.5) * sqrt ((1 - e) / (1 + e))) in
  (- v * sin E) * (- v * sin E) + 0 * 0
  + (- v * sqrt (1 - e * e) * cos E) * (- v * sqrt (1 - e * e) * cos E)
  = mu * (2 / r - 1 / a).
Proof.
  intros He Ha Hmu Hc r v E.
  set (t := tan (nu * 0.5)) in *.
  set (k := sqrt ((1 - e) / (1 + e))) in *.
  assert (Hk : k * k = (1 - e) / (1 + e)).
  { apply sqrt_sqrt. apply Rmult_le_pos; [lra|].
    left. apply Rinv_0_lt_compat. lra. }
  assert (Hq : sqrt (1 - e * e) * sqrt (1 - e * e) = 1 - e * e)
    by (apply sqrt_sqrt; nra).
  assert (Hm : sqrt (mu * a) * sqrt (mu * a) = mu * a)
    by (apply sqrt_sqrt; apply Rmult_le_pos; lra).
  assert (Hcos : cos nu = (1 - t * t) / (1 + t * t))
    by (apply cos_half_tan; exact Hc).
  assert (Hs : sin E = 2 * (t * k) / (1 + t * k * (t * k)))
    by apply sin_2atan.
  assert (Hce : cos E = (1 - t * k * (t * k)) / (1 + t * k * (t * k)))
    by apply cos_2atan.
  assert (HU : t * k * (t * k) = t * t * ((1 - e) / (1 + e)))
    by (rewrite <- Hk; ring).
  assert (Ht : 0 <= t * t) by nra.
  assert (Hden : 0 < 1 + e * cos nu).
  { pose proof (COS_bound nu).
    assert (0 <= e * (1 + cos nu)) by (apply Rmult_le_pos; lra). lra. }
  assert (Hr : 0 < r).
  { unfold r. apply Rdiv_lt_0_compat; [|exact Hden].
    apply Rmult_lt_0_compat; [lra|]. nra. }
  replace ((- v * sin E) * (- v * sin E) + 0 * 0
           + (- v * sqrt (1 - e * e) * cos E)
             * (- v * sqrt (1 - e * e) * cos E))
    with (v * v * (sin E * sin E
                   + sqrt (1 - e * e) * sqrt (1 - e * e) * (cos E * cos E)))
    by ring.
  rewrite Hq.
  assert (Hv : v * v = mu * a / (r * r)).
  { rewrite <- Hm. unfold v. generalize (sqrt (mu * a)). intro s.
    field. lra. }
  rewrite Hv.
  rewrite Hs, Hce.
  replace (2 * (t * k) / (1 + t * k * (t * k))
           * (2 * (t * k) / (1 + t * k * (t * k))))
    with (4 * (t * k * (t * k))
          / ((1 + t * k * (t * k)) * (1 + t * k * (t * k))))
    by (field; rewrite HU; assert (0 <= t * t * ((1 - e) / (1 + e)));
        [apply Rmult_le_pos; [lra|]; apply Rmult_le_pos; [lra|];
         left; apply Rinv_0_lt_compat; lra | lra]).
  rewrite HU. unfold r. rewrite Hcos.
  field. repeat split; try lra; nra.
Qed.

Lemma exp_2atanh w :
  -1 < w < 1 -> exp (2 * JsMath.atanh w) = (1 + w) / (1 - w).
Proof.
  intros Hw. unfold JsMath.atanh.
  replace (2 * (ln ((1 + w) / (1 - w)) / 2)) with (ln ((1 + w) / (1 - w)))
    by lra.
  apply exp_ln. apply Rdiv_lt_0_compat; lra.
Qed.

Lemma sinh_2atanh w :
  -1 < w < 1 -> sinh (2 * JsMath.atanh w) = 2 * w / (1 - w * w).
Proof.
  intros Hw. unfold sinh. rewrite exp_Ropp, exp_2atanh by exact Hw.
  field. split; nra.
Qed.

Lemma cosh_2atanh w :
  -1 < w < 1 -> cosh (2 * JsMath.atanh w) = (1 + w * w) / (1 - w * w).
Proof.
  intros Hw. unfold cosh. rewrite exp_Ropp, exp_2atanh by exact Hw.
  field. split; nra.
Qed.

Lemma visviva_hyperbolic mu a e nu :
  1 < e -> a < 0 -> 0 <= mu -> cos (nu * 0.5) <> 0 ->
  0 < 1 + e * cos nu ->
  let r := a * (1 - e ^ 2) / (1 + e * cos nu) in
  let v := sqrt (- mu * a) / r in
  let H := 2 * JsMath.atanh (tan (nu * 0.5) * sqrt ((e - 1) / (e + 1))) in
  (- v * sinh H) * (- v * sinh H) + 0 * 0
  + (- v * sqrt (e * e - 1) * cosh H) * (- v * sqrt (e * e - 1) * cosh H)
  = mu * (2 / r - 1 / a).
Proof.
  intros He Ha Hmu Hc Hden r v H.
  set (t := tan (nu * 0.5)) in *.
  set (k := sqrt ((e - 1) / (e + 1))) in *.
  assert (Hk : k * k = (e - 1) / (e + 1)).
  { apply sqrt_sqrt. apply Rmult_le_pos; [lra|].
    left. apply Rinv_0_lt_compat. lra. }
  assert (Hq : sqrt (e * e - 1) * sqrt (e * e - 1) = e * e - 1)
    by (apply sqrt_sqrt; nra).
  assert (Hm : sqrt (- mu * a) * sqrt (- mu * a) = - mu * a).
  { apply sqrt_sqrt. replace (- mu * a) with (mu * - a) by ring.
    apply Rmult_le_pos; lra. }
  assert (Hcos : cos nu = (1 - t * t) / (1 + t * t))
    by (apply cos_half_tan; exact Hc).
  assert (Ht : 0 <= t * t) by nra.
  assert (HU : t * k * (t * k) = t * t * ((e - 1) / (e + 1)))
    by (rewrite <- Hk; ring).
  assert (Hw2 : t * k * (t * k) < 1).
  { rewrite HU. rewrite Hcos in Hden.
    assert (Hd : 0 < (1 + t * t + e * (1 - t * t)) / (1 + t * t)).
    { replace ((1 + t * t + e * (1 - t * t)) / (1 + t * t))
        with (1 + e * ((1 - t * t) / (1 + t * t))) by (field; lra).
      exact Hden. }
    assert (Hn : 0 < 1 + t * t + e * (1 - t * t)).
    { replace (1 + t * t + e * (1 - t * t))
        with ((1 + t * t + e * (1 - t * t)) / (1 + t * t) * (1 + t * t))
        by (field; lra).
      apply Rmult_lt_0_compat; lra. }
    apply Rmult_lt_reg_r with (e + 1); [lra|].
    replace (t * t * ((e - 1) / (e + 1)) * (e + 1)) with (t * t * (e - 1))
      by (field; lra).
    lra. }
  assert (Hw : -1 < t * k < 1) by (split; nra).
  assert (Hs : sinh H = 2 * (t * k) / (1 - t * k * (t * k)))
    by (apply sinh_2atanh; exact Hw).
  assert (Hch : cosh H = (1 + t * k * (t * k)) / (1 - t * k * (t * k)))
    by (apply cosh_2atanh; exact Hw).
  assert (Hr : 0 < r).
  { unfold r. apply Rdiv_lt_0_compat; [|exact Hden].
    replace (a * (1 - e ^ 2)) with (- a * (e ^ 2 - 1)) by ring.
    apply Rmult_lt_0_compat; [lra|]. nra. }
  replace ((- v * sinh H) * (- v * sinh H) + 0 * 0
           + (- v * sqrt (e * e - 1) * cosh H)
             * (- v * sqrt (e * e - 1) * cosh H))
    with (v * v * (sinh H * sinh H
                   + sqrt (e * e - 1) * sqrt (e * e - 1) * (cosh H * cosh H)))
    by ring.
  rewrite Hq.
  assert (Hv : v * v = - mu * a / (r * r)).
  { rewrite <- Hm. unfold v. generalize (sqrt (- mu * a)). intro s.
    field. lra. }
  rewrite Hv, Hs, Hch.
  replace (2 * (t * k) / (1 - t * k * (t * k))
           * (2 * (t * k) / (1 - t * k * (t * k))))
    with (4 * (t * k * (t * k))
          / ((1 - t * k * (t * k)) * (1 - t * k * (t * k))))
    by (field; lra).
  revert Hw2. rewrite HU. intros Hw2. unfold r. rewrite Hcos.
  assert (Hnz : 1 - t * t * ((e - 1) / (e + 1)) <> 0) by lra.
  assert (Hnz2 : e + 1 - t * t * (e - 1) <> 0).
  { intros H0. apply Hnz. field_simplify_eq; lra. }
  field. repeat split; try lra; try nra.
Qed.

End VisViva.

(** ** Positions and velocities *)

(** Solves the side conditions on the lengths of stores. *)
Ltac store_lengths :=
  repeat (rewrite length_assign || rewrite length_app); simpl; lia.

(** Runs the monadic operations, leaving [deref], [assign] and the lengths
    as they are. *)
Ltac store_run :=
  lazy beta iota zeta delta
    [Three.bind Three.ret Three.newVector3 Three.clone Three.applyAxisAngle
     Three.multiplyScalar Three.set Three.read Three.cross fst snd
     Orbit.semiMajorAxis Orbit.apoapsis Orbit.periapsis Orbit.eccentricity
     Orbit.inclination Orbit.argOfPeriapsis Orbit.ascNodeLongitude
     Orbit.orbitalParam Orbit.meanMotion Orbit.ascNodeDir Orbit.periapsisDir
     Orbit.normal Orbit.attractor].

(** Evaluates [deref] on a store written as allocations and writes. *)
Ltac store_eval :=
  repeat first
    [ rewrite deref_alloc_new
    | rewrite deref_assign_same by store_lengths
    | rewrite deref_assign_other by store_lengths
    | rewrite deref_alloc_old by store_lengths ].

Section OrbitVectors.
Import Three Orbit.
Context `{Rotation}.
Open Scope R_scope.

Definition unitX : Vector3 := mkVector3 1 0 0.
Definition unitY : Vector3 := mkVector3 0 1 0.

(** The three direction vectors, from the three angles. *)
Definition ascNodeDirOf (o : Orbit.t) : Vector3 :=
  rotated unitY (ascNodeLongitude o) unitX.
Definition normalOf (o : Orbit.t) : Vector3 :=
  rotated (ascNodeDirOf o) (inclination o) unitY.
Definition periapsisDirOf (o : Orbit.t) : Vector3 :=
  rotated (normalOf o) (argOfPeriapsis o) (ascNodeDirOf o).

Lemma constructor_angles data attractor anglesToRad s0 :
  let o := fst (constructor data attractor anglesToRad s0) in
  let angle := fun deg => if anglesToRad then degToRad deg else deg in
  inclination o = angle (d_inclination data) /\
  argOfPeriapsis o = angle (d_argOfPeriapsis data) /\
  ascNodeLongitude o = angle (d_ascNodeLongitude data).
Proof.
  unfold constructor.
  destruct (Rlt_dec (d_eccentricity data) 1); cbn; auto.
Qed.

Lemma constructor_vectors data attractor anglesToRad s0 :
  let o := fst (constructor data attractor anglesToRad s0) in
  let s1 := snd (constructor data attractor anglesToRad s0) in
  deref s1 (ascNodeDir o) = ascNodeDirOf o /\
  deref s1 (normal o) = normalOf o /\
  deref s1 (periapsisDir o) = periapsisDirOf o.
Proof.
  unfold constructor, periapsisDirOf, normalOf, ascNodeDirOf.
  destruct (Rlt_dec (d_eccentricity data) 1); store_run; store_eval; auto.
Qed.

(** ** Lengths of positions and velocities

    THREE's [applyAxisAngle] expects a normalized axis and then performs a
    rotation, which keeps the length of the vector it is applied to. *)

Definition isometric : Prop :=
  forall (axis : Vector3) (angle : R) (v : Vector3),
    length3 axis = 1 -> length3 (rotated axis angle v) = length3 v.

Lemma length3_unitX : length3 unitX = 1.
Proof.
  unfold length3, unitX; simpl.
  replace (1 * 1 + 0 * 0 + 0 * 0) with 1 by ring. apply sqrt_1.
Qed.

Lemma length3_unitY : length3 unitY = 1.
Proof.
  unfold length3, unitY; simpl.
  replace (0 * 0 + 1 * 1 + 0 * 0) with 1 by ring. apply sqrt_1.
Qed.

Lemma dot3_self_nonneg (v : Vector3) : 0 <= dot3 v v.
Proof. unfold dot3. nra. Qed.

Lemma length3_sqr (v : Vector3) : length3 v * length3 v = dot3 v v.
Proof. apply sqrt_sqrt. apply dot3_self_nonneg. Qed.

Lemma ascNodeDirOf_unit o : isometric -> length3 (ascNodeDirOf o) = 1.
Proof.
  intros Hiso. unfold ascNodeDirOf.
  rewrite Hiso; [apply length3_unitX | apply length3_unitY].
Qed.

Lemma normalOf_unit o : isometric -> length3 (normalOf o) = 1.
Proof.
  intros Hiso. unfold normalOf.
  rewrite Hiso; [apply length3_unitY | now apply ascNodeDirOf_unit].
Qed.

Lemma periapsisDirOf_unit o : isometric -> length3 (periapsisDirOf o) = 1.
Proof.
  intros Hiso. unfold periapsisDirOf.
  rewrite Hiso; [now apply ascNodeDirOf_unit | now apply normalOf_unit].
Qed.

(** The velocity in the plane of the orbit, before it is rotated. *)
Definition planarVelocity (this : Orbit.t) (nu : R) : Vector3 :=
  let e := eccentricity this in
  let mu := Body.stdGravParam (attractor this) in
  let a := semiMajorAxis this in
  let r := radius this nu in
  if Rlt_dec e 1 then
    let v := sqrt (mu * a) / r in
    let E := 2 * atan (tan (nu * 0.5) * sqrt ((1 - e) / (1 + e))) in
    mkVector3 (- v * sin E) 0 (- v * sqrt (1 - e * e) * cos E)
  else
    let v := sqrt (- mu * a) / r in
    let H := 2 * JsMath.atanh (tan (nu * 0.5) * sqrt ((e - 1) / (e + 1))) in
    mkVector3 (- v * sinh H) 0 (- v * sqrt (e * e - 1) * cosh H).

(** The velocity at the true anomaly [nu]: the velocity in the orbital
    plane, turned by the three angles of the orbit. *)
Definition velocityAt (this : Orbit.t) (nu : R) : Vector3 :=
  rotated (ascNodeDirOf this) (inclination this)
    (rotated unitY (argOfPeriapsis this)
       (rotated unitY (ascNodeLongitude this) (planarVelocity this nu))).

Lemma velocityFromTrueAnomaly_value this nu s :
  let vel := fst (velocityFromTrueAnomaly this nu s) in
  let s' := snd (velocityFromTrueAnomaly this nu s) in
  deref s' vel = velocityAt this nu.
Proof.
  unfold velocityAt.
  unfold velocityFromTrueAnomaly, planarVelocity, ascNodeDirOf, unitX, unitY.
  destruct (Rlt_dec (eccentricity this) 1); store_run; store_eval;
    reflexivity.
Qed.

Lemma velocityFromTrueAnomaly_ref this nu s :
  fst (velocityFromTrueAnomaly this nu s) = List.length s.
Proof.
  unfold velocityFromTrueAnomaly.
  destruct (Rlt_dec (eccentricity this) 1); reflexivity.
Qed.

Lemma velocityFromTrueAnomaly_speed this nu s :
  isometric ->
  let vel := fst (velocityFromTrueAnomaly this nu s) in
  let s' := snd (velocityFromTrueAnomaly this nu s) in
  dot3 (deref s' vel) (deref s' vel) =
  dot3 (planarVelocity this nu) (planarVelocity this nu).
Proof.
  intros Hiso vel s'. subst vel s'.
  rewrite velocityFromTrueAnomaly_value. unfold velocityAt.
  rewrite <- !length3_sqr.
  rewrite !Hiso; auto using length3_unitY, ascNodeDirOf_unit.
Qed.


(** X5.  On an elliptic orbit ([0 <= e < 1], [a > 0]) as its constructor
    returns it, the velocity that [velocityFromTrueAnomaly] returns obeys the
    vis-viva relation: its squared length is [mu * (2 / r - 1 / a)], with [r]
    the radius at that true anomaly, whenever the rotation keeps lengths, for
    every true anomaly that is not an odd multiple of [PI]. *)
Theorem velocity_vis_viva_elliptic (data : IOrbit)
        (attractor : Body.ICelestialBody) (anglesToRad : bool)
        (s0 s : Store) (nu : R) :
  isometric ->
  0 < d_semiMajorAxis data -> 0 <= d_eccentricity data < 1 ->
  0 <= Body.stdGravParam attractor ->
  cos (nu * 0.5) <> 0 ->
  let o := fst (constructor data attractor anglesToRad s0) in
  let vel := fst (velocityFromTrueAnomaly o nu s) in
  let s' := snd (velocityFromTrueAnomaly o nu s) in
  dot3 (deref s' vel) (deref s' vel) =
  Body.stdGravParam attractor * (2 / radius o nu - 1 / semiMajorAxis o).
Proof.
  intros Hiso Ha He Hmu Hc o vel s'. subst vel s'.
  rewrite velocityFromTrueAnomaly_speed by exact Hiso.
  destruct (constructor_fields data attractor anglesToRad s0)
    as (Hsma & Hecc & Hatt & Hp & _).
  fold o in Hsma, Hecc, Hatt, Hp.
  unfold planarVelocity, radius. rewrite Hp, Hatt, Hsma, Hecc.
  destruct (Rlt_dec (d_eccentricity data) 1) as [_|Hn]; [|lra].
  unfold dot3; simpl. now apply visviva_elliptic.
Qed.

(** X6.  On a hyperbolic orbit ([e > 1], [a < 0]) as its constructor returns
    it, at a true anomaly between the asymptotes ([1 + e * cos nu > 0]), the
    velocity that [velocityFromTrueAnomaly] returns obeys the vis-viva
    relation as well. *)
Theorem velocity_vis_viva_hyperbolic (data : IOrbit)
        (attractor : Body.ICelestialBody) (anglesToRad : bool)
        (s0 s : Store) (nu : R) :
  isometric ->
  d_semiMajorAxis data < 0 -> 1 < d_eccentricity data ->
  0 <= Body.stdGravParam attractor ->
  cos (nu * 0.5) <> 0 ->
  0 < 1 + d_eccentricity data * cos nu ->
  let o := fst (constructor data attractor anglesToRad s0) in
  let vel := fst (velocityFromTrueAnomaly o nu s) in
  let s' := snd (velocityFromTrueAnomaly o nu s) in
  dot3 (deref s' vel) (deref s' vel) =
  Body.stdGravParam attractor * (2 / radius o nu - 1 / semiMajorAxis o).
Proof.
  intros Hiso Ha He Hmu Hc Hden o vel s'. subst vel s'.
  rewrite velocityFromTrueAnomaly_speed by exact Hiso.
  destruct (constructor_fields data attractor anglesToRad s0)
    as (Hsma & Hecc & Hatt & Hp & _).
  fold o in Hsma, Hecc, Hatt, Hp.
  unfold planarVelocity, radius. rewrite Hp, Hatt, Hsma, Hecc.
  destruct (Rlt_dec (d_eccentricity data) 1) as [Hn|_]; [lra|].
  unfold dot3; simpl. now apply visviva_hyperbolic.
Qed.

(** The vector [v] scaled by [k], as [multiplyScalar] leaves it. *)
Definition scaled (v : Vector3) (k : R) : Vector3 :=
  mkVector3 (Three.x v * k) (Three.y v * k) (Three.z v * k).

Lemma length3_scaled v k : length3 (scaled v k) = Rabs k * length3 v.
Proof.
  unfold length3, scaled; simpl.
  replace (Three.x v * k * (Three.x v * k) + Three.y v * k * (Three.y v * k)
           + Three.z v * k * (Three.z v * k))
    with (k * k * (Three.x v * Three.x v + Three.y v * Three.y v
                   + Three.z v * Three.z v)) by ring.
  rewrite sqrt_mult by nra.
  replace (k * k) with (Rsqr k) by reflexivity.
  now rewrite sqrt_Rsqr_abs.
Qed.

(** The object that [positionFromTrueAnomaly] returns is a new one; it
    holds the periapsis direction, rotated about the normal and scaled. *)
Lemma positionFromTrueAnomaly_value this nu s :
  (normal this < List.length s)%nat ->
  let pos := fst (positionFromTrueAnomaly this nu s) in
  let s' := snd (positionFromTrueAnomaly this nu s) in
  pos = List.length s /\ List.length s' = S (List.length s) /\
  deref s' pos =
  scaled (rotated (deref s (normal this)) nu (deref s (periapsisDir this)))
         (radius this nu).
Proof.
  intros Hl. unfold positionFromTrueAnomaly, scaled.
  generalize (radius this nu); intros k.
  revert Hl. generalize (normal this) (periapsisDir this). intros n p Hl.
  store_run. split; [reflexivity|]. split; [store_lengths|].
  store_eval. reflexivity.
Qed.

(** On an orbit as its constructor returns it, after any calls of its
    methods, the position is the unit vector [periapsisDirOf], rotated about
    the unit vector [normalOf] and scaled by the radius. *)
Lemma position_of_constructed data attractor anglesToRad s0 calls nu :
  let o := fst (constructor data attractor anglesToRad s0) in
  let s1 := snd (constructor data attractor anglesToRad s0) in
  let s2 := snd (performAll o calls s1) in
  let pos := fst (positionFromTrueAnomaly o nu s2) in
  let s3 := snd (positionFromTrueAnomaly o nu s2) in
  pos = List.length s2 /\ List.length s3 = S (List.length s2) /\
  deref s3 pos =
  scaled (rotated (normalOf o) nu (periapsisDirOf o)) (radius o nu).
Proof.
  intros o s1 s2 pos s3.
  destruct (constructor_refs data attractor anglesToRad s0)
    as (_ & Hrp & Hrn).
  destruct (constructor_vectors data attractor anglesToRad s0)
    as (_ & Hvn & Hvp).
  fold o s1 in Hrp, Hrn, Hvn, Hvp.
  destruct (performAll_allocates_only o calls s1) as [Hlen Hkeep].
  fold s2 in Hlen, Hkeep.
  assert (Hl : (normal o < List.length s2)%nat) by lia.
  destruct (positionFromTrueAnomaly_value o nu s2 Hl) as (Hpos & Hlen3 & Hv).
  fold pos s3 in Hpos, Hlen3, Hv.
  rewrite !Hkeep, Hvn, Hvp in Hv by assumption. auto.
Qed.

Lemma position_length o nu :
  isometric ->
  length3 (scaled (rotated (normalOf o) nu (periapsisDirOf o)) (radius o nu))
  = Rabs (radius o nu).
Proof.
  intros Hiso. rewrite length3_scaled, Hiso by now apply normalOf_unit.
  rewrite periapsisDirOf_unit by exact Hiso. ring.
Qed.

(** X7.  The position that [positionFromTrueAnomaly] returns, on an orbit as
    its constructor returns it and after any calls of its methods, lies at
    the distance [|radius(trueAnomaly)|] from the attractor, whenever the
    rotation keeps lengths. *)
Theorem position_distance (data : IOrbit) (attractor : Body.ICelestialBody)
        (anglesToRad : bool) (s0 : Store) (calls : list Call) (nu : R) :
  isometric ->
  let o := fst (constructor data attractor anglesToRad s0) in
  let s1 := snd (constructor data attractor anglesToRad s0) in
  let s2 := snd (performAll o calls s1) in
  let pos := fst (positionFromTrueAnomaly o nu s2) in
  let s3 := snd (positionFromTrueAnomaly o nu s2) in
  length3 (deref s3 pos) = Rabs (radius o nu).
Proof.
  intros Hiso o s1 s2 pos s3.
  destruct (position_of_constructed data attractor anglesToRad s0 calls nu)
    as (_ & _ & Hv).
  fold o s1 s2 pos s3 in Hv. rewrite Hv. now apply position_length.
Qed.

Lemma stateAtDate_unfold this meanAnomaly0 epoch date s :
  stateAtDate this meanAnomaly0 epoch date s =
  let nu := solveTrueAnomalyAtDate this meanAnomaly0 epoch date in
  let ps := positionFromTrueAnomaly this nu s in
  let vs := velocityFromTrueAnomaly this nu (snd ps) in
  ((fst ps, fst vs), snd vs).
Proof.
  unfold stateAtDate, bind, ret. cbv zeta.
  destruct (positionFromTrueAnomaly this _ s) as [pos sp]. cbn [fst snd].
  destruct (velocityFromTrueAnomaly this _ sp) as [vel sv]. reflexivity.
Qed.

(** X8.  On an elliptic orbit ([0 <= e < 1], [a > 0]) as its constructor
    returns it, after any calls of its methods and at every date,
    [stateAtDate] returns two different objects: a position whose distance
    [r] from the attractor lies between the periapsis and the apoapsis, and
    a velocity whose squared length is [mu * (2 / r - 1 / a)]: the energy
    of the orbit is the same at all dates.  The rotation is assumed to keep
    lengths. *)
Theorem stateAtDate_energy (data : IOrbit) (attractor : Body.ICelestialBody)
        (anglesToRad : bool) (s0 : Store) (calls : list Call)
        (meanAnomaly0 epoch date : R) :
  isometric ->
  0 < d_semiMajorAxis data -> 0 <= d_eccentricity data < 1 ->
  0 <= Body.stdGravParam attractor ->
  let o := fst (constructor data attractor anglesToRad s0) in
  let s1 := snd (constructor data attractor anglesToRad s0) in
  let s2 := snd (performAll o calls s1) in
  let pos := fst (fst (stateAtDate o meanAnomaly0 epoch date s2)) in
  let vel := snd (fst (stateAtDate o meanAnomaly0 epoch date s2)) in
  let s3 := snd (stateAtDate o meanAnomaly0 epoch date s2) in
  let r := length3 (deref s3 pos) in
  pos <> vel /\
  semiMajorAxis o * (1 - eccentricity o) <= r
    <= semiMajorAxis o * (1 + eccentricity o) /\
  dot3 (deref s3 vel) (deref s3 vel) =
  Body.stdGravParam attractor * (2 / r - 1 / semiMajorAxis o).
Proof.
  intros Hiso Ha He Hmu o s1 s2 pos vel s3 r.
  destruct (constructor_fields data attractor anglesToRad s0)
    as (Hsma & Hecc & Hatt & Hp & _).
  fold o in Hsma, Hecc, Hatt, Hp.
  assert (Hnu : - PI < solveTrueAnomalyAtDate o meanAnomaly0 epoch date < PI).
  { unfold solveTrueAnomalyAtDate.
    destruct (Rlt_dec (eccentricity o) 1); cbv zeta; apply two_atan_range. }
  subst pos vel s3 r. rewrite stateAtDate_unfold. cbv zeta.
  revert Hnu. generalize (solveTrueAnomalyAtDate o meanAnomaly0 epoch date).
  intros nu Hnu.
  destruct (position_of_constructed data attractor anglesToRad s0 calls nu)
    as (Hpos & Hlen & Hv).
  fold o s1 s2 in Hpos, Hlen, Hv.
  pose proof (velocityFromTrueAnomaly_allocates_only o nu
                (snd (positionFromTrueAnomaly o nu s2))) as [Hl4 Hkeep].
  pose proof (velocityFromTrueAnomaly_speed o nu
                (snd (positionFromTrueAnomaly o nu s2)) Hiso) as Hspeed.
  pose proof (velocityFromTrueAnomaly_ref o nu
                (snd (positionFromTrueAnomaly o nu s2))) as Hvel.
  cbv zeta in Hspeed, Hvel.
  destruct (positionFromTrueAnomaly o nu s2) as [pos sp].
  cbn [fst snd] in *.
  destruct (velocityFromTrueAnomaly o nu sp) as [vel sv].
  cbn [fst snd] in *.
  assert (Hr : length3 (deref sv pos) = radius o nu).
  { rewrite Hkeep by lia. rewrite Hv, position_length by exact Hiso.
    apply Rabs_pos_eq. unfold radius. rewrite Hp, Hsma, Hecc.
    pose proof (COS_bound nu).
    pose proof (@radius_bounds (d_semiMajorAxis data) (d_eccentricity data)
                  (cos nu) Ha He ltac:(lra)).
    nra. }
  split; [lia|]. rewrite Hr. split.
  - unfold radius. rewrite Hp, Hsma, Hecc.
    pose proof (COS_bound nu).
    pose proof (@radius_bounds (d_semiMajorAxis data) (d_eccentricity data)
                  (cos nu) Ha He ltac:(lra)).
    lra.
  - rewrite Hspeed. unfold planarVelocity, radius.
    rewrite Hp, Hatt, Hsma, Hecc.
    destruct (Rlt_dec (d_eccentricity data) 1) as [_|Hn]; [|lra].
    unfold dot3; simpl. apply visviva_elliptic; auto.
    apply Rgt_not_eq, cos_gt_0; lra.
Qed.

(** X9.  Handing the [data] of a constructed orbit back to the constructor,
    with [anglesToRad] false, yields an orbit with the same data around the
    same attractor, and direction vectors with the same coordinates. *)
Theorem data_roundtrip (data : IOrbit) (attractor : Body.ICelestialBody)
        (anglesToRad : bool) (s0 s : Store) :
  let o := fst (constructor data attractor anglesToRad s0) in
  let s1 := snd (constructor data attractor anglesToRad s0) in
  let o' := fst (constructor (Orbit.data o) attractor false s) in
  let s' := snd (constructor (Orbit.data o) attractor false s) in
  Orbit.data o' = Orbit.data o /\
  Orbit.attractor o' = Orbit.attractor o /\
  deref s' (ascNodeDir o') = deref s1 (ascNodeDir o) /\
  deref s' (normal o') = deref s1 (normal o) /\
  deref s' (periapsisDir o') = deref s1 (periapsisDir o).
Proof.
  intros o s1 o' s'.
  destruct (constructor_vectors data attractor anglesToRad s0)
    as (Ha & Hn & Hp).
  destruct (constructor_vectors (Orbit.data o) attractor false s)
    as (Ha' & Hn' & Hp').
  fold o s1 in Ha, Hn, Hp. fold o' s' in Ha', Hn', Hp'.
  assert (Hfields : Orbit.data o' = Orbit.data o /\
                    Orbit.attractor o' = Orbit.attractor o).
  { subst o' o. unfold constructor.
    destruct (Rlt_dec (d_eccentricity data) 1) as [He|He]; cbn;
      (destruct (Rlt_dec (d_eccentricity data) 1); [|try contradiction]);
      try contradiction; cbn; auto. }
  destruct Hfields as [Hd Hatt].
  assert (Hangles : ascNodeLongitude o' = ascNodeLongitude o /\
                    inclination o' = inclination o /\
                    argOfPeriapsis o' = argOfPeriapsis o).
  { unfold Orbit.data in Hd. injection Hd. auto. }
  destruct Hangles as (H1 & H2 & H3).
  rewrite Ha, Hn, Hp, Ha', Hn', Hp'.
  unfold periapsisDirOf, normalOf, ascNodeDirOf. rewrite H1, H2, H3. auto.
Qed.

End OrbitVectors.

(** The rotation of the samples, Rodrigues' formula, keeps lengths. *)
Lemma axisAngle_isometric : @isometric Sample.axisAngle.
Proof.
  intros [ax ay az] angle [vx vy vz] Hax.
  assert (Hu : (ax * ax + ay * ay + az * az = 1)%R).
  { unfold Three.length3 in Hax; simpl in Hax.
    rewrite <- (sqrt_sqrt (ax * ax + ay * ay + az * az)) by nra.
    rewrite Hax. ring. }
  unfold Three.length3, Three.rotated, Sample.axisAngle, Three.dot3; simpl.
  f_equal.
  pose proof (sin2_cos2 angle) as Hsc. unfold Rsqr in Hsc.
  generalize dependent (sin angle). generalize (cos angle).
  intros c s Hsc. clear Hax. nsatz.
Qed.

Lemma velocity_vis_viva_elliptic_witness :
  let o := fst (Orbit.constructor (H := Sample.axisAngle)
                  Sample.eveData Sample.kerbol true []) in
  let state :=
    Orbit.velocityFromTrueAnomaly (H := Sample.axisAngle) o 1 [] in
  let vel := fst state in
  let s' := snd state in
  Three.dot3 (Three.deref s' vel) (Three.deref s' vel) =
  (Body.stdGravParam Sample.kerbol
   * (2 / Orbit.radius o 1 - 1 / Orbit.semiMajorAxis o))%R.
Proof.
  apply (velocity_vis_viva_elliptic (H := Sample.axisAngle)).
  - exact axisAngle_isometric.
  - simpl; lra.
  - simpl; lra.
  - simpl; lra.
  - apply Rgt_not_eq, cos_gt_0; pose proof PI2_3_2; lra.
Defined.

Definition flybyData : Orbit.IOrbit :=
  Orbit.mkIOrbit (-1000000) None None 2 30 0 15 None None.

Lemma velocity_vis_viva_hyperbolic_witness :
  let o := fst (Orbit.constructor (H := Sample.axisAngle)
                  flybyData Sample.eveBody true []) in
  let state :=
    Orbit.velocityFromTrueAnomaly (H := Sample.axisAngle) o 0 [] in
  let vel := fst state in
  let s' := snd state in
  Three.dot3 (Three.deref s' vel) (Three.deref s' vel) =
  (Body.stdGravParam Sample.eveBody
   * (2 / Orbit.radius o 0 - 1 / Orbit.semiMajorAxis o))%R.
Proof.
  apply (velocity_vis_viva_hyperbolic (H := Sample.axisAngle)).
  - exact axisAngle_isometric.
  - simpl; lra.
  - simpl; lra.
  - simpl; lra.
  - replace (0 * 0.5)%R with 0%R by lra. rewrite cos_0. lra.
  - simpl. rewrite cos_0. lra.
Defined.

Lemma position_distance_witness :
  let o := fst (Orbit.constructor (H := Sample.axisAngle)
                  Sample.eveData Sample.kerbol true []) in
  let s1 := snd (Orbit.constructor (H := Sample.axisAngle)
                   Sample.eveData Sample.kerbol true []) in
  let s2 := snd (performAll (H := Sample.axisAngle) o
                   [call_velocityFromTrueAnomaly 1] s1) in
  let state :=
    Orbit.positionFromTrueAnomaly (H := Sample.axisAngle) o 2 s2 in
  let pos := fst state in
  let s3 := snd state in
  Three.length3 (Three.deref s3 pos) = Rabs (Orbit.radius o 2).
Proof.
  exact (position_distance (H := Sample.axisAngle) Sample.eveData
           Sample.kerbol true [] [call_velocityFromTrueAnomaly 1] 2
           axisAngle_isometric).
Defined.

Lemma stateAtDate_energy_witness :
  let o := fst (Orbit.constructor (H := Sample.axisAngle)
                  Sample.eveData Sample.kerbol true []) in
  let s1 := snd (Orbit.constructor (H := Sample.axisAngle)
                   Sample.eveData Sample.kerbol true []) in
  let s2 := snd (performAll (H := Sample.axisAngle) o
                   [call_stateAtDate 2 0 50] s1) in
  let state := Orbit.stateAtDate (H := Sample.axisAngle) o 2 0 100 s2 in
  let pos := fst (fst state) in
  let vel := snd (fst state) in
  let s3 := snd state in
  let r := Three.length3 (Three.deref s3 pos) in
  pos <> vel /\
  (Orbit.semiMajorAxis o * (1 - Orbit.eccentricity o) <= r
     <= Orbit.semiMajorAxis o * (1 + Orbit.eccentricity o))%R /\
  Three.dot3 (Three.deref s3 vel) (Three.deref s3 vel) =
  (Body.stdGravParam Sample.kerbol * (2 / r - 1 / Orbit.semiMajorAxis o))%R.
Proof.
  apply (stateAtDate_energy (H := Sample.axisAngle) Sample.eveData
           Sample.kerbol true [] [call_stateAtDate 2 0 50] 2 0 100
           axisAngle_isometric); simpl; lra.
Defined.

(** ** Strings: [trim], [split] and [joinStrings] *)

Section StringFacts.
Import JsString.
Open Scope string_scope.

Lemma list_ascii_of_string_app (s1 s2 : string) :
  list_ascii_of_string (s1 ++ s2) =
  (list_ascii_of_string s1 ++ list_ascii_of_string s2)%list.
Proof. induction s1 as [|c s1 IH]; simpl; [|rewrite IH]; reflexivity. Qed.

Lemma trimStart_blanks (ws l : list ascii) :
  forallb isWhiteSpace ws = true -> trimStart (ws ++ l) = trimStart l.
Proof.
  induction ws as [|c ws IH]; simpl; auto.
  destruct (isWhiteSpace c); [exact IH | discriminate].
Qed.

Lemma trimStart_all_blanks (ws : list ascii) :
  forallb isWhiteSpace ws = true -> trimStart ws = [].
Proof.
  intros Hws. rewrite <- (app_nil_r ws). now rewrite trimStart_blanks.
Qed.

Lemma forallb_rev {A} (p : A -> bool) (l : list A) :
  forallb p (rev l) = forallb p l.
Proof.
  induction l as [|a l IH]; simpl; auto.
  rewrite forallb_app, IH. simpl. rewrite andb_true_r. apply andb_comm.
Qed.

(** Trailing blanks are dropped by the second pass of [trim]. *)
Lemma trimStart_rev_blanks (l ws : list ascii) :
  forallb isWhiteSpace ws = true ->
  trimStart (rev (l ++ ws)) = trimStart (rev l).
Proof.
  intros Hws. rewrite rev_app_distr. apply trimStart_blanks.
  now rewrite forallb_rev.
Qed.

Lemma trim_passes_blanks (l ws : list ascii) :
  forallb isWhiteSpace ws = true ->
  trimStart (rev (trimStart (l ++ ws))) = trimStart (rev (trimStart l)).
Proof.
  intros Hws. induction l as [|c l IH]; simpl.
  - rewrite (@trimStart_all_blanks ws Hws). reflexivity.
  - destruct (isWhiteSpace c); [exact IH|].
    change (c :: (l ++ ws)%list) with ((c :: l) ++ ws)%list.
    now apply trimStart_rev_blanks.
Qed.

(** [trim] drops the blanks around a string, and nothing else of them. *)
Lemma trim_blanks (before after str : string) :
  forallb isWhiteSpace (list_ascii_of_string before) = true ->
  forallb isWhiteSpace (list_ascii_of_string after) = true ->
  trim (before ++ str ++ after) = trim str.
Proof.
  intros Hb Ha. unfold trim.
  rewrite !list_ascii_of_string_app, trimStart_blanks by exact Hb.
  now rewrite trim_passes_blanks.
Qed.

(** A string without blanks is left as it is. *)
Lemma trim_no_blank (s : string) :
  Forall (fun c => isWhiteSpace c = false) (list_ascii_of_string s) ->
  trim s = s.
Proof.
  intros Hs. unfold trim.
  assert (Hid : forall l, Forall (fun c => isWhiteSpace c = false) l ->
                          trimStart l = l).
  { intros l Hl. destruct Hl as [|c l Hc Hl]; simpl; auto. now rewrite Hc. }
  rewrite (Hid _ Hs), Hid by (apply Forall_rev; exact Hs).
  rewrite rev_involutive. apply string_of_list_ascii_of_string.
Qed.

(** [split] on a string that does not hold the separator. *)
Lemma split_no_sep (sep : ascii) (s : string) :
  Forall (fun c => c <> sep) (list_ascii_of_string s) ->
  split sep s = [s].
Proof.
  induction s as [|c s IH]; simpl; intros Hs; auto.
  inversion Hs as [|? ? Hc Hrest]; subst.
  destruct (Ascii.eqb_spec c sep) as [Heq|_]; [contradiction|].
  now rewrite IH.
Qed.

Lemma split_app_sep (sep : ascii) (s rest : string) :
  Forall (fun c => c <> sep) (list_ascii_of_string s) ->
  split sep (s ++ String sep rest) = s :: split sep rest.
Proof.
  induction s as [|c s IH]; simpl; intros Hs.
  - now rewrite Ascii.eqb_refl.
  - inversion Hs as [|? ? Hc Hrest]; subst.
    destruct (Ascii.eqb_spec c sep) as [Heq|_]; [contradiction|].
    now rewrite IH.
Qed.

(** Splitting what [joinStrings] joined gives the strings back, when there
    is one at least and none holds the separator. *)
Lemma split_joinStrings (sep : ascii) (strs : list string) :
  strs <> [] ->
  Forall (fun s => Forall (fun c => c <> sep) (list_ascii_of_string s)) strs ->
  split sep (joinStrings strs (String sep EmptyString)) = strs.
Proof.
  unfold joinStrings.
  induction strs as [|s strs IH]; intros Hne Hall; [contradiction|].
  inversion Hall as [|? ? Hs Hrest]; subst.
  destruct strs as [|s' strs].
  - simpl. now apply split_no_sep.
  - change (concat (String sep "") (s :: s' :: strs))
      with (s ++ String sep (concat (String sep "") (s' :: strs))).
    rewrite split_app_sep by exact Hs.
    rewrite IH; auto. discriminate.
Qed.

(** The characters of a joined string are those of the strings and of the
    separator. *)
Lemma joinStrings_chars (P : ascii -> Prop) (sep : string)
      (strs : list string) :
  Forall P (list_ascii_of_string sep) ->
  Forall (fun s => Forall P (list_ascii_of_string s)) strs ->
  Forall P (list_ascii_of_string (joinStrings strs sep)).
Proof.
  unfold joinStrings. intros Hsep.
  induction strs as [|s strs IH]; intros Hall; [constructor|].
  inversion Hall as [|? ? Hs Hrest]; subst.
  destruct strs as [|s' strs]; [exact Hs|].
  change (concat sep (s :: s' :: strs))
    with (s ++ sep ++ concat sep (s' :: strs)).
  rewrite !list_ascii_of_string_app.
  apply Forall_app; split; [exact Hs|].
  apply Forall_app; split; [exact Hsep | auto].
Qed.

End StringFacts.

(** ** Flyby sequences read from a string *)

Section FlybyFacts.
Import System FlybySequence.
Open Scope string_scope.

(** The ids that the outer loop pushes are those of the bodies that the
    tokens stand for, in the order of the tokens. *)
Lemma scanInitials_ids system initials : forall i attractor ids ids',
  scanInitials (orbiting system) initials i attractor ids = Ok ids' ->
  exists matched,
    Forall2 (fun initial body => matching system initial = Some body)
            initials matched /\
    ids' = (ids ++ map id matched)%list.
Proof.
  induction initials as [|initial rest IH]; intros i attractor ids ids' Hok;
    simpl in Hok.
  - injection Hok as <-. exists []. rewrite app_nil_r. auto.
  - rewrite scanOrbiting_find in Hok. fold (matching system initial) in Hok.
    destruct (matching system initial) as [body|] eqn:Hmatch;
      [|discriminate].
    assert (Hnext : forall attractor',
      scanInitials (orbiting system) rest (S i) attractor'
                   (ids ++ [id body])%list = Ok ids' ->
      exists matched,
        Forall2 (fun initial body => matching system initial = Some body)
                (initial :: rest) matched /\
        ids' = (ids ++ map id matched)%list).
    { intros attractor' Hrest. apply IH in Hrest.
      destruct Hrest as (matched & Hall & ->).
      exists (body :: matched). split; [constructor; auto|].
      rewrite <- app_assoc. reflexivity. }
    destruct (Nat.eqb i 0); [eauto|].
    destruct (negb (Nat.eqb (attractorId body) attractor));
      [discriminate | eauto].
Qed.

(** X10.  When [fromString] returns a sequence, every token of the trimmed
    string stands for a body (the first of [system.orbiting] whose name
    starts with it), there are at least two of them, they all orbit the same
    body, and the sequence is the one constructed from their ids, in the
    order of the tokens. *)
Theorem fromString_sound (str : string) (system : SolarSystem)
        (seq : FlybySequence.t) :
  fromString str system = Ok seq ->
  exists matched,
    Forall2 (fun initial body => matching system initial = Some body)
            (tokens str) matched /\
    (exists a, Forall (fun body => attractorId body = a) matched) /\
    (2 <= List.length matched)%nat /\
    seq = constructor system (map id matched) /\
    FlybySequence.length seq = List.length (tokens str).
Proof.
  unfold fromString. fold (tokens str).
  destruct (scanInitials (orbiting system) (tokens str) 0 0 [])
    as [ids|msg] eqn:Hscan; [|discriminate].
  destruct (Nat.leb (List.length ids) 1) eqn:Hlen; [discriminate|].
  intros Hok. injection Hok as <-.
  apply Nat.leb_gt in Hlen.
  destruct (scanInitials_ids _ _ _ _ _ Hscan) as (matched & Hall & ->).
  apply scanInitials_Ok in Hscan. destruct Hscan as (_ & a & _ & Hatt).
  simpl in Hlen. rewrite length_map in Hlen.
  exists matched. repeat split; auto.
  - exists a. clear Hlen.
    induction Hall as [|initial body rest bodies Hm]; auto.
    inversion Hatt as [|? ? (body' & Hm' & Ha) Hrest]; subst.
    constructor; [congruence | auto].
  - simpl. rewrite !length_map. symmetry. eapply Forall2_length; eauto.
Qed.

End FlybyFacts.

Lemma fromString_sound_witness :
  exists matched,
    Forall2 (fun initial body => matching Sample.system initial = Some body)
            (tokens " Ke-Ev-Du ") matched /\
    (exists a, Forall (fun body => attractorId body = a) matched) /\
    (2 <= List.length matched)%nat /\
    FlybySequence.constructor Sample.system [3; 2; 5]%nat =
      FlybySequence.constructor Sample.system (map System.id matched) /\
    FlybySequence.length
      (FlybySequence.constructor Sample.system [3; 2; 5]%nat) =
    List.length (tokens " Ke-Ev-Du ").
Proof.
  apply (@fromString_sound " Ke-Ev-Du " Sample.system). reflexivity.
Defined.

Section FlybyStrings.
Import System FlybySequence.
Open Scope string_scope.

(** X11.  [fromString] ignores the blanks around the string: the string
    with white space before and after it gives the same sequence, or the
    same error. *)
Theorem fromString_ignores_blanks (before after str : string)
        (system : SolarSystem) :
  forallb JsString.isWhiteSpace (list_ascii_of_string before) = true ->
  forallb JsString.isWhiteSpace (list_ascii_of_string after) = true ->
  fromString (before ++ str ++ after) system = fromString str system.
Proof.
  intros Hb Ha. unfold fromString. now rewrite trim_blanks.
Qed.

(** The abbreviation of the body of an id: the first two characters of its
    name. *)
Definition initialOf (system : SolarSystem) (i : nat) : string :=
  substring 0 2 (name (bodyFromId system i)).

Lemma constructor_seqString system ids :
  seqString (constructor system ids) =
  JsString.joinStrings (map (initialOf system) ids) "-".
Proof. unfold constructor; simpl. now rewrite map_map. Qed.

(** X12.  The [seqString] of a sequence reads back as the sequence: for
    two ids or more, each of a body that is the first of [system.orbiting]
    with its abbreviation, all orbiting the same body, the abbreviations
    holding neither a hyphen nor white space, [fromString] of the
    [seqString] of the sequence constructed from the ids returns that
    sequence. *)
Theorem seqString_roundtrip (system : SolarSystem) (ids : list nat)
        (a : nat) :
  (2 <= List.length ids)%nat ->
  Forall (fun i => exists body,
            matching system (initialOf system i) = Some body /\
            id body = i /\ attractorId body = a) ids ->
  Forall (fun i =>
            Forall (fun c => JsString.isWhiteSpace c = false /\
                             c <> "-"%char)
                   (list_ascii_of_string (initialOf system i))) ids ->
  fromString (seqString (constructor system ids)) system =
  Ok (constructor system ids).
Proof.
  intros Hlen Hbodies Hchars.
  assert (Htokens : tokens (seqString (constructor system ids)) =
                    map (initialOf system) ids).
  { unfold tokens. rewrite constructor_seqString.
    rewrite trim_no_blank.
    - apply split_joinStrings.
      + destruct ids; [simpl in Hlen; lia | discriminate].
      + apply Forall_map. eapply Forall_impl; [|exact Hchars].
        intros i Hi. eapply Forall_impl; [|exact Hi]. now intros c [_ Hc].
    - apply joinStrings_chars with
        (P := fun c => JsString.isWhiteSpace c = false).
      + repeat constructor.
      + apply Forall_map. eapply Forall_impl; [|exact Hchars].
        intros i Hi. eapply Forall_impl; [|exact Hi]. now intros c [Hc _]. }
  unfold fromString. fold (tokens (seqString (constructor system ids))).
  rewrite Htokens.
  assert (Hall : Forall (fun initial => exists body,
                   matching system initial = Some body /\
                   attractorId body = a) (map (initialOf system) ids)).
  { apply Forall_map. eapply Forall_impl; [|exact Hbodies].
    intros i (body & Hm & _ & Ha). eauto. }
  destruct (@scanInitials_complete system a (map (initialOf system) ids)
              0%nat 0%nat [] Hall) as (ids' & Hscan & _);
    [intros; contradiction|].
  simpl in Hscan. rewrite Hscan.
  destruct (scanInitials_ids _ _ _ _ _ Hscan) as (matched & Hm & Hids).
  simpl in Hids.
  assert (Hsame : ids' = ids).
  { rewrite Hids. clear -Hm Hbodies. revert matched Hm.
    induction Hbodies as [|i rest (body & Hbody & Hid & _) _ IH];
      intros matched Hm; inversion Hm as [|? body' ? bodies Hb Hrest];
      subst; simpl; auto.
    f_equal; [congruence | auto]. }
  rewrite Hsame.
  replace (Nat.leb (List.length ids) 1) with false
    by (symmetry; apply Nat.leb_gt; lia).
  reflexivity.
Qed.

End FlybyStrings.

Lemma fromString_ignores_blanks_witness :
  FlybySequence.fromString ("  " ++ "Ke-Ev" ++ " ") Sample.system =
  FlybySequence.fromString "Ke-Ev" Sample.system.
Proof.
  apply (@fromString_ignores_blanks "  " " " "Ke-Ev" Sample.system);
    reflexivity.
Defined.

Lemma seqString_roundtrip_witness :
  FlybySequence.fromString
    (FlybySequence.seqString
       (FlybySequence.constructor Sample.system [3; 2; 5]%nat))
    Sample.system =
  Ok (FlybySequence.constructor Sample.system [3; 2; 5]%nat).
Proof.
  apply (@seqString_roundtrip Sample.system [3; 2; 5]%nat 0%nat).
  - simpl; lia.
  - repeat constructor; eexists; (split; [reflexivity|]); split; reflexivity.
  - repeat constructor; discriminate.
Defined.

(** ** Trajectories: orbits, maneuver and flyby details *)

Section TrajectoryFacts.
Import Three Step Trajectory.
Context `{Rotation}.
Variable system : System.SolarSystem.
Open Scope R_scope.

(** The orbit of a step: its elements, angles in radians as they are,
    around the body of its attractor. *)
Definition orbitOf (step : TrajectoryStep) (orbit : Orbit.t) : Prop :=
  Orbit.semiMajorAxis orbit = Orbit.e_semiMajorAxis (orbitElts step) /\
  Orbit.eccentricity orbit = Orbit.e_eccentricity (orbitElts step) /\
  Orbit.inclination orbit = Orbit.e_inclination (orbitElts step) /\
  Orbit.argOfPeriapsis orbit = Orbit.e_argOfPeriapsis (orbitElts step) /\
  Orbit.ascNodeLongitude orbit =
    Orbit.e_ascNodeLongitude (orbitElts step) /\
  Orbit.attractor orbit =
    System.body (System.bodyFromId system (attractorId step)).

Lemma fromOrbitalElements_orbitOf step s :
  orbitOf step
    (fst (Orbit.fromOrbitalElements (orbitElts step)
            (System.body (System.bodyFromId system (attractorId step))) s)).
Proof.
  unfold Orbit.fromOrbitalElements, Orbit.constructor, orbitOf.
  cbn [Orbit.d_eccentricity Orbit.d_semiMajorAxis].
  destruct (Rlt_dec (Orbit.e_eccentricity (orbitElts step)) 1); cbn;
    repeat split.
Qed.

Lemma constructor_orbits_aligned todo : forall s,
  Forall2 orbitOf todo (fst (constructor_orbits system todo s)).
Proof.
  induction todo as [|step rest IH]; intros s; simpl; [constructor|].
  unfold bind at 1.
  pose proof (fromOrbitalElements_orbitOf step s) as Hfirst.
  destruct (Orbit.fromOrbitalElements _ _ s) as [orbit s1].
  unfold bind at 1. specialize (IH s1).
  destruct (constructor_orbits system rest s1) as [orbits s2].
  simpl in *. constructor; auto.
Qed.

(** X13.  The constructor of a [Trajectory] makes one orbit for each step,
    in the order of the steps: the orbit of index [i] has the elements of
    the step of index [i], the angles taken as radians, and goes around the
    body of the attractor of that step. *)
Theorem constructor_orbits_of_steps (bestSteps : list TrajectoryStep)
        (s0 : Store) :
  let this := fst (constructor system bestSteps s0) in
  steps this = bestSteps /\
  List.length (orbits this) = List.length bestSteps /\
  forall i step, nth_error bestSteps i = Some step ->
    exists orbit, nth_error (orbits this) i = Some orbit /\
                  orbitOf step orbit.
Proof.
  intros this. subst this. unfold constructor, bind.
  pose proof (constructor_orbits_aligned bestSteps s0) as Hall.
  destruct (constructor_orbits system bestSteps s0) as [orbs s1].
  simpl in *. split; [reflexivity|].
  split; [symmetry; eapply Forall2_length; eauto|].
  clear s0 s1. induction Hall as [|step orbit rest orbs' Ho Hrest IH];
    intros [|i] st Hnth; simpl in *; try discriminate.
  - injection Hnth as <-. eauto.
  - eauto.
Qed.


(** The cross product, as [cross] computes it. *)
Definition crossOf (a b : Vector3) : Vector3 :=
  mkVector3 (Three.y a * Three.z b - Three.z a * Three.y b)
            (Three.z a * Three.x b - Three.x a * Three.z b)
            (Three.x a * Three.y b - Three.y a * Three.x b).

(** The ejection angle that the details of a maneuver hold: for an
    ejection, the angle between the position of the maneuver and the
    velocity of the body of the step at the departure date, and none
    otherwise. *)
Definition ejectAngleAt (departureDate : R) (step : TrajectoryStep)
           (maneuvre : ManeuvreInfo) : option JsMath.number :=
  match context maneuvre with
  | ejection =>
      let body := System.bodyFromId system (attractorId step) in
      let bodyNu := System.trueAnomalyAtDate body departureDate in
      Some (ejectAngleOf (position maneuvre)
                         (velocityAt (System.orbit body) bodyNu))
  | _ => None
  end.

(** The entries of the details of a maneuver: the delta-V along the
    prograde direction, along the normal of the orbit as the store has it,
    and along their cross product, and the ejection angle. *)
Lemma maneuvreDetails_values departureDate i step maneuvre orbit s :
  (Orbit.normal orbit < List.length s)%nat ->
  let details :=
    fst (maneuvreDetails system departureDate i step maneuvre orbit s) in
  let p := progradeDir maneuvre in
  let n := deref s (Orbit.normal orbit) in
  let dv := deltaVToPrevStep maneuvre in
  stepIndex details = i /\
  dateMET details = dateOfStart step - departureDate /\
  progradeDV details = dot3 p dv /\
  normalDV details = dot3 n dv /\
  radialDV details = dot3 (crossOf p n) dv /\
  totalDV details = length3 dv /\
  ejectAngle details = ejectAngleAt departureDate step maneuvre.
Proof.
  unfold maneuvreDetails, crossOf, ejectAngleAt.
  destruct (progradeDir maneuvre) as [px py pz].
  destruct (deltaVToPrevStep maneuvre) as [dx dy dz].
  cbn [Three.x Three.y Three.z].
  generalize (Orbit.normal orbit). intros n Hn.
  destruct (context maneuvre).
  - store_run.
    match goal with
    | |- context [Orbit.velocityFromTrueAnomaly ?o ?nu ?s4] =>
        pose proof (velocityFromTrueAnomaly_allocates_only o nu s4)
          as [Hl Hk];
        pose proof (velocityFromTrueAnomaly_value o nu s4) as Hvel;
        destruct (Orbit.velocityFromTrueAnomaly o nu s4) as [vel s5]
    end.
    cbn [fst snd stepIndex dateMET progradeDV normalDV radialDV totalDV
         ejectAngle] in *.
    rewrite Hvel.
    rewrite !Hk by store_lengths.
    rewrite (@deref_alloc_old s _ n Hn). generalize (deref s n). intros nv.
    store_eval. repeat split.
  - store_run.
    cbn [fst snd stepIndex dateMET progradeDV normalDV radialDV totalDV
         ejectAngle].
    rewrite (@deref_alloc_old s _ n Hn). generalize (deref s n). intros nv.
    store_eval. repeat split.
  - store_run.
    cbn [fst snd stepIndex dateMET progradeDV normalDV radialDV totalDV
         ejectAngle].
    rewrite (@deref_alloc_old s _ n Hn). generalize (deref s n). intros nv.
    store_eval. repeat split.
Qed.


(** What the loop body computes for the step of index [i], [n] being the
    normal of the orbit of the step. *)
Definition detailsOf (departureDate : R) (n : Vector3)
           (entry : nat * TrajectoryStep * ManeuvreInfo)
           (details : ManeuvreDetails) : Prop :=
  let '(i, step, maneuvre) := entry in
  let p := progradeDir maneuvre in
  let dv := deltaVToPrevStep maneuvre in
  stepIndex details = i /\
  dateMET details = dateOfStart step - departureDate /\
  progradeDV details = dot3 p dv /\
  normalDV details = dot3 n dv /\
  radialDV details = dot3 (crossOf p n) dv /\
  totalDV details = length3 dv /\
  ejectAngle details = ejectAngleAt departureDate step maneuvre.

(** The steps that have a maneuver, with their indices, [i] being the index
    of the first step of the list. *)
Fixpoint maneuvresFrom (todo : list TrajectoryStep) (i : nat)
  : list (nat * TrajectoryStep * ManeuvreInfo) :=
  match todo with
  | [] => []
  | step :: rest =>
      match maneuvre step with
      | Some m => (i, step, m) :: maneuvresFrom rest (S i)
      | None => maneuvresFrom rest (S i)
      end
  end.

Lemma maneuvreDetails_allocates_only departureDate i step maneuvre orbit :
  allocates_only (maneuvreDetails system departureDate i step maneuvre orbit).
Proof.
  intros s. unfold maneuvreDetails.
  destruct (context maneuvre); store_run;
    try (cbn [snd]; frame_store).
  match goal with
  | |- context [Orbit.velocityFromTrueAnomaly ?o ?nu ?s4] =>
      pose proof (velocityFromTrueAnomaly_allocates_only o nu s4) as Hv;
      destruct (Orbit.velocityFromTrueAnomaly o nu s4) as [vel s5];
      assert (Hs4 : keeps (List.length s) s s4) by frame_store;
      assert (Hlen : (List.length s <= List.length s4)%nat)
        by store_lengths;
      revert Hv Hs4 Hlen; generalize s4; intros s4' Hv Hs4 Hlen
  end.
  cbn [snd] in *. apply keeps_trans with s4'; auto.
  now apply keeps_weaken with (List.length s4').
Qed.

(** The loop over the steps of a trajectory whose orbits are objects of the
    store [s0]: it does not throw, it leaves the objects of [s0] as they
    are, and it pushes the details of the steps that have a maneuver, in
    their order. *)
Lemma detailsLoop_values departureDate orbs s0 :
  Forall (fun o => (Orbit.normal o < List.length s0)%nat) orbs ->
  forall todo i pushed s,
    (i + List.length todo <= List.length orbs)%nat ->
    keeps (List.length s0) s0 s ->
    let r := detailsLoop system departureDate orbs todo i pushed s in
    fst (fst r) = Ok tt /\
    keeps (List.length s0) s0 (snd r) /\
    exists added,
      snd (fst r) = (pushed ++ added)%list /\
      Forall2 (fun entry details => exists orbit,
                 nth_error orbs (fst (fst entry)) = Some orbit /\
                 detailsOf departureDate (deref s0 (Orbit.normal orbit))
                           entry details)
              (maneuvresFrom todo i) added.
Proof.
  intros Hrefs. induction todo as [|step rest IH]; intros i pushed s Hlen Hs;
    simpl.
  - split; [reflexivity|]. split; [exact Hs|].
    exists []. rewrite app_nil_r. auto.
  - simpl in Hlen. destruct (maneuvre step) as [m|] eqn:Hm.
    + destruct (nth_error orbs i) as [orbit|] eqn:Horbit.
      2:{ apply nth_error_None in Horbit. lia. }
      assert (Hn : (Orbit.normal orbit < List.length s0)%nat).
      { rewrite Forall_forall in Hrefs. apply Hrefs.
        eapply nth_error_In; eauto. }
      destruct Hs as [Hl0 Hk0].
      assert (Hn' : (Orbit.normal orbit < List.length s)%nat) by lia.
      pose proof (@maneuvreDetails_values departureDate i step m orbit s Hn')
        as Hvalues.
      pose proof (maneuvreDetails_allocates_only departureDate i step m orbit
                    s) as Hkeeps.
      cbv zeta. unfold bind.
      destruct (maneuvreDetails system departureDate i step m orbit s)
        as [details s']. cbn [fst snd] in Hvalues, Hkeeps.
      assert (Hs' : keeps (List.length s0) s0 s').
      { apply keeps_trans with s; [split; auto|].
        now apply keeps_weaken with (List.length s). }
      destruct (IH (S i) (pushed ++ [details])%list s') as (Hok & Hk & Hadd);
        [lia | exact Hs' |].
      destruct Hadd as (added & Heq & Hall).
      split; [exact Hok|]. split; [exact Hk|].
      exists (details :: added). rewrite Heq, <- app_assoc. split; auto.
      constructor; auto. exists orbit. split; [exact Horbit|].
      unfold detailsOf. cbv zeta in Hvalues. rewrite Hk0 in Hvalues by lia.
      exact Hvalues.
    + apply IH; [lia | exact Hs].
Qed.

(** The orbits that the constructor of a trajectory makes are objects of
    the store it leaves, with the normals that their angles give. *)
Lemma constructor_orbits_cons step rest s :
  constructor_orbits system (step :: rest) s =
  let first :=
    Orbit.fromOrbitalElements (orbitElts step)
      (System.body (System.bodyFromId system (attractorId step))) s in
  let others := constructor_orbits system rest (snd first) in
  (fst first :: fst others, snd others).
Proof.
  simpl. unfold bind, ret.
  destruct (Orbit.fromOrbitalElements _ _ s) as [orbit s1]. cbn [fst snd].
  destruct (constructor_orbits system rest s1) as [orbs s2]. reflexivity.
Qed.

Lemma fromOrbitalElements_normal elements attractor s :
  let o := fst (Orbit.fromOrbitalElements elements attractor s) in
  let s' := snd (Orbit.fromOrbitalElements elements attractor s) in
  keeps (List.length s) s s' /\
  (Orbit.normal o < List.length s')%nat /\
  deref s' (Orbit.normal o) = normalOf o.
Proof.
  unfold Orbit.fromOrbitalElements.
  split; [apply constructor_allocates_only|].
  split; [apply constructor_refs | apply constructor_vectors].
Qed.

Lemma constructor_orbits_allocates_only todo :
  allocates_only (constructor_orbits system todo).
Proof.
  induction todo as [|step rest IH]; intros s; [apply keeps_refl|].
  rewrite constructor_orbits_cons. cbv zeta. cbn [snd].
  destruct (fromOrbitalElements_normal (orbitElts step)
              (System.body (System.bodyFromId system (attractorId step))) s)
    as (Hfirst & _).
  apply keeps_trans with (snd (Orbit.fromOrbitalElements (orbitElts step)
              (System.body (System.bodyFromId system (attractorId step))) s));
    auto.
  eapply keeps_weaken; [|apply IH]. apply Hfirst.
Qed.

Lemma constructor_orbits_normals todo : forall s,
  let orbs := fst (constructor_orbits system todo s) in
  let s' := snd (constructor_orbits system todo s) in
  Forall (fun o => (Orbit.normal o < List.length s')%nat /\
                   deref s' (Orbit.normal o) = normalOf o) orbs.
Proof.
  induction todo as [|step rest IH]; intros s; [constructor|].
  rewrite constructor_orbits_cons. cbv zeta. cbn [fst snd].
  destruct (fromOrbitalElements_normal (orbitElts step)
              (System.body (System.bodyFromId system (attractorId step))) s)
    as (_ & Href & Hval).
  pose proof (constructor_orbits_allocates_only rest
                (snd (Orbit.fromOrbitalElements (orbitElts step)
                        (System.body (System.bodyFromId system
                                        (attractorId step))) s)))
    as [Hl Hk].
  constructor; [|apply IH].
  split; [lia|]. rewrite Hk by exact Href. exact Hval.
Qed.


Lemma constructed_trajectory bestSteps s0 :
  let this := fst (constructor system bestSteps s0) in
  let s1 := snd (constructor system bestSteps s0) in
  steps this = bestSteps /\ maneuvres this = [] /\
  Forall2 orbitOf bestSteps (orbits this) /\
  Forall (fun o => (Orbit.normal o < List.length s1)%nat /\
                   deref s1 (Orbit.normal o) = normalOf o) (orbits this).
Proof.
  unfold constructor, bind.
  pose proof (constructor_orbits_aligned bestSteps s0) as Hall.
  pose proof (constructor_orbits_normals bestSteps s0) as Hnormals.
  destruct (constructor_orbits system bestSteps s0) as [orbs s1].
  cbn [fst snd ret steps orbits maneuvres] in *. auto.
Qed.

Lemma maneuvresFrom_nth todo : forall k entry,
  In entry (maneuvresFrom todo k) ->
  exists j, fst (fst entry) = (k + j)%nat /\
            nth_error todo j = Some (snd (fst entry)) /\
            maneuvre (snd (fst entry)) = Some (snd entry).
Proof.
  induction todo as [|step rest IH]; intros k entry Hin; simpl in Hin;
    [contradiction|].
  assert (Hrest : In entry (maneuvresFrom rest (S k)) ->
                  exists j, fst (fst entry) = (k + j)%nat /\
                            nth_error (step :: rest) j =
                              Some (snd (fst entry)) /\
                            maneuvre (snd (fst entry)) = Some (snd entry)).
  { intros Hin'. destruct (IH _ _ Hin') as (j & Hidx & Hnth & Hm).
    exists (S j). split; [lia | auto]. }
  destruct (maneuvre step) as [m|] eqn:Hm; auto.
  destruct Hin as [<- | Hin]; auto.
  exists 0%nat. simpl. split; [lia | auto].
Qed.

Lemma _calculateManeuvresDetails_cons this step0 others s :
  steps this = step0 :: others ->
  _calculateManeuvresDetails system this s =
  let r := detailsLoop system (dateOfStart step0) (orbits this)
                       (step0 :: others) 0 (maneuvres this) s in
  ((fst (fst r),
    mkTrajectory (step0 :: others) (orbits this) (snd (fst r))), snd r).
Proof.
  intros Hsteps. unfold _calculateManeuvresDetails. rewrite Hsteps.
  unfold bind, ret. now destruct (detailsLoop _ _ _ _ _ _ _) as [[? ?] ?].
Qed.

(** The details that [_calculateManeuvresDetails] leaves in a trajectory
    just constructed, with at least one step. *)
Lemma calculated_details step0 others s0 :
  let bestSteps := step0 :: others in
  let this := fst (constructor system bestSteps s0) in
  let s1 := snd (constructor system bestSteps s0) in
  let r := _calculateManeuvresDetails system this s1 in
  fst (fst r) = Ok tt /\
  steps (snd (fst r)) = bestSteps /\
  keeps (List.length s1) s1 (snd r) /\
  Forall2 (fun entry details => exists orbit,
             nth_error (orbits this) (fst (fst entry)) = Some orbit /\
             detailsOf (dateOfStart step0) (normalOf orbit) entry details)
          (maneuvresFrom bestSteps 0) (maneuvres (snd (fst r))).
Proof.
  intros bestSteps this s1 r.
  destruct (constructed_trajectory bestSteps s0)
    as (Hs & Hm & Horbs & Hnormals).
  fold this s1 in Hs, Hm, Horbs, Hnormals.
  assert (Hrefs : Forall (fun o => (Orbit.normal o < List.length s1)%nat)
                         (orbits this)).
  { eapply Forall_impl; [|exact Hnormals]. now intros o [Ho _]. }
  assert (Hlen : (0 + List.length bestSteps <= List.length (orbits this))%nat).
  { rewrite (Forall2_length Horbs). simpl. lia. }
  pose proof (@detailsLoop_values (dateOfStart step0) (orbits this) s1 Hrefs
                bestSteps 0%nat [] s1 Hlen (keeps_refl _ _)) as Hloop.
  cbv zeta in Hloop. destruct Hloop as (Hok & Hk & added & Hadded & Hall).
  subst r. rewrite (@_calculateManeuvresDetails_cons this step0 others s1 Hs).
  rewrite Hm. fold bestSteps. cbv zeta.
  cbn [fst snd steps maneuvres]. rewrite Hadded.
  split; [exact Hok|]. split; [reflexivity|]. split; [exact Hk|].
  eapply Forall2_impl; [|exact Hall].
  intros entry details (orbit & Hnth & Hd). exists orbit. split; auto.
  rewrite Forall_forall in Hnormals.
  destruct (Hnormals orbit (nth_error_In _ _ Hnth)) as [_ <-]. exact Hd.
Qed.

(** C10.  The ejection angle of [_calculateManeuvresDetails] is a number
    of [-180, 180] and never [NaN], [Math.acos] being [NaN] outside
    [-1, 1]: whatever numbers the dot product [u.dot(v)] and the cross
    product are, rounding errors included, the cosine handed to
    [Math.acos] is clamped into [-1, 1], and the angle is the arc cosine of
    the clamped cosine in degrees, with the sign of the cross product.  In
    a trajectory just constructed, the details pushed are those of the
    steps that have a maneuver, one for each in the order of the steps,
    with the index of the step; the details of every maneuver whose
    context is an ejection hold that angle, a number of [-180, 180], for
    the normalized projections [u] of the position of the maneuver and [v]
    of the velocity of the body of the step at the departure date; the
    details of the other maneuvers hold none. *)
Theorem ejectAngle_in_range (bestSteps : list TrajectoryStep) (s0 : Store) :
  let this := fst (constructor system bestSteps s0) in
  let s1 := snd (constructor system bestSteps s0) in
  let r := _calculateManeuvresDetails system this s1 in
  (forall dot cross : R,
      let cosA := JsMath.min (JsMath.max dot (-1)) 1 in
      let angle := acos cosA * 180 / PI * JsMath.sign cross in
      -1 <= cosA <= 1 /\
      JsMath.acos cosA = JsMath.Num (acos cosA) /\
      ejectAngleFrom dot cross = JsMath.Num angle /\
      -180 <= angle <= 180) /\
  Forall2 (fun entry details =>
             let '(i, step, maneuvre) := entry in
             stepIndex details = i /\
             match context maneuvre with
             | ejection =>
                 let nodePos := position maneuvre in
                 let body := System.bodyFromId system (attractorId step) in
                 let bodyNu :=
                   System.trueAnomalyAtDate body
                     (dateOfStart (hd step bestSteps)) in
                 let bodyVel := velocityAt (System.orbit body) bodyNu in
                 let u := normalize2 (mkVector2 (Three.x nodePos)
                                                (Three.z nodePos)) in
                 let v := normalize2 (mkVector2 (Three.x bodyVel)
                                                (Three.z bodyVel)) in
                 let cosA := JsMath.min (JsMath.max (dot2 u v) (-1)) 1 in
                 let angle :=
                   acos cosA * 180 / PI
                   * JsMath.sign (x2 u * y2 v - y2 u * x2 v) in
                 ejectAngle details = Some (ejectAngleOf nodePos bodyVel) /\
                 ejectAngle details = Some (JsMath.Num angle) /\
                 -1 <= cosA <= 1 /\
                 -180 <= angle <= 180
             | _ => ejectAngle details = None
             end)
          (maneuvresFrom bestSteps 0) (maneuvres (snd (fst r))).
Proof.
  intros this s1 r. split.
  - intros dot cross cosA angle.
    destruct (ejectAngleFrom_number dot cross) as (Hc & Heq & Hrange).
    split; [exact Hc|]. split; [now apply acos_number|]. split; assumption.
  - destruct bestSteps as [|step0 others].
    + subst r this. constructor.
    + destruct (calculated_details step0 others s0) as (_ & _ & _ & Hall).
      fold this s1 r in Hall.
      eapply Forall2_impl; [|exact Hall].
      intros [[i step] m] details (orbit & _ & Hd).
      unfold detailsOf, ejectAngleAt in Hd.
      destruct Hd as (Hi & _ & _ & _ & _ & _ & Hangle).
      split; [exact Hi|]. cbn [hd].
      destruct (context m); try exact Hangle.
      cbv zeta in Hangle |- *. split; [exact Hangle|].
      rewrite Hangle. unfold ejectAngleOf.
      match goal with
      | |- context [ejectAngleFrom ?d ?c] =>
          destruct (ejectAngleFrom_number d c) as (Hc & Heq & Hrange)
      end.
      rewrite Heq. split; [reflexivity|]. split; assumption.
Qed.

(** X14.  In a trajectory just constructed, [_calculateManeuvresDetails]
    throws a [TypeError] when there is no step and pushes nothing;
    otherwise it returns, having pushed one entry for each step that has a
    maneuver, in the order of the steps: the entry has the index of its
    step, the date of the step counted from the start of the first step,
    and the length of the delta-V of the maneuver. *)
Theorem maneuvre_details_of_steps (bestSteps : list TrajectoryStep)
        (s0 : Store) :
  let this := fst (constructor system bestSteps s0) in
  let s1 := snd (constructor system bestSteps s0) in
  let r := _calculateManeuvresDetails system this s1 in
  match bestSteps with
  | [] => fst (fst r) = Throw "TypeError"%string /\
          maneuvres (snd (fst r)) = []
  | step0 :: _ =>
      fst (fst r) = Ok tt /\
      Forall2 (fun entry details =>
                 stepIndex details = fst (fst entry) /\
                 dateMET details =
                   dateOfStart (snd (fst entry)) - dateOfStart step0 /\
                 totalDV details = length3 (deltaVToPrevStep (snd entry)))
              (maneuvresFrom bestSteps 0) (maneuvres (snd (fst r)))
  end.
Proof.
  destruct bestSteps as [|step0 others]; intros this s1 r.
  - subst r this. split; reflexivity.
  - destruct (calculated_details step0 others s0) as (Hok & _ & _ & Hall).
    fold this s1 r in Hok, Hall. split; [exact Hok|].
    eapply Forall2_impl; [|exact Hall].
    intros [[i step] m] details (orbit & _ & Hd).
    unfold detailsOf in Hd. cbn [fst snd]. tauto.
Qed.

(** The squared components of a vector along two orthogonal unit vectors
    and their cross product add up to its squared length. *)
Lemma orthonormal_components (p n dv : Vector3) :
  dot3 p p = 1 -> dot3 n n = 1 -> dot3 p n = 0 ->
  dot3 p dv * dot3 p dv + dot3 n dv * dot3 n dv
  + dot3 (crossOf p n) dv * dot3 (crossOf p n) dv = dot3 dv dv.
Proof.
  destruct p as [px py pz], n as [nx ny nz], dv as [dx dy dz].
  unfold dot3, crossOf; simpl. intros Hp Hn Hpn. nsatz.
Qed.

Lemma length3_unit (v : Vector3) : length3 v = 1 -> dot3 v v = 1.
Proof. intros Hv. rewrite <- length3_sqr, Hv. ring. Qed.

Lemma components_length (p n dv : Vector3) (details : ManeuvreDetails) :
  length3 p = 1 -> length3 n = 1 -> dot3 p n = 0 ->
  progradeDV details = dot3 p dv ->
  normalDV details = dot3 n dv ->
  radialDV details = dot3 (crossOf p n) dv ->
  length3 (mkVector3 (progradeDV details) (normalDV details)
                     (radialDV details)) = length3 dv.
Proof.
  intros Hp Hn Hpn -> -> ->. unfold length3 at 1. cbn [Three.x Three.y Three.z].
  rewrite orthonormal_components by auto using length3_unit.
  reflexivity.
Qed.

(** X15.  When the prograde direction of a maneuver and the normal of the
    orbit are orthogonal unit vectors, the prograde, normal and radial
    components that the details record are those of the delta-V in an
    orthonormal frame: the length of the vector they make, which
    [get totalDeltaV] adds up, is the [totalDV] of the details. *)
Theorem maneuvre_components (departureDate : R) (i : nat)
        (step : TrajectoryStep) (maneuvre : ManeuvreInfo) (orbit : Orbit.t)
        (s : Store) :
  (Orbit.normal orbit < List.length s)%nat ->
  length3 (progradeDir maneuvre) = 1 ->
  length3 (deref s (Orbit.normal orbit)) = 1 ->
  dot3 (progradeDir maneuvre) (deref s (Orbit.normal orbit)) = 0 ->
  let details :=
    fst (maneuvreDetails system departureDate i step maneuvre orbit s) in
  length3 (mkVector3 (progradeDV details) (normalDV details)
                     (radialDV details)) = totalDV details.
Proof.
  intros Href Hp Hn Hpn details.
  destruct (@maneuvreDetails_values departureDate i step maneuvre orbit s Href)
    as (_ & _ & H1 & H2 & H3 & H4 & _).
  fold details in H1, H2, H3, H4. rewrite H4.
  apply (@components_length (progradeDir maneuvre)
           (deref s (Orbit.normal orbit)) (deltaVToPrevStep maneuvre)
           details); assumption.
Qed.

End TrajectoryFacts.

(** ** The total delta-V of a trajectory *)

Section TotalDeltaV.
Import Three Step Trajectory TrajectoryDisplay.
Context `{Rotation}.
Variable system : System.SolarSystem.
Open Scope R_scope.

Definition sumR (l : list R) : R := fold_right Rplus 0 l.

(** What [get totalDeltaV()] adds for an entry of the details. *)
Definition magnitude (details : ManeuvreDetails) : R :=
  length3 (mkVector3 (progradeDV details) (normalDV details)
                     (radialDV details)).

Lemma length3_nonneg (v : Vector3) : 0 <= length3 v.
Proof. apply sqrt_pos. Qed.

Lemma sumR_nonneg (l : list R) : Forall (fun r => 0 <= r) l -> 0 <= sumR l.
Proof. induction 1; simpl; lra. Qed.

Lemma sumR_bound (l : list R) (r : R) :
  Forall (fun r => 0 <= r) l -> In r l -> r <= sumR l.
Proof.
  induction 1 as [|r' l Hr' Hl IH]; intros Hin; [contradiction|].
  simpl. pose proof (sumR_nonneg Hl).
  destruct Hin as [-> | Hin]; [lra | specialize (IH Hin); lra].
Qed.

Lemma totalDeltaVLoop_value pushed : forall total s,
  fst (totalDeltaVLoop pushed total s) =
    total + sumR (map magnitude pushed) /\
  keeps (List.length s) s (snd (totalDeltaVLoop pushed total s)).
Proof.
  induction pushed as [|details rest IH]; intros total s; simpl.
  - split; [ring | apply keeps_refl].
  - unfold bind, newVector3, read. rewrite deref_alloc_new.
    destruct (IH (total + magnitude details)
                 (s ++ [mkVector3 (progradeDV details) (normalDV details)
                                  (radialDV details)])%list) as [Hv Hk].
    unfold magnitude in *. split; [rewrite Hv; ring|].
    eapply keeps_trans; [|eapply keeps_weaken; [|exact Hk]].
    + apply keeps_alloc. lia.
    + rewrite length_app. simpl. lia.
Qed.

(** X16.  [get totalDeltaV()] returns the sum of the lengths of the
    vectors of components of the maneuvers: a number that is not negative
    and not below the length for any one maneuver.  The vectors it makes
    are new ones: the objects that exist are left as they are. *)
Theorem totalDeltaV_getter (this : Trajectory.t) (s : Store) :
  let total := fst (totalDeltaV this s) in
  total = sumR (map magnitude (maneuvres this)) /\
  0 <= total /\
  (forall details, In details (maneuvres this) ->
                   magnitude details <= total) /\
  keeps (List.length s) s (snd (totalDeltaV this s)).
Proof.
  intros total. subst total. unfold totalDeltaV.
  destruct (totalDeltaVLoop_value (maneuvres this) 0 s) as [Hv Hk].
  rewrite Hv, Rplus_0_l.
  assert (Hpos : Forall (fun r => 0 <= r) (map magnitude (maneuvres this))).
  { apply Forall_map, Forall_forall. intros d _. apply length3_nonneg. }
  split; [reflexivity|]. split; [now apply sumR_nonneg|].
  split; [|exact Hk].
  intros details Hin. apply sumR_bound; auto. now apply in_map.
Qed.

(** The normal of the orbit of a step, from its elements. *)
Definition normalOfElements (elements : Orbit.OrbitalElements3D) : Vector3 :=
  rotated (rotated unitY (Orbit.e_ascNodeLongitude elements) unitX)
          (Orbit.e_inclination elements) unitY.

Lemma orbitOf_normal step orbit :
  orbitOf system step orbit ->
  normalOf orbit = normalOfElements (orbitElts step).
Proof.
  intros (_ & _ & Hi & _ & Ha & _).
  unfold normalOf, ascNodeDirOf, normalOfElements. now rewrite Hi, Ha.
Qed.

Lemma Forall2_nth_error {A B} (R : A -> B -> Prop) l l' :
  Forall2 R l l' ->
  forall i a b, nth_error l i = Some a -> nth_error l' i = Some b -> R a b.
Proof.
  induction 1 as [|a0 b0 l l' Hab Hrest IH]; intros [|i] a b Ha Hb;
    simpl in *; try discriminate.
  - congruence.
  - eauto.
Qed.

(** X17.  For a trajectory just constructed and its details calculated,
    [get totalDeltaV()] returns the sum of the lengths of the delta-V
    vectors of the maneuvers of the steps, whenever the prograde direction
    of each maneuver is a unit vector orthogonal to the normal of the orbit
    of its step, the rotation keeping lengths. *)
Theorem totalDeltaV_of_steps (bestSteps : list TrajectoryStep)
        (s0 : Store) :
  isometric ->
  (forall step m,
      In step bestSteps -> maneuvre step = Some m ->
      length3 (progradeDir m) = 1 /\
      dot3 (progradeDir m) (normalOfElements (orbitElts step)) = 0) ->
  let this := fst (constructor system bestSteps s0) in
  let s1 := snd (constructor system bestSteps s0) in
  let r := _calculateManeuvresDetails system this s1 in
  fst (totalDeltaV (snd (fst r)) (snd r)) =
  sumR (map (fun entry => length3 (deltaVToPrevStep (snd entry)))
            (maneuvresFrom bestSteps 0)).
Proof.
  intros Hiso Hframes this s1 r.
  unfold totalDeltaV.
  destruct (totalDeltaVLoop_value (maneuvres (snd (fst r))) 0 (snd r))
    as [Htotal _].
  rewrite Htotal, Rplus_0_l. f_equal. clear Htotal.
  destruct bestSteps as [|step0 others].
  { subst r this. reflexivity. }
  set (bestSteps := step0 :: others) in *.
  destruct (constructed_trajectory system bestSteps s0)
    as (_ & _ & Horbs & _).
  fold this in Horbs.
  assert (Hall : Forall2 (fun entry details => exists orbit,
             nth_error (orbits this) (fst (fst entry)) = Some orbit /\
             detailsOf system (dateOfStart step0) (normalOf orbit)
                       entry details)
          (maneuvresFrom bestSteps 0) (maneuvres (snd (fst r)))).
  { apply calculated_details. }
  clearbody r.
  assert (Hentries : forall entry, In entry (maneuvresFrom bestSteps 0) ->
            nth_error bestSteps (fst (fst entry)) = Some (snd (fst entry)) /\
            maneuvre (snd (fst entry)) = Some (snd entry)).
  { intros entry Hin. destruct (maneuvresFrom_nth _ _ _ Hin)
      as (j & Hj & Hnth & Hm).
    simpl in Hj. subst j. auto. }
  revert Hentries Hall.
  generalize (maneuvresFrom bestSteps 0) (maneuvres (snd (fst r))).
  intros entries pushed Hentries Hall.
  induction Hall as [|entry details rest pushed' (orbit & Hnth & Hd) _ IH];
    [reflexivity|].
  simpl. f_equal; [|apply IH; intros e He; apply Hentries; now right].
  destruct (Hentries entry (or_introl eq_refl)) as [Hstep Hm].
  destruct entry as [[i step] m]. cbn [fst snd] in *.
  pose proof (Forall2_nth_error Horbs _ Hstep Hnth) as Horbit.
  destruct (Hframes step m (nth_error_In _ _ Hstep) Hm) as [Hp Hpn].
  destruct Hd as (_ & _ & H1 & H2 & H3 & _).
  unfold magnitude.
  apply (@components_length (progradeDir m) (normalOf orbit)
           (deltaVToPrevStep m) details); auto.
  - now apply normalOf_unit.
  - now rewrite (orbitOf_normal Horbit).
Qed.

End TotalDeltaV.

(** ** A sample trajectory

    An ejection burn around Kerbin, then a coast around Kerbol; the orbits
    lie in the reference plane. *)

Module SampleTrajectory.
Import Three Step.
Open Scope R_scope.

Definition ejectionBurn : ManeuvreInfo :=
  mkManeuvre (mkVector3 1 0 0) (mkVector3 1 0 0) (mkVector3 3 0 4) ejection.

Definition departure : TrajectoryStep :=
  mkStep (Orbit.mkElements 0 700000 0 0 0) 3 100 50 0 0 1
         (Some ejectionBurn) None.

Definition coast : TrajectoryStep :=
  mkStep (Orbit.mkElements 0.1 13000000000 0 0 0) 0 150 1000 0 0 1
         None None.

Definition arrival : TrajectoryStep :=
  mkStep (Orbit.mkElements 0 800000 0 0 0) 2 1150 10 0 0 1 None None.

Definition bestSteps : list TrajectoryStep := [departure; coast].
Definition threeSteps : list TrajectoryStep := [departure; coast; arrival].

Lemma axisAngle_zero (axis v : Vector3) :
  rotated (Rotation := Sample.axisAngle) axis 0 v = v.
Proof.
  unfold rotated, Sample.axisAngle. rewrite cos_0, sin_0.
  destruct v as [vx vy vz]; simpl. f_equal; ring.
Qed.

Lemma normal_in_plane (e a w : R) :
  normalOfElements (H := Sample.axisAngle) (Orbit.mkElements e a 0 0 w) =
  unitY.
Proof. unfold normalOfElements; simpl. now rewrite !axisAngle_zero. Qed.

End SampleTrajectory.

Lemma maneuvre_components_witness :
  let orbit := Sample.kerbinOrbit in
  let s := snd (Orbit.constructor (H := Sample.axisAngle) Sample.kerbinData
                  Sample.kerbol true []) in
  let details :=
    fst (Trajectory.maneuvreDetails (H := Sample.axisAngle) Sample.system 100
           0 SampleTrajectory.departure SampleTrajectory.ejectionBurn
           orbit s) in
  Three.length3
    (Three.mkVector3 (Trajectory.progradeDV details)
       (Trajectory.normalDV details) (Trajectory.radialDV details)) =
  Trajectory.totalDV details.
Proof.
  assert (Hnormal :
    Three.deref (snd (Orbit.constructor (H := Sample.axisAngle)
                        Sample.kerbinData Sample.kerbol true []))
                (Orbit.normal Sample.kerbinOrbit) = unitY).
  { unfold Sample.kerbinOrbit.
    destruct (constructor_vectors (H := Sample.axisAngle) Sample.kerbinData
                Sample.kerbol true []) as (_ & -> & _).
    destruct (constructor_angles (H := Sample.axisAngle) Sample.kerbinData
                Sample.kerbol true []) as (Hi & _ & Ha).
    unfold normalOf, ascNodeDirOf. rewrite Hi, Ha; simpl.
    unfold Three.degToRad. rewrite Rmult_0_l.
    now rewrite !SampleTrajectory.axisAngle_zero. }
  apply (maneuvre_components (H := Sample.axisAngle) Sample.system 100 0
           SampleTrajectory.departure SampleTrajectory.ejectionBurn
           Sample.kerbinOrbit).
  - apply (constructor_refs (H := Sample.axisAngle) Sample.kerbinData
             Sample.kerbol true []).
  - exact length3_unitX.
  - rewrite Hnormal. exact length3_unitY.
  - rewrite Hnormal. unfold Three.dot3, unitY; simpl. ring.
Defined.

Lemma totalDeltaV_of_steps_witness :
  let this := fst (Trajectory.constructor (H := Sample.axisAngle)
                     Sample.system SampleTrajectory.bestSteps []) in
  let s1 := snd (Trajectory.constructor (H := Sample.axisAngle)
                   Sample.system SampleTrajectory.bestSteps []) in
  let r := Trajectory._calculateManeuvresDetails (H := Sample.axisAngle)
             Sample.system this s1 in
  fst (TrajectoryDisplay.totalDeltaV (snd (fst r)) (snd r)) =
  sumR (map (fun entry =>
               Three.length3 (Step.deltaVToPrevStep (snd entry)))
            (maneuvresFrom SampleTrajectory.bestSteps 0)).
Proof.
  apply (totalDeltaV_of_steps (H := Sample.axisAngle) Sample.system
           SampleTrajectory.bestSteps [] axisAngle_isometric).
  intros step m [<- | [<- | []]] Hm; simpl in Hm; [|discriminate].
  injection Hm as <-. split; [exact length3_unitX|].
  unfold SampleTrajectory.departure; simpl.
  rewrite SampleTrajectory.normal_in_plane.
  unfold Three.dot3, unitY; simpl. ring.
Defined.

(** ** Flyby details and the step of the pod *)

Section DisplayFacts.
Import Step TrajectoryDisplay.
Variable system : System.SolarSystem.
Open Scope R_scope.

(** The flybys of the steps, in their order. *)
Fixpoint flybysOf (todo : list TrajectoryStep) : list FlybyInfo :=
  match todo with
  | [] => []
  | step :: rest =>
      match flyby step with
      | Some info => info :: flybysOf rest
      | None => flybysOf rest
      end
  end.

Lemma flybysLoop_map departureDate todo : forall flybys,
  flybysLoop system departureDate todo flybys =
  (flybys ++ map (flybyDetails system departureDate) (flybysOf todo))%list.
Proof.
  induction todo as [|step rest IH]; intros flybys; simpl.
  - now rewrite app_nil_r.
  - destruct (flyby step) as [info|]; [|apply IH].
    rewrite IH, <- app_assoc. reflexivity.
Qed.

(** X18.  [_calculateFlybyDetails] throws a [TypeError] when there is no
    step and pushes nothing; otherwise it pushes one entry for each step
    that has a flyby, in the order of the steps.  The entry has the body of
    the flyby; its inclination is at most 90 degrees, and not negative when
    the inclination of the flyby is between 0 and 180 degrees; the time
    between its two dates is the time spent in the sphere of influence; and
    its altitude, 1000 times, is the radius of the periapsis less the
    radius of the body. *)
Theorem flyby_details_of_steps (this : Trajectory.t)
        (flybys : list FlybyDetails) :
  match Trajectory.steps this with
  | [] => _calculateFlybyDetails system this flybys =
          (Throw "TypeError"%string, flybys)
  | step0 :: _ =>
      exists added,
        _calculateFlybyDetails system this flybys =
          (Ok tt, (flybys ++ added)%list) /\
        Forall2 (fun info details =>
                   fd_bodyId details = bodyId info /\
                   soiEnterDateMET details =
                     soiEnterDate info - dateOfStart step0 /\
                   soiExitDateMET details - soiEnterDateMET details =
                     soiExitDate info - soiEnterDate info /\
                   periAltitude details * 1000 =
                     periRadius info
                     - Body.radius (System.body (System.bodyFromId system
                                                   (bodyId info))) /\
                   inclinationDeg details <= 90 /\
                   (0 <= inclination info * 57.2957795131 <= 180 ->
                    0 <= inclinationDeg details))
                (flybysOf (Trajectory.steps this)) added
  end.
Proof.
  unfold _calculateFlybyDetails.
  destruct (Trajectory.steps this) as [|step0 others] eqn:Hsteps;
    [reflexivity|].
  rewrite flybysLoop_map. eexists; split; [reflexivity|].
  generalize (flybysOf (step0 :: others)). intros infos.
  induction infos as [|info infos IH]; simpl; constructor; auto.
  unfold flybyDetails; simpl. repeat split; try lra.
  - destruct (Rgt_dec (inclination info * 57.2957795131) 90); lra.
  - destruct (Rgt_dec (inclination info * 57.2957795131) 90); lra.
Qed.

Lemma podLoop_spec date bound rest : forall i,
  (i <= bound)%Z ->
  let r := podLoop rest i bound date in
  (i <= r <= bound)%Z /\
  (r <= i + Z.of_nat (List.length rest))%Z /\
  (forall j step, (i <= j < r)%Z ->
                  nth_error rest (Z.to_nat (j - i)) = Some step ->
                  during step date = false) /\
  ((r < bound)%Z -> (r < i + Z.of_nat (List.length rest))%Z ->
   exists step, nth_error rest (Z.to_nat (r - i)) = Some step /\
                during step date = true).
Proof.
  induction rest as [|step rest IH]; intros i Hi; simpl.
  - repeat split; try lia.
  - destruct (Z.ltb_spec i bound) as [Hlt|Hge].
    + destruct (during step date) eqn:Hduring.
      * repeat split; try lia.
        intros _ _. exists step. rewrite Z.sub_diag. auto.
      * destruct (IH (i + 1)%Z) as (Hr & Hlen & Hbefore & Hat); [lia|].
        split; [lia|]. split; [lia|]. split.
        -- intros j st Hj Hnth.
           destruct (Z.eq_dec j i) as [->|Hne].
           ++ rewrite Z.sub_diag in Hnth. simpl in Hnth. congruence.
           ++ apply (Hbefore j st); [lia|].
              replace (Z.to_nat (j - i)) with (S (Z.to_nat (j - (i + 1))))
                in Hnth by lia.
              exact Hnth.
        -- intros Hb Hl. destruct Hat as (st & Hnth & Hd); [lia | lia |].
           exists st. split; auto.
           replace (Z.to_nat (podLoop rest (i + 1) bound date - i))
             with (S (Z.to_nat (podLoop rest (i + 1) bound date - (i + 1))))
             by lia.
           exact Hnth.
    + repeat split; try lia.
Qed.

(** X19.  When a trajectory has two steps at least before its final orbit
    (the last step, unless it is a flyby), [updatePodPosition] moves the
    pod to a step between the second and the last before the final orbit:
    the first of them during which the date falls, or the last of them
    when the date falls during none.  The date is the one selected, clamped
    to the mission: the start of the mission when the date selected is
    before it; otherwise the end of the mission, when the date selected is
    after it; otherwise the date selected. *)
Theorem podStep_choice (step0 : TrajectoryStep)
        (others : list TrajectoryStep) (dateSeconds : R) :
  let steps := step0 :: others in
  let lastStep := last steps step0 in
  let missionStart := dateOfStart step0 in
  let missionEnd := dateOfStart lastStep + duration lastStep in
  let k := match flyby lastStep with Some _ => 0 | None => 1 end%Z in
  let bound := (Z.of_nat (List.length steps) - k)%Z in
  (2 <= bound)%Z ->
  exists date i,
    podStep steps dateSeconds = Ok (date, i) /\
    (1 <= i <= bound - 1)%Z /\
    (dateSeconds < missionStart -> date = missionStart) /\
    (missionStart <= dateSeconds -> missionEnd < dateSeconds ->
     date = missionEnd) /\
    (missionStart <= dateSeconds <= missionEnd -> date = dateSeconds) /\
    (missionStart <= missionEnd -> missionStart <= date <= missionEnd) /\
    (forall j step, (1 <= j < i)%Z ->
                    nth_error steps (Z.to_nat j) = Some step ->
                    during step date = false) /\
    ((exists step, nth_error steps (Z.to_nat i) = Some step /\
                   during step date = true) \/
     (i = (bound - 1)%Z /\
      forall j step, (1 <= j < bound)%Z ->
                     nth_error steps (Z.to_nat j) = Some step ->
                     during step date = false)).
Proof.
  intros steps lastStep missionStart missionEnd k bound Hbound.
  unfold podStep. fold steps. fold lastStep. cbv zeta. fold k. fold bound.
  subst missionStart missionEnd.
  set (date :=
         if Rlt_dec dateSeconds (dateOfStart step0) then dateOfStart step0
         else if Rgt_dec dateSeconds
                         (dateOfStart lastStep + duration lastStep)
              then dateOfStart lastStep + duration lastStep
              else dateSeconds).
  assert (Hk : (0 <= k <= 1)%Z) by (subst k; destruct (flyby lastStep); lia).
  assert (Hnth : forall j st, (1 <= j)%Z ->
            nth_error steps (Z.to_nat j) = Some st ->
            nth_error others (Z.to_nat (j - 1)) = Some st).
  { intros j st Hj Hst.
    replace (Z.to_nat j) with (S (Z.to_nat (j - 1))) in Hst by lia.
    exact Hst. }
  assert (Hnth' : forall j st, (1 <= j)%Z ->
            nth_error others (Z.to_nat (j - 1)) = Some st ->
            nth_error steps (Z.to_nat j) = Some st).
  { intros j st Hj Hst.
    replace (Z.to_nat j) with (S (Z.to_nat (j - 1))) by lia.
    exact Hst. }
  destruct (@podLoop_spec date bound others 1%Z)
    as (Hr & Hlen & Hbefore & Hat); [lia|].
  change (skipn 1 steps) with others.
  set (r := podLoop others 1 bound date) in *.
  exists date, (Z.min r (bound - 1)).
  split; [reflexivity|]. split; [lia|].
  assert (Hdate :
    (dateSeconds < dateOfStart step0 -> date = dateOfStart step0) /\
    (dateOfStart step0 <= dateSeconds ->
     dateOfStart lastStep + duration lastStep < dateSeconds ->
     date = dateOfStart lastStep + duration lastStep) /\
    (dateOfStart step0 <= dateSeconds
       <= dateOfStart lastStep + duration lastStep -> date = dateSeconds) /\
    (dateOfStart step0 <= dateOfStart lastStep + duration lastStep ->
     dateOfStart step0 <= date
       <= dateOfStart lastStep + duration lastStep)).
  { subst date.
    destruct (Rlt_dec dateSeconds (dateOfStart step0));
      [repeat split; intros; lra|].
    destruct (Rgt_dec dateSeconds _); repeat split; intros; lra. }
  destruct Hdate as (Hbefore' & Hafter & Hin & Hmission).
  split; [exact Hbefore'|]. split; [exact Hafter|]. split; [exact Hin|].
  split; [exact Hmission|]. split.
  - intros j st Hj Hst.
    apply (Hbefore j st); [lia | apply Hnth; [lia | exact Hst]].
  - destruct (Z.lt_ge_cases r bound) as [Hlt|Hge].
    + left. destruct Hat as (st & Hst & Hd); [lia | |].
      * subst bound steps. simpl List.length in *. lia.
      * exists st. replace (Z.min r (bound - 1)) with r by lia.
        split; [apply Hnth'; [lia | exact Hst] | exact Hd].
    + right. split; [lia|].
      intros j st Hj Hst.
      apply (Hbefore j st); [lia | apply Hnth; [lia | exact Hst]].
Qed.

End DisplayFacts.

Lemma podStep_choice_witness :
  let steps := SampleTrajectory.threeSteps in
  let lastStep := last steps SampleTrajectory.departure in
  let missionStart := Step.dateOfStart SampleTrajectory.departure in
  let missionEnd := (Step.dateOfStart lastStep + Step.duration lastStep)%R in
  let bound := 2%Z in
  exists date i,
    TrajectoryDisplay.podStep steps 200 = Ok (date, i) /\
    (1 <= i <= bound - 1)%Z /\
    (200 < missionStart -> date = missionStart)%R /\
    (missionStart <= 200 -> missionEnd < 200 -> date = missionEnd)%R /\
    (missionStart <= 200 <= missionEnd -> date = 200)%R /\
    (missionStart <= missionEnd -> missionStart <= date <= missionEnd)%R /\
    (forall j step, (1 <= j < i)%Z ->
                    nth_error steps (Z.to_nat j) = Some step ->
                    TrajectoryDisplay.during step date = false) /\
    ((exists step, nth_error steps (Z.to_nat i) = Some step /\
                   TrajectoryDisplay.during step date = true) \/
     (i = (bound - 1)%Z /\
      forall j step, (1 <= j < bound)%Z ->
                     nth_error steps (Z.to_nat j) = Some step ->
                     TrajectoryDisplay.during step date = false)).
Proof.
  apply (@podStep_choice SampleTrajectory.departure
           [SampleTrajectory.coast; SampleTrajectory.arrival] 200).
  simpl. lia.
Defined.

(** ** The text of a trajectory: aligned columns *)

Section TextFacts.
Import Text.
Open Scope string_scope.

Lemma length_append (s1 s2 : string) :
  String.length (s1 ++ s2) = (String.length s1 + String.length s2)%nat.
Proof. induction s1 as [|c s1 IH]; simpl; auto. Qed.

Lemma length_spaces (n : nat) : String.length (spaces n) = n.
Proof. induction n as [|n IH]; simpl; auto. Qed.

Lemma linesLoop_map pairs : forall lines,
  linesLoop pairs lines = (lines ++ map labelLine pairs)%list.
Proof.
  induction pairs as [|entry rest IH]; intros lines; simpl.
  - now rewrite app_nil_r.
  - rewrite IH, <- app_assoc. reflexivity.
Qed.

Lemma maxLenLoop_bounds lines : forall maxLen,
  (maxLen <= maxLenLoop lines maxLen)%Z /\
  Forall (fun line =>
            (Z.of_nat (String.length line) <= maxLenLoop lines maxLen)%Z)
         lines.
Proof.
  induction lines as [|line rest IH]; intros maxLen; simpl.
  - split; [lia | constructor].
  - destruct (IH (Z.max maxLen (Z.of_nat (String.length line)))) as [Hm Hall].
    split; [lia|]. constructor; [lia | exact Hall].
Qed.

Lemma update_middle (before : list string) (line line' : string)
      (after : list string) :
  update (before ++ line :: after) (List.length before) line' =
  (before ++ line' :: after)%list.
Proof. induction before as [|first before IH]; simpl; congruence. Qed.

Lemma nth_error_middle (before : list string) (line : string)
      (after : list string) :
  nth_error (before ++ line :: after) (List.length before) = Some line.
Proof. induction before as [|first before IH]; simpl; auto. Qed.

(** Whether the third loop skips the entry. *)
Definition blank (entry : Pair) : bool :=
  String.eqb (label entry) "" && String.eqb (data entry) "".

(** The line of a entry as the third loop leaves it, the data in the column
    [maxLen + 1]. *)
Definition filled (maxLen : Z) (entry : Pair) : string :=
  if blank entry then labelLine entry
  else labelLine entry
       ++ spaces (Z.to_nat (maxLen
                            - Z.of_nat (String.length (labelLine entry)) + 1))
       ++ data entry.

Lemma fillLoop_filled maxLen pairs : forall done,
  Forall (fun entry =>
            (Z.of_nat (String.length (labelLine entry)) <= maxLen)%Z) pairs ->
  fillLoop pairs (List.length done) (done ++ map labelLine pairs) maxLen =
  Ok (done ++ map (filled maxLen) pairs)%list.
Proof.
  induction pairs as [|entry rest IH]; intros done Hall; [reflexivity|].
  inversion Hall as [|? ? Hentry Hrest]; subst.
  cbn [fillLoop map]. unfold filled at 1. fold (blank entry).
  assert (Hnext : forall line,
    fillLoop rest (S (List.length done))
             (done ++ line :: map labelLine rest) maxLen =
    Ok (done ++ line :: map (filled maxLen) rest)%list).
  { intros line.
    replace (done ++ line :: map labelLine rest)%list
      with ((done ++ [line]) ++ map labelLine rest)%list
      by (rewrite <- app_assoc; reflexivity).
    replace (S (List.length done)) with (List.length (done ++ [line]))
      by (rewrite length_app; simpl; lia).
    rewrite IH by exact Hrest. rewrite <- app_assoc. reflexivity. }
  destruct (blank entry); [apply Hnext|].
  rewrite nth_error_middle. unfold repeatSpace.
  destruct (Z.ltb_spec
              (maxLen - Z.of_nat (String.length (labelLine entry)) + 1) 0);
    [lia|].
  rewrite update_middle. apply Hnext.
Qed.

Lemma filled_aligned (maxLen : Z) (pairs : list Pair) :
  Forall (fun entry =>
            (Z.of_nat (String.length (labelLine entry)) <= maxLen)%Z) pairs ->
  Forall2 (fun entry line =>
             if blank entry then line = ""
             else exists gap,
                 line = labelLine entry ++ spaces (S gap) ++ data entry /\
                 (String.length (labelLine entry) + S gap =
                  Z.to_nat (maxLen + 1))%nat)
          pairs (map (filled maxLen) pairs).
Proof.
  induction 1 as [|entry rest Hentry Hrest IH]; simpl; constructor; auto.
  unfold filled. destruct (blank entry) eqn:Hblank.
  - unfold blank in Hblank. apply andb_prop in Hblank as [Hl _].
    unfold labelLine. now rewrite Hl.
  - exists (Z.to_nat (maxLen - Z.of_nat (String.length (labelLine entry)))).
    split; [|lia].
    replace (Z.to_nat (maxLen - Z.of_nat (String.length (labelLine entry))
                       + 1))
      with (S (Z.to_nat (maxLen
                         - Z.of_nat (String.length (labelLine entry)))))
      by lia.
    reflexivity.
Qed.

(** X22.  [pairsToString] throws no error, whatever the pairs, and makes
    one line for each entry: an empty line for a entry without label and
    data, and for any other entry the label part, one space at least, and
    the data, which starts in the same column on all these lines, past
    every label part. *)
Theorem pairsToString_aligned (pairs : list Pair) :
  exists (lines : list string) (column : nat),
    pairsToString pairs = Ok (JsString.joinStrings lines newline) /\
    Forall (fun entry => (String.length (labelLine entry) < column)%nat)
           pairs /\
    Forall2 (fun entry line =>
               if blank entry then line = ""
               else exists gap,
                   line = labelLine entry ++ spaces (S gap) ++ data entry /\
                   (String.length (labelLine entry) + S gap = column)%nat)
            pairs lines.
Proof.
  unfold pairsToString. rewrite linesLoop_map. cbn [app].
  destruct (maxLenLoop_bounds (map labelLine pairs) 0) as [Hpos Hall].
  set (maxLen := maxLenLoop (map labelLine pairs) 0) in *.
  assert (Hall' : Forall (fun entry =>
            (Z.of_nat (String.length (labelLine entry)) <= maxLen)%Z) pairs).
  { rewrite Forall_map in Hall. exact Hall. }
  pose proof (@fillLoop_filled maxLen pairs [] Hall') as Hfill.
  cbn [List.length app] in Hfill. rewrite Hfill.
  exists (map (filled maxLen) pairs), (Z.to_nat (maxLen + 1)).
  split; [reflexivity|]. split.
  - eapply Forall_impl; [|exact Hall']. intros entry Hentry. cbv beta in *. lia.
  - now apply filled_aligned.
Qed.

End TextFacts.

(** ** The orbital elements that the worker precomputes *)

Section WorkerSetupFacts.
Import WorkerSetup.
Variables OrbitingBody OrbitData Elements : Type.
Variable orbit : OrbitingBody -> OrbitData.
Variable orbitElementsFromOrbitData : OrbitData -> Elements.

Lemma initializeLoop_map rest : forall _bodiesOrbits,
  initializeLoop orbit orbitElementsFromOrbitData rest _bodiesOrbits =
  (_bodiesOrbits
   ++ map (fun body => Some (orbitElementsFromOrbitData (orbit body)))
          rest)%list.
Proof.
  induction rest as [|body rest IH]; intros acc; simpl.
  - now rewrite app_nil_r.
  - rewrite IH, <- app_assoc. reflexivity.
Qed.

(** X23.  [onWorkerInitialize] leaves in [_bodiesOrbits] one entry for
    each body of the system, and one entry when the system is empty; the
    entry of index 0 is [null], and the entry of every other index [i] is
    the orbital elements of the orbit of the body of index [i]. *)
Theorem onWorkerInitialize_aligned (_system : list OrbitingBody) :
  let _bodiesOrbits :=
    onWorkerInitialize orbit orbitElementsFromOrbitData _system in
  List.length _bodiesOrbits = Nat.max 1 (List.length _system) /\
  nth_error _bodiesOrbits 0 = Some None /\
  forall i body,
    (1 <= i)%nat -> nth_error _system i = Some body ->
    nth_error _bodiesOrbits i =
    Some (Some (orbitElementsFromOrbitData (orbit body))).
Proof.
  unfold onWorkerInitialize. rewrite initializeLoop_map.
  destruct _system as [|sun others]; simpl.
  - repeat split; auto. intros [|i] body Hi Hnth; [lia | discriminate].
  - rewrite length_map. split; [lia|]. split; [reflexivity|].
    intros [|i] body Hi Hnth; [lia|]. simpl in *.
    rewrite nth_error_map, Hnth. reflexivity.
Qed.

End WorkerSetupFacts.

(** ** The fitness function: its value and the delta-V recorded *)

Section FitnessFacts.
Import Optimizer Step.
Variables Calc Rng : Type.
Variable libs : Libs Calc Rng.
Variable _system : list Body.ICelestialBody.
Variable _sequence : list nat.
Variable _settings : TrajectoryUserSettings.
Open Scope R_scope.

(** A call of [fitness] that returns a value has computed a trajectory and
    pushed its total delta-V, and nothing else, to [_newDeltaVs]. *)
Lemma fitness_returns agent st value :
  fst (fst (fitness libs _system _sequence _settings agent st)) = Ok value ->
  exists trajectory lastStep periVelCost,
    fst (fst (_computeTrajectory libs _system _sequence _settings agent
                                 (random st))) = Ok trajectory /\
    index (steps libs trajectory)
          (Z.of_nat (List.length (steps libs trajectory)) - 1) =
      Some lastStep /\
    periVelCostOf libs _system _settings lastStep = Ok periVelCost /\
    value =
      totalDeltaV libs trajectory
      + totalDeltaV libs trajectory
        * JsMath.abs (Orbit.e_inclination (orbitElts lastStep)) * 0.1
      + periVelCost
      + JsMath.max 0 (totalDuration libs trajectory - maxDuration _settings)
        * totalDeltaV libs trajectory /\
    _newDeltaVs (snd (fitness libs _system _sequence _settings agent st)) =
      (_newDeltaVs st ++ [totalDeltaV libs trajectory])%list.
Proof.
  unfold fitness.
  destruct (_computeTrajectory libs _system _sequence _settings agent
                               (random st)) as [[[trajectory|msg] a] r];
    cbn [fst snd]; [|discriminate].
  destruct (index _ _) as [lastStep|] eqn:Hindex; cbn [fst snd];
    [|discriminate].
  destruct (periVelCostOf libs _system _settings lastStep) as [cost|msg]
    eqn:Hcost; cbn [fst snd]; [|discriminate].
  intros Hvalue. injection Hvalue as <-.
  exists trajectory, lastStep, cost.
  split; [reflexivity|]. split; [exact Hindex|]. split; [exact Hcost|].
  split; [reflexivity|].
  cbn [_newDeltaVs]. f_equal. unfold updateBest. cbn [_bestDeltaV].
  destruct (below (totalDeltaV libs trajectory) (_bestDeltaV st));
    reflexivity.
Qed.

(** X20.  When the settings ask for an insertion burn ([noInsertion] is
    false) and the total delta-V of the trajectory computed is not
    negative, the value that [fitness] returns is at least that total
    delta-V. *)
Theorem fitness_at_least_deltaV (agent : Agent) (st : State Calc Rng)
        (value : R) :
  noInsertion _settings = false ->
  fst (fst (fitness libs _system _sequence _settings agent st)) = Ok value ->
  exists trajectory,
    fst (fst (_computeTrajectory libs _system _sequence _settings agent
                                 (random st))) = Ok trajectory /\
    (0 <= totalDeltaV libs trajectory ->
     totalDeltaV libs trajectory <= value).
Proof.
  intros Hinsert Hvalue.
  destruct (fitness_returns _ _ Hvalue)
    as (trajectory & lastStep & cost & Htraj & _ & Hcost & -> & _).
  exists trajectory. split; [exact Htraj|]. intros Hpos.
  unfold periVelCostOf in Hcost. rewrite Hinsert in Hcost.
  injection Hcost as <-.
  assert (H1 : 0 <= totalDeltaV libs trajectory
                    * JsMath.abs (Orbit.e_inclination (orbitElts lastStep))).
  { apply Rmult_le_pos; [exact Hpos | apply Rabs_pos]. }
  assert (H2 : 0 <= JsMath.max 0 (totalDuration libs trajectory
                                  - maxDuration _settings)
                    * totalDeltaV libs trajectory).
  { apply Rmult_le_pos; [apply Rmax_l | exact Hpos]. }
  lra.
Qed.

(** The calls of [fitness] on [agents], one after the other from the fields
    [st], all return a value. *)
Fixpoint allReturn (agents : list Agent) (st : State Calc Rng) : Prop :=
  match agents with
  | [] => True
  | agent :: rest =>
      (exists value,
          fst (fst (fitness libs _system _sequence _settings agent st)) =
          Ok value) /\
      allReturn rest (snd (fitness libs _system _sequence _settings agent st))
  end.

Lemma fitness_pushes_at_most_one agent st :
  let st' := snd (fitness libs _system _sequence _settings agent st) in
  (List.length (_newDeltaVs st') <= S (List.length (_newDeltaVs st)))%nat.
Proof.
  pose proof (fitness_fields libs _system _sequence _settings agent st) as Hf.
  cbv zeta in *.
  destruct (fst (fst (_computeTrajectory libs _system _sequence _settings
                                         agent (random st)))).
  - destruct Hf as (_ & _ & [-> | ->]); [lia|].
    rewrite length_app. simpl. lia.
  - destruct Hf as (_ & _ & ->). lia.
Qed.

(** The outcomes of [_computeTrajectory] in the calls of [fitness] on
    [agents], one call after the other from the fields [st]. *)
Fixpoint outcomes (agents : list Agent) (st : State Calc Rng)
  : list (Result Calc) :=
  match agents with
  | [] => []
  | agent :: rest =>
      fst (fst (_computeTrajectory libs _system _sequence _settings agent
                                   (random st)))
      :: outcomes rest
           (snd (fitness libs _system _sequence _settings agent st))
  end.

Lemma evaluate_pushes agents : forall st,
  allReturn agents st ->
  exists trajectories,
    outcomes agents st = map (@Ok Calc) trajectories /\
    _newDeltaVs (evaluate libs _system _sequence _settings agents st) =
      (_newDeltaVs st ++ map (totalDeltaV libs) trajectories)%list.
Proof.
  induction agents as [|agent rest IH]; intros st Hall; simpl.
  - exists []. now rewrite app_nil_r.
  - destruct Hall as [(value & Hvalue) Hrest].
    destruct (fitness_returns _ _ Hvalue)
      as (t & lastStep & cost & Htraj & _ & _ & _ & Hpush).
    destruct (IH _ Hrest) as (ts & Hts & Heq).
    exists (t :: ts). simpl. rewrite Htraj, Hts. split; [reflexivity|].
    rewrite Heq, Hpush, <- app_assoc. reflexivity.
Qed.

(** X21.  Over a run of calls of [fitness], [_newDeltaVs] gains one entry
    at most for each call.  When the calls all return a value, each has
    computed a trajectory and pushed its total delta-V: [_newDeltaVs]
    gains these, in the order of the calls, and in a run from the start
    of a search the entry of index [i] is the total delta-V of the
    trajectory computed for the agent of index [i]. *)
Theorem newDeltaVs_one_per_call (agents : list Agent)
        (st : State Calc Rng) :
  let st' := evaluate libs _system _sequence _settings agents st in
  (List.length (_newDeltaVs st')
   <= List.length (_newDeltaVs st) + List.length agents)%nat /\
  (allReturn agents st ->
   exists trajectories : list Calc,
     outcomes agents st = map (@Ok Calc) trajectories /\
     List.length trajectories = List.length agents /\
     _newDeltaVs st' =
       (_newDeltaVs st ++ map (totalDeltaV libs) trajectories)%list /\
     List.length (_newDeltaVs st') =
       (List.length (_newDeltaVs st) + List.length agents)%nat /\
     (_newDeltaVs st = [] ->
      forall i agent, nth_error agents i = Some agent ->
        exists trajectory,
          nth_error (outcomes agents st) i = Some (Ok trajectory) /\
          nth_error (_newDeltaVs st') i =
            Some (totalDeltaV libs trajectory))).
Proof.
  intros st'. split.
  - subst st'. revert st.
    induction agents as [|agent rest IH]; intros st; simpl; [lia|].
    specialize (IH (snd (fitness libs _system _sequence _settings agent st))).
    pose proof (fitness_pushes_at_most_one agent st) as Hone.
    cbv zeta in Hone. lia.
  - intros Hall. destruct (evaluate_pushes agents st Hall) as (ts & Hts & Heq).
    fold st' in Heq.
    assert (Hlen : List.length ts = List.length agents).
    { rewrite <- (length_map (@Ok Calc) ts), <- Hts. clear.
      revert st. induction agents as [|agent rest IH]; intros st; simpl;
        [reflexivity|]. now rewrite IH. }
    exists ts. split; [exact Hts|]. split; [exact Hlen|].
    split; [exact Heq|]. split.
    + rewrite Heq, length_app, length_map, Hlen. reflexivity.
    + intros Hempty i agent Hagent.
      destruct (nth_error ts i) as [t|] eqn:Ht.
      * exists t. rewrite Heq, Hempty, Hts. simpl.
        split; apply map_nth_error; exact Ht.
      * apply nth_error_None in Ht.
        assert (i < List.length agents)%nat
          by (apply nth_error_Some; congruence).
        lia.
Qed.

End FitnessFacts.

Lemma fitness_at_least_deltaV_witness :
  exists trajectory,
    fst (fst (Optimizer._computeTrajectory SampleWorker.libs
                SampleWorker.system SampleWorker.sequence
                SampleWorker.withInsertion [4000; 60]%R 0%nat)) =
      Ok trajectory /\
    (0 <= Optimizer.totalDeltaV SampleWorker.libs trajectory ->
     Optimizer.totalDeltaV SampleWorker.libs trajectory
     <= 4000 + 4000 * Rabs 0 * 0.1 + 0 + Rmax 0 (60 - 50) * 4000)%R.
Proof.
  apply (@fitness_at_least_deltaV SampleWorker.Calc SampleWorker.Rng
           SampleWorker.libs SampleWorker.system SampleWorker.sequence
           SampleWorker.withInsertion [4000; 60]%R SampleWorker.initial);
    reflexivity.
Defined.

(** ** The ejection angle: symmetries *)

Section EjectionSymmetry.
Import Three Trajectory.
Open Scope R_scope.

Lemma sign_opp (d : R) : JsMath.sign (- d) = - JsMath.sign d.
Proof.
  unfold JsMath.sign.
  destruct (Rlt_dec 0 (- d)), (Rlt_dec (- d) 0), (Rlt_dec 0 d),
    (Rlt_dec d 0); lra.
Qed.

(** X24.  The ejection angle changes sign when the position of the
    maneuver and the velocity of the body are exchanged: it is an oriented
    angle.  Both angles are numbers. *)
Theorem ejectAngleOf_antisymmetric (nodePos bodyVel : Vector3) :
  exists angle : R,
    ejectAngleOf nodePos bodyVel = JsMath.Num angle /\
    ejectAngleOf bodyVel nodePos = JsMath.Num (- angle).
Proof.
  unfold ejectAngleOf. cbv zeta.
  set (u := normalize2 (mkVector2 (Three.x nodePos) (Three.z nodePos))).
  set (v := normalize2 (mkVector2 (Three.x bodyVel) (Three.z bodyVel))).
  pose proof (ejectAngleFrom_number (dot2 u v) (x2 u * y2 v - y2 u * x2 v))
    as (_ & Huv & _).
  pose proof (ejectAngleFrom_number (dot2 v u) (x2 v * y2 u - y2 v * x2 u))
    as (_ & Hvu & _).
  eexists. split; [exact Huv|]. rewrite Hvu. f_equal.
  replace (dot2 v u) with (dot2 u v) by (unfold dot2; ring).
  replace (x2 v * y2 u - y2 v * x2 u) with (- (x2 u * y2 v - y2 u * x2 v))
    by ring.
  rewrite sign_opp. ring.
Qed.




End EjectionSymmetry.

